(** * UAV-to-ground allocation solver: a shallow embedding of [program.cpp]

    The development follows the source file top-down: the capacity field
    builder, the decay lookup tables, the candidate generator, the per-flow
    score, the greedy decoder, the local search driver and the main solver
    with its output.

    Conventions of the embedding.
    - [int] values (coordinates, times, candidate indices) are integers of
      [Z].  The narrowing conversion at the end of [capacity_idx]
      ([size_t] to [int]) is written out with its wrap-around, and so is
      the [int] sum [phi + t] of the field builder: signed overflow is
      undefined behaviour in C++, and the embedding gives that sum the
      two's-complement result of the compiled program.  The other [int]
      sums of the program (loop counters, window bounds, distances) are
      sums of coordinates and times and are left in [Z].
    - Loop counters that index the flow vector are natural numbers.
    - [double] values are read twice.  In the exact reading they are
      rationals of [Q], the constant [1e-9] is the rational [1/10^9] and
      no operation rounds: it serves for the structure of the schedules,
      the candidate generator and the search.  In the binary64 reading
      (module [B64]) they are IEEE 754 doubles and every operation rounds
      as the compiled program does: the properties of the delivered
      amounts, of the scores and of the decay tables that depend on the
      rounding are stated there.  [pow] is the function of the C library
      and is a parameter of the table builder.
    - A [std::vector] is a list; [v[i]] outside the vector is undefined
      behaviour in C++ and is a fault ([None]) here.
    - The global tables of the program are the fields of one record that is
      passed explicitly.
    - The [std::map] of the output is the list of its entries in key order.
      What is printed is kept as the list of the printed records; an amount
      is marked as printed as an integer or with six decimals, and the
      digits are not spelled out.  Reading the input is not part of the
      embedding. *)

From Stdlib Require Import ZArith QArith Qabs Qminmax Qround Qpower Lia Reals
  Psatz SpecFloat.
From stdpp Require Import base option list list_numbers sorting gmap.

Local Open Scope Z_scope.

(** ** Vectors *)

(** [v[i]] for an [int] index. *)
Definition vget {A : Type} (v : list A) (i : Z) : option A :=
  if bool_decide (0 ≤ i) then v !! Z.to_nat i else None.

(** [v[i] = a] for an [int] index. *)
Definition vset {A : Type} (v : list A) (i : Z) (a : A) : option (list A) :=
  if bool_decide (0 ≤ i < Z.of_nat (length v))
  then Some (<[Z.to_nat i := a]> v) else None.

(** [(int)v.size()] *)
Definition vsize {A : Type} (v : list A) : Z := Z.of_nat (length v).

(** The value of an integer as a 32-bit two's-complement [int]: the
    conversion of an unsigned 64-bit value to [int], and the result that
    the compiled program gives to an [int] sum that leaves the range. *)
Definition to_int (v : Z) : Z := (v + 2 ^ 31) mod 2 ^ 32 - 2 ^ 31.

(** [std::sort(first, last, comp)]: the result is a permutation of the input
    ordered by the strict comparison [comp].  The order of equivalent
    elements is unspecified by the standard; the order in which the merge
    sort used here leaves them is one possible order and need not be that
    of the C++ library, so the properties proved about sorted vectors rest
    on the permutation and on the ordering only. *)
Definition std_sort {A : Type} (comp : A → A → bool) (l : list A) : list A :=
  merge_sort (λ a b, Is_true (negb (comp b a))) l.

(** ** Doubles, in the exact reading *)

Definition eps : Q := 1e-9.

(** [a < b] and [a <= b] on doubles. *)
Definition Qltb (a b : Q) : bool :=
  match (a ?= b)%Q with Lt => true | _ => false end.
Definition Qleb (a b : Q) : bool := Qle_bool a b.

(** [std::min(a, b)]: [b] when [b < a], else [a]. *)
Definition dmin (a b : Q) : Q := if Qltb b a then b else a.

(** [(double)n] *)
Definition of_int (n : Z) : Q := inject_Z n.

(** ** Structures *)

Record Flow := mkFlow {
  fl_f : Z; fl_x : Z; fl_y : Z; fl_tf : Z;
  fl_s : Q;
  fl_m1 : Z; fl_n1 : Z; fl_m2 : Z; fl_n2 : Z }.

Record ScheduleItem := mkItem {
  it_t : Z; it_x : Z; it_y : Z;
  it_z : Q }.

Record CandidateInfo := mkCand {
  ux : Z; uy : Z;
  potential : Q;
  avg_bandwidth : Q;
  distance : Z;
  peak_times : list Z;
  total_capacity : Q }.

Record TimeSlotInfo := mkSlot {
  slot_t : Z;
  bandwidth : Q;
  delay_factor : Q;
  value : Q }.

(** The global preprocessing data. *)
Record Globals := mkGlobals {
  g_pre_bw : list (list (list Q));
  g_distance_factor : list Q;
  g_delay_factor : list Q;
  g_candidates : list (list CandidateInfo);
  g_time_slots : list (list (list TimeSlotInfo)) }.

(** [g_pre_bw[t][x][y]] *)
Definition pre_bw (bw : list (list (list Q))) (t x y : Z) : option Q :=
  plane ← vget bw t; row ← vget plane x; vget row y.

(** [m[x][y]] for the two input matrices. *)
Definition vget2 {A : Type} (m : list (list A)) (x y : Z) : option A :=
  row ← vget m x; vget row y.

(** ** Capacity field builder *)

(** The body of the innermost loop of [build_bandwidth_matrix]: the value
    stored at [g_pre_bw[t][x][y]].  [phi + t] is a sum of two [int]
    values, taken with its wrap-around ([to_int]); [%] is the C++
    remainder, which truncates towards zero ([Z.rem]). *)
Definition cell_bandwidth (uav_b : list (list Q)) (uav_phi : list (list Z))
    (t x y : Z) : option Q :=
  phi ← vget2 uav_phi x y;
  let tau := Z.rem (to_int (phi + t)) 10 in
  if (3 <=? tau) && (tau <=? 6) then vget2 uav_b x y
  else if (tau =? 2) || (tau =? 7) then
    b ← vget2 uav_b x y; Some (b / 2)%Q
  else Some 0%Q.

(** [vector::assign(n, ...)] with a negative [int] count does not return. *)
Definition build_bandwidth_matrix (M N T : Z)
    (uav_b : list (list Q)) (uav_phi : list (list Z))
    : option (list (list (list Q))) :=
  if bool_decide (0 ≤ M ∧ 0 ≤ N ∧ 0 ≤ T) then
    mapM (λ t, mapM (λ x, mapM (λ y, cell_bandwidth uav_b uav_phi t x y)
                                (seqZ 0 N))
                    (seqZ 0 M))
         (seqZ 0 T)
  else None.

(** ** Decay lookups *)

(** [tbl[min(i, (int)tbl.size() - 1)]], the lookup used at every read of
    the two decay tables. *)
Definition lookup_clamped {A : Type} (tbl : list A) (i : Z) : option A :=
  vget tbl (Z.min i (vsize tbl - 1)).

(** A loop whose body may fault, threading its local variables. *)
Fixpoint foldlM {A B : Type} (f : A → B → option A) (a : A) (l : list B)
    : option A :=
  match l with
  | [] => Some a
  | b :: l' => a' ← f a b; foldlM f a' l'
  end.

(** ** Candidate generator *)

Section Candidates.

(** [log] of the C library, which has no rational counterpart. *)
Variable log : Q → Q.

(** The local variables of the metrics loop of one raw candidate. *)
Record Metrics := mkMetrics {
  total_bw : Q; weighted_bw : Q; count : Z; max_bw : Q; peaks : list Z }.

(** [min(T, fl.tf + max_time_window)] and the times [fl.tf .. t_end - 1]. *)
Definition window (fl : Flow) (T W : Z) : list Z :=
  let t_end := Z.min T (fl_tf fl + W) in
  seqZ (fl_tf fl) (t_end - fl_tf fl).

Definition metrics_step (G : Globals) (fl : Flow) (cx cy dist : Z)
    (m : Metrics) (t : Z) : option Metrics :=
  bw ← pre_bw (g_pre_bw G) t cx cy;
  if Qltb eps bw then
    let dt := t - fl_tf fl in
    delay_f ← lookup_clamped (g_delay_factor G) dt;
    dist_f ← lookup_clamped (g_distance_factor G) dist;
    let total := (total_bw m + bw)%Q in
    let weighted := (weighted_bw m + bw * delay_f * dist_f)%Q in
    let cnt := count m + 1 in
    if Qltb (max_bw m) bw then
      Some (mkMetrics total weighted cnt bw [t])
    else if Qltb (Qabs (bw - max_bw m)) eps then
      Some (mkMetrics total weighted cnt (max_bw m) (peaks m ++ [t]))
    else
      Some (mkMetrics total weighted cnt (max_bw m) (peaks m))
  else Some m.

(** The body of the two enumeration loops: the candidate at cell
    [(cx, cy)] with its metrics and potential. *)
Definition make_candidate (G : Globals) (fl : Flow) (T W : Z) (cx cy : Z)
    : option CandidateInfo :=
  let dist := Z.abs (fl_x fl - cx) + Z.abs (fl_y fl - cy) in
  m ← foldlM (metrics_step G fl cx cy dist)
             (mkMetrics 0 0 0 0 []) (window fl T W);
  let total := total_bw m in
  let avg := if 0 <? count m then (total / of_int (count m))%Q else 0%Q in
  let distance_penalty := (of_int dist * 0.5)%Q in
  let capacity_score := if Qltb eps total then log (1 + total)%Q else 0%Q in
  let quality_score := weighted_bw m in
  Some (mkCand cx cy
          (quality_score * 0.6 + capacity_score * 0.3
           - distance_penalty * 0.1)%Q
          avg dist (peaks m) total).

(** Only keep candidates with reasonable capacity. *)
Definition admitted (fl : Flow) (c : CandidateInfo) : bool :=
  Qltb (fl_s fl * 0.05)%Q (total_capacity c) || (distance c <=? 2).

(** The cells of the rectangle in enumeration order. *)
Definition rectangle (fl : Flow) : list (Z * Z) :=
  cx ← seqZ (fl_m1 fl) (fl_m2 fl - fl_m1 fl + 1);
  cy ← seqZ (fl_n1 fl) (fl_n2 fl - fl_n1 fl + 1);
  [(cx, cy)].

(** Step 1: the raw candidates that pass the admission filter. *)
Definition raw_candidates (G : Globals) (fl : Flow) (T W : Z)
    : option (list CandidateInfo) :=
  all ← mapM (λ c, make_candidate G fl T W c.1 c.2) (rectangle fl);
  Some (List.filter (admitted fl) all).

Definition too_close (c : CandidateInfo) (final : list CandidateInfo)
    : bool :=
  existsb (λ fc,
             (Z.abs (ux c - ux fc) + Z.abs (uy c - uy fc) <=? 1)
             && Qltb (potential c) (potential fc * 0.8)%Q)
          final.

(** Step 3, the loop over [raw_candidates[1..]]. *)
Fixpoint diversify (top_k : Z) (rest final : list CandidateInfo)
    : list CandidateInfo :=
  match rest with
  | [] => final
  | c :: rest' =>
      if vsize final <? top_k then
        diversify top_k rest' (if too_close c final then final
                               else final ++ [c])
      else final
  end.

Definition rect_size (fl : Flow) : Z :=
  (fl_m2 fl - fl_m1 fl + 1) * (fl_n2 fl - fl_n1 fl + 1).

Definition top_k_of (fl : Flow) (raw : list CandidateInfo) : Z :=
  Z.max 2 (Z.min 8 (Z.min (rect_size fl) (vsize raw))).

(** Steps 2 and 3: sort by potential, keep the best, add up to [top_k]
    candidates that are not too close.  [raw_candidates[0]] on an empty
    vector is a fault. *)
Definition select_candidates (fl : Flow) (raw : list CandidateInfo)
    : option (list CandidateInfo) :=
  let sorted :=
    std_sort (λ a b, Qltb (potential b) (potential a)) raw in
  let top_k := top_k_of fl sorted in
  first ← sorted !! 0%nat;
  Some (diversify top_k (tail sorted) [first]).

Definition slot_step (G : Globals) (fl : Flow) (cand : CandidateInfo)
    (slots : list TimeSlotInfo) (t : Z) : option (list TimeSlotInfo) :=
  bw ← pre_bw (g_pre_bw G) t (ux cand) (uy cand);
  if Qltb eps bw then
    let dt := t - fl_tf fl in
    delay_f ← lookup_clamped (g_delay_factor G) dt;
    dist_f ← lookup_clamped (g_distance_factor G) (distance cand);
    Some (slots ++ [mkSlot t bw delay_f (delay_f * bw * dist_f)%Q])
  else Some slots.

(** Step 4: the value-sorted slots of one retained candidate. *)
Definition time_slots (G : Globals) (fl : Flow) (T W : Z)
    (cand : CandidateInfo) : option (list TimeSlotInfo) :=
  slots ← foldlM (slot_step G fl cand) [] (window fl T W);
  Some (std_sort (λ a b, Qltb (value b) (value a)) slots).

(** One iteration of the loop over the flows. *)
Definition flow_candidates (G : Globals) (T W : Z) (fl : Flow)
    : option (list CandidateInfo * list (list TimeSlotInfo)) :=
  raw ← raw_candidates G fl T W;
  final ← select_candidates fl raw;
  slots ← mapM (time_slots G fl T W) final;
  Some (final, slots).

Definition build_smart_candidates (G : Globals) (flows : list Flow)
    (T M N : Z) (max_time_window : Z) : option Globals :=
  per ← mapM (flow_candidates G T max_time_window) flows;
  Some (mkGlobals (g_pre_bw G) (g_distance_factor G) (g_delay_factor G)
                  (fst <$> per) (snd <$> per)).

End Candidates.

(** ** Fast scoring *)

(** The accumulators of the loop of [compute_flow_score_fast]. *)
Record ScoreAcc := mkScoreAcc {
  transmitted : Q; delay_sum : Q; dist_sum : Q;
  landing_uavs : gset (Z * Z) }.

Definition score_step (G : Globals) (flow : Flow) (acc : ScoreAcc)
    (item : ScheduleItem) : option ScoreAcc :=
  let delay := it_t item - fl_tf flow in
  let hops := Z.abs (fl_x flow - it_x item) + Z.abs (fl_y flow - it_y item) in
  delay_f ← lookup_clamped (g_delay_factor G) delay;
  dist_f ← lookup_clamped (g_distance_factor G) hops;
  Some (mkScoreAcc
          (transmitted acc + it_z item)%Q
          (delay_sum acc + delay_f * (it_z item / fl_s flow))%Q
          (dist_sum acc + (it_z item / fl_s flow) * dist_f)%Q
          (landing_uavs acc ∪ {[ (it_x item, it_y item) ]})).

Definition compute_flow_score_fast (G : Globals) (flow : Flow)
    (schedule : list ScheduleItem) : option Q :=
  if Qleb (fl_s flow) eps then Some 0%Q
  else
    acc ← foldlM (score_step G flow) (mkScoreAcc 0 0 0 ∅) schedule;
    let u2g := dmin (transmitted acc / fl_s flow)%Q 1%Q in
    let k := if bool_decide (landing_uavs acc = ∅) then 1
             else Z.of_nat (size (landing_uavs acc)) in
    let land := (1 / of_int k)%Q in
    Some (100 * (0.4 * u2g + 0.2 * delay_sum acc + 0.3 * dist_sum acc
                 + 0.1 * land))%Q.

(** ** Greedy decoder *)

(** The lambda [capacity_idx]; [M] and [N] are [g_pre_bw[0].size()] and
    [g_pre_bw[0][0].size()].  The arithmetic is done in [size_t]. *)
Definition capacity_idx (M N : Z) (t x y : Z) : Z :=
  to_int ((t * M * N + x * N + y) mod 2 ^ 64).

(** The three sizes read from [g_pre_bw]. *)
Definition dims (bw : list (list (list Q))) : option (Z * Z * Z) :=
  plane ← bw !! 0%nat;
  row ← plane !! 0%nat;
  Some (vsize bw, vsize plane, vsize row).

(** The cells in the order of the initialisation loops. *)
Definition cells (T M N : Z) : list (Z * Z * Z) :=
  t ← seqZ 0 T; x ← seqZ 0 M; y ← seqZ 0 N; [(t, x, y)].

(** Initialize capacities: the working table starts zeroed and every cell
    of the field is copied to its flat index. *)
Definition init_capacity (bw : list (list (list Q))) (T M N : Z)
    : option (list Q) :=
  foldlM (λ rem c,
            let '(t, x, y) := c in
            v ← pre_bw bw t x y;
            vset rem (capacity_idx M N t x y) v)
         (replicate (Z.to_nat (T * M * N)) 0%Q)
         (cells T M N).

(** The comparison that orders the flows: start time, then size. *)
Definition flow_before (flows : list Flow) (a b : nat) : bool :=
  match flows !! a, flows !! b with
  | Some fa, Some fb =>
      if negb (fl_tf fa =? fl_tf fb) then fl_tf fa <? fl_tf fb
      else Qltb (fl_s fb) (fl_s fa)
  | _, _ => false
  end.

Definition flow_order (flows : list Flow) : list nat :=
  std_sort (flow_before flows) (seq 0 (length flows)).

(** One pass over the slots of one candidate at cell [(cx, cy)]: the
    remaining table, the remaining need and the items pushed, in order. *)
Fixpoint consume (M N : Z) (cx cy : Z) (slots : list TimeSlotInfo)
    (rem : list Q) (need : Q)
    : option (list Q * Q * list ScheduleItem) :=
  match slots with
  | [] => Some (rem, need, [])
  | slot :: rest =>
      if Qleb need eps then Some (rem, need, [])
      else
        let cidx := capacity_idx M N (slot_t slot) cx cy in
        avail ← vget rem cidx;
        if Qltb eps avail then
          let use := dmin avail need in
          rem' ← vset rem cidx (avail - use)%Q;
          '(rem'', need', items) ← consume M N cx cy rest rem'
                                     (need - use)%Q;
          Some (rem'', need', mkItem (slot_t slot) cx cy use :: items)
        else consume M N cx cy rest rem need
  end.

(** The body of the loop over [order] for the flow at index [idx]: the
    table after the flow was served and the items pushed to its schedule. *)
Definition allocate_flow (G : Globals) (M N : Z) (solution : list Z)
    (idx : nat) (fl : Flow) (rem : list Q)
    : option (list Q * list ScheduleItem) :=
  sol ← solution !! idx;
  cands ← g_candidates G !! idx;
  tslots ← g_time_slots G !! idx;
  let cand_idx := if vsize cands <=? sol then 0 else sol in
  cand ← vget cands cand_idx;
  slots ← vget tslots cand_idx;
  '(rem1, need1, items1) ← consume M N (ux cand) (uy cand) slots rem
                             (fl_s fl);
  if Qltb (fl_s fl * 0.1)%Q need1 && (1 <? vsize cands) then
    let cand_idx2 := (cand_idx + 1) mod vsize cands in
    cand2 ← vget cands cand_idx2;
    slots2 ← vget tslots cand_idx2;
    '(rem2, need2, items2) ← consume M N (ux cand2) (uy cand2) slots2 rem1
                               need1;
    Some (rem2, items1 ++ items2)
  else Some (rem1, items1).

(** The loop over [order]. *)
Fixpoint allocate_all (G : Globals) (M N : Z) (flows : list Flow)
    (solution : list Z) (order : list nat)
    (rem : list Q) (schedules : list (list ScheduleItem))
    : option (list Q * list (list ScheduleItem)) :=
  match order with
  | [] => Some (rem, schedules)
  | idx :: rest =>
      fl ← flows !! idx;
      '(rem', items) ← allocate_flow G M N solution idx fl rem;
      old ← schedules !! idx;
      allocate_all G M N flows solution rest rem'
                   (<[idx := old ++ items]> schedules)
  end.

(** [weighted / (total_s + 1e-12)] *)
Definition total_score (G : Globals) (flows : list Flow)
    (schedules : list (list ScheduleItem)) : option Q :=
  let total_s := foldl (λ a fl, (a + fl_s fl)%Q) 0%Q flows in
  weighted ← foldlM (λ w i,
                       fl ← flows !! i;
                       sched ← schedules !! i;
                       sc ← compute_flow_score_fast G fl sched;
                       Some (w + sc * fl_s fl)%Q)
                    0%Q (seq 0 (length flows));
  Some (weighted / (total_s + 1e-12))%Q.

Definition greedy_allocate (G : Globals) (flows : list Flow)
    (solution : list Z) : option (list (list ScheduleItem) * Q) :=
  '(T, M, N) ← dims (g_pre_bw G);
  rem0 ← init_capacity (g_pre_bw G) T M N;
  '(_, schedules) ← allocate_all G M N flows solution (flow_order flows)
                      rem0 (replicate (length flows) []);
  score ← total_score G flows schedules;
  Some (schedules, score).

(** ** Smart initialization *)

Definition generate_smart_initial_solution (flows : list Flow) : list Z :=
  replicate (length flows) 0.

(** ** The random engine

    [std::mt19937] as the C++ standard defines it: 624 words of 32 bits,
    seeded by the linear recurrence with multiplier 1812433253, refreshed
    every 624 draws and tempered on output. *)

Record mt19937 := mkMt { mt : list N; mti : nat }.

Definition u32 (v : N) : N := N.land v 0xFFFFFFFF.

Fixpoint mt_init (n : nat) (i : N) (prev : N) : list N :=
  match n with
  | O => []
  | S n' =>
      let v := u32 (1812433253 * N.lxor prev (N.shiftr prev 30) + i) in
      v :: mt_init n' (i + 1)%N v
  end.

(** [mt19937 rng(seed)] *)
Definition mt_seed (seed : N) : mt19937 :=
  let s := u32 seed in mkMt (s :: mt_init 623 1 s) 624.

Definition mt_word (st : list N) (i : nat) : N := default 0%N (st !! i).

Definition mt_twist_at (st : list N) (i : nat) : list N :=
  let y := N.lor (N.land (mt_word st i) 0x80000000)
                 (N.land (mt_word st ((i + 1) mod 624)) 0x7FFFFFFF) in
  let mag := if N.odd y then 0x9908B0DF%N else 0%N in
  <[i := N.lxor (N.lxor (mt_word st ((i + 397) mod 624)) (N.shiftr y 1))
                mag]> st.

Definition mt_twist (st : list N) : list N :=
  foldl mt_twist_at st (seq 0 624).

Definition mt_temper (y : N) : N :=
  let y := N.lxor y (N.shiftr y 11) in
  let y := N.lxor y (N.land (N.shiftl y 7) 0x9D2C5680) in
  let y := N.lxor y (N.land (N.shiftl y 15) 0xEFC60000) in
  N.lxor y (N.shiftr y 18).

(** [rng()] *)
Definition mt_next (g : mt19937) : N * mt19937 :=
  let refresh := (624 <=? mti g)%nat in
  let st := if refresh then mt_twist (mt g) else mt g in
  let i := if refresh then 0%nat else mti g in
  (mt_temper (mt_word st i), mkMt st (S i)).

(** [rng.discard(z)] *)
Definition mt_discard (z : N) (g : mt19937) : mt19937 :=
  N.iter z (λ g, (mt_next g).2) g.

(** ** Local search *)

(** The sum of the delivered amounts of one schedule. *)
Definition delivered (sched : list ScheduleItem) : Q :=
  foldl (λ a item, (a + it_z item)%Q) 0%Q sched.

(** Flows with poor allocation (transmitted < 80% of required). *)
Definition find_problematic (flows : list Flow)
    (schedules : list (list ScheduleItem)) : option (list nat) :=
  foldlM (λ acc i,
            fl ← flows !! i;
            sched ← schedules !! i;
            if Qltb (delivered sched) (fl_s fl * 0.8)%Q
            then Some (acc ++ [i]) else Some acc)
         [] (seq 0 (length flows)).

(** [if (num_cands > 1) new_solution[idx] = rng() % num_cands;] *)
Definition reassign (G : Globals) (idx : nat) (new_solution : list Z)
    (rng : mt19937) : option (list Z * mt19937) :=
  cands ← g_candidates G !! idx;
  let num_cands := vsize cands in
  if 1 <? num_cands then
    let '(r, rng') := mt_next rng in
    sol' ← vset new_solution (Z.of_nat idx) (Z.of_N r mod num_cands);
    Some (sol', rng')
  else Some (new_solution, rng).

(** The branch that focuses on a problematic flow: the flow picked and the
    mutated solution. *)
Definition mutate_problematic (G : Globals) (problematic_flows : list nat)
    (solution : list Z) (rng : mt19937) : option (nat * list Z * mt19937) :=
  let '(r, rng1) := mt_next rng in
  idx ← problematic_flows
        !! N.to_nat (r mod N.of_nat (length problematic_flows));
  '(sol', rng2) ← reassign G idx solution rng1;
  Some (idx, sol', rng2).

(** Random exploration: [num_changes] reassignments of random flows;
    [rng() % FN] with no flow is a division by zero. *)
Fixpoint mutate_random (G : Globals) (FN : Z) (num_changes : nat)
    (new_solution : list Z) (rng : mt19937) : option (list Z * mt19937) :=
  match num_changes with
  | O => Some (new_solution, rng)
  | S c =>
      let '(r, rng1) := mt_next rng in
      if FN =? 0 then None
      else
        let flow_idx := Z.to_nat (Z.of_N r mod FN) in
        '(sol', rng2) ← reassign G flow_idx new_solution rng1;
        mutate_random G FN c sol' rng2
  end.

(** The mutation of one iteration.  The engine is not called for the
    branch test when there is no problematic flow. *)
Definition mutate (G : Globals) (FN : Z) (problematic_flows : list nat)
    (solution : list Z) (rng : mt19937) : option (list Z * mt19937) :=
  let '(focus, rng1) :=
    match problematic_flows with
    | [] => (false, rng)
    | _ => let '(r, rng') := mt_next rng in ((r mod 10 <? 7)%N, rng')
    end in
  if focus then
    '(_, sol', rng2) ← mutate_problematic G problematic_flows solution rng1;
    Some (sol', rng2)
  else
    let '(r, rng2) := mt_next rng1 in
    mutate_random G FN (N.to_nat (r mod 2 + 1)) solution rng2.

(** The variables of [local_search] that live across iterations. *)
Record LSState := mkLS {
  ls_solution : list Z;
  ls_best_solution : list Z;
  ls_best_score : Q;
  ls_no_improve : Z;
  ls_problematic : list nat;
  ls_rng : mt19937 }.

(** The body of the loop, up to the test for the early exit. *)
Definition ls_iteration (G : Globals) (flows : list Flow) (st : LSState)
    : option LSState :=
  '(new_solution, rng') ← mutate G (vsize flows) (ls_problematic st)
                            (ls_solution st) (ls_rng st);
  '(schedules, score) ← greedy_allocate G flows new_solution;
  if Qltb (ls_best_score st + eps)%Q score then
    problematic_flows ← find_problematic flows schedules;
    Some (mkLS new_solution new_solution score 0 problematic_flows rng')
  else
    Some (mkLS (ls_solution st) (ls_best_solution st) (ls_best_score st)
               (ls_no_improve st + 1) (ls_problematic st) rng').

(** The loop; the result lists the state at the end of every iteration
    that was run, in order. *)
Fixpoint ls_loop (G : Globals) (flows : list Flow) (iterations : nat)
    (st : LSState) : option (list LSState) :=
  match iterations with
  | O => Some []
  | S n =>
      st' ← ls_iteration G flows st;
      if 20 <? ls_no_improve st' then Some [st']
      else rest ← ls_loop G flows n st'; Some (st' :: rest)
  end.

Definition ls_init (solution : list Z) (current_score : Q)
    (problematic_flows : list nat) : LSState :=
  mkLS solution solution current_score 0 problematic_flows (mt_seed 42).

Definition local_search (G : Globals) (flows : list Flow)
    (solution : list Z) (current_score : Q) (max_iterations : Z)
    : option (list Z * Q) :=
  '(schedules_cur, _) ← greedy_allocate G flows solution;
  problematic_flows ← find_problematic flows schedules_cur;
  let st0 := ls_init solution current_score problematic_flows in
  trace ← ls_loop G flows (Z.to_nat max_iterations) st0;
  let st := List.last trace st0 in
  Some (ls_best_solution st, ls_best_score st).

(** ** Main solver

    The three phases of [solve], up to the output.  The decay tables that
    [build_lookup_tables(M + N, T)] leaves in the globals are passed in
    (their rational values are roundings of the built ones). *)
Definition solve (log : Q → Q) (dist delay : list Q) (M N FN T : Z)
    (uav_b : list (list Q)) (uav_phi : list (list Z)) (flows : list Flow)
    : option (list (list ScheduleItem) * Q) :=
  bw ← build_bandwidth_matrix M N T uav_b uav_phi;
  G ← build_smart_candidates log (mkGlobals bw dist delay [] []) flows
                             T M N 60;
  let solution := generate_smart_initial_solution flows in
  '(schedules_init, score_init) ← greedy_allocate G flows solution;
  '(best_solution, best_score) ← local_search G flows solution score_init
                                   150;
  '(best_schedules, final_score) ← greedy_allocate G flows best_solution;
  Some (best_schedules, final_score).

(** ** Output

    What [solve] prints after the search, as the list of its records: for
    every flow, in ascending id, the id, the number of merged items and
    the merged items of the schedule that is looked up for it. *)

(** The key under which the output merges the items of a schedule. *)
Definition item_key (item : ScheduleItem) : Z * Z * Z :=
  (it_t item, it_x item, it_y item).

(** [operator<] of [tuple<int,int,int>], the order of the keys of
    [combined]. *)
Definition key_lt (a b : Z * Z * Z) : bool :=
  (a.1.1 <? b.1.1)
  || ((a.1.1 =? b.1.1)
      && ((a.1.2 <? b.1.2) || ((a.1.2 =? b.1.2) && (a.2 <? b.2)))).

(** [combined[key] += z] on the [std::map], which is kept as the list of
    its entries in key order; [operator[]] starts a new entry at [0.0]. *)
Fixpoint combine_add (key : Z * Z * Z) (z : Q) (m : list (Z * Z * Z * Q))
    : list (Z * Z * Z * Q) :=
  match m with
  | [] => [(key, (0 + z)%Q)]
  | (k, v) :: rest =>
      if key_lt key k then (key, (0 + z)%Q) :: m
      else if key_lt k key then (k, v) :: combine_add key z rest
      else (k, (v + z)%Q) :: rest
  end.

(** Combine items with same (t, x, y): the entries of the map after the
    loop over the schedule, in iteration order. *)
Definition combined (sched : list ScheduleItem) : list (Z * Z * Z * Q) :=
  foldl (λ m item, combine_add (item_key item) (it_z item) m) [] sched.

(** [operator<] of [tuple<int,int,int,double>]. *)
Definition tuple_lt (a b : Z * Z * Z * Q) : bool :=
  key_lt a.1 b.1 || (negb (key_lt b.1 a.1) && Qltb a.2 b.2).

(** [round]: to the nearest integer, halfway cases away from zero. *)
Definition round (z : Q) : Z :=
  if Qltb z 0 then - Qfloor (- z + 0.5) else Qfloor (z + 0.5).

(** [(int)v] for a [double] with the integer value [n]: [n] when it fits
    an [int]; out of the range the conversion is undefined behaviour in
    C++, and the compiled program gives [INT_MIN]. *)
Definition cast_int (n : Z) : Z :=
  if (- 2 ^ 31 <=? n) && (n <? 2 ^ 31) then n else - 2 ^ 31.

(** An amount is printed as [(int)round(z)] or with six decimals. *)
Inductive Printed :=
  | PrintInt (n : Z)
  | PrintFixed (z : Q).

Definition print_amount (z : Q) : Printed :=
  if Qltb (Qabs (z - of_int (round z))) eps
  then PrintInt (cast_int (round z))
  else PrintFixed z.

(** Find original index: the loop over [0 .. FN - 1] from index [i], with
    [flow_idx] as it was set before the loop. *)
Fixpoint original_index (flows : list Flow) (f : Z) (iterations : nat)
    (i : nat) (flow_idx : nat) : option nat :=
  match iterations with
  | O => Some flow_idx
  | S n =>
      fl ← flows !! i;
      if fl_f fl =? f then Some i
      else original_index flows f n (S i) flow_idx
  end.

(** One record of the output. *)
Record OutFlow := mkOut {
  out_f : Z; out_count : Z; out_items : list (Z * Z * Z * Printed) }.

(** The body of the loop over [flows_sorted] for the flow at position
    [pos]. *)
Definition output_flow (flows : list Flow) (FN : Z)
    (best_schedules : list (list ScheduleItem)) (pos : nat) (fl : Flow)
    : option OutFlow :=
  flow_idx ← original_index flows (fl_f fl) (Z.to_nat FN) 0 pos;
  sched ← best_schedules !! flow_idx;
  let items := std_sort tuple_lt (combined sched) in
  Some (mkOut (fl_f fl) (vsize items)
              ((λ e, (e.1, print_amount e.2)) <$> items)).

Definition output (flows : list Flow) (FN : Z)
    (best_schedules : list (list ScheduleItem)) : option (list OutFlow) :=
  let flows_sorted := std_sort (λ a b, fl_f a <? fl_f b) flows in
  mapM (λ p, output_flow flows FN best_schedules p.1 p.2)
       (imap pair flows_sorted).

(** [solve] with its output. *)
Definition solve_output (log : Q → Q) (dist delay : list Q) (M N FN T : Z)
    (uav_b : list (list Q)) (uav_phi : list (list Z)) (flows : list Flow)
    : option (list OutFlow) :=
  '(best_schedules, _) ← solve log dist delay M N FN T uav_b uav_phi flows;
  output flows FN best_schedules.

(** ** The binary64 reading

    The amounts and the scores of the program are [double] values.  The
    decoder and the score are embedded a second time over IEEE 754
    binary64, with the operations of [SpecFloat] at precision 53 and
    maximal exponent 1024: every sum, difference, product and quotient is
    rounded to nearest, ties to even, as the compiled program rounds it.
    The shapes of the definitions are those of the exact reading above;
    only the arithmetic differs. *)

Module B64.

Definition double : Type := spec_float.
Definition prec : Z := 53.
Definition emax : Z := 1024.

Definition add (a b : double) : double := SFadd prec emax a b.
Definition sub (a b : double) : double := SFsub prec emax a b.
Definition mul (a b : double) : double := SFmul prec emax a b.
Definition div (a b : double) : double := SFdiv prec emax a b.
Definition opp (a : double) : double := SFopp a.

(** [a < b] and [a <= b]; both are false when an operand is a NaN. *)
Definition ltb (a b : double) : bool := SFltb a b.
Definition leb (a b : double) : bool := SFleb a b.

(** [0.0] *)
Definition zero : double := S754_zero false.

(** [(double)n], exact for [|n| <= 2^53]. *)
Definition of_int (n : Z) : double := binary_normalize prec emax n 0 false.

(** The decimal literal with the value [n / d]: the double nearest to
    it, which is what the division of the two integers returns when both
    are below [2^53]. *)
Definition decimal (n d : Z) : double := div (of_int n) (of_int d).

(** [1e-9] *)
Definition eps : double := decimal 1 (10 ^ 9).

(** [std::min(a, b)]: [b] when [b < a], else [a]. *)
Definition dmin (a b : double) : double := if ltb b a then b else a.


(** The double with the value [n / 2^k], and the doubles that are
    multiples [n / 2^k] of [2^-k] with [0 <= n < 2^53].  Differences of
    such doubles are computed without rounding. *)
Definition of_grid (k n : Z) : double :=
  binary_normalize prec emax n (- k) false.



(** [x < 0] is false: [x] is a zero, a NaN, or has a clear sign bit. *)
Definition not_negative (x : double) : Prop := ltb x zero = false.

(** [x] is a NaN or has a clear sign bit: [x] is not negative and is not
    the negative zero. *)
Definition sign_clear (x : double) : Prop :=
  match x with
  | S754_nan => True
  | S754_zero s | S754_infinity s | S754_finite s _ _ => s = false
  end.

(** *** Structures *)

Record Flow := mkFlow {
  fl_f : Z; fl_x : Z; fl_y : Z; fl_tf : Z;
  fl_s : double;
  fl_m1 : Z; fl_n1 : Z; fl_m2 : Z; fl_n2 : Z }.

Record ScheduleItem := mkItem {
  it_t : Z; it_x : Z; it_y : Z;
  it_z : double }.

Record CandidateInfo := mkCand {
  ux : Z; uy : Z;
  potential : double;
  avg_bandwidth : double;
  distance : Z;
  peak_times : list Z;
  total_capacity : double }.

Record TimeSlotInfo := mkSlot {
  slot_t : Z;
  bandwidth : double;
  delay_factor : double;
  value : double }.

Record Globals := mkGlobals {
  g_pre_bw : list (list (list double));
  g_distance_factor : list double;
  g_delay_factor : list double;
  g_candidates : list (list CandidateInfo);
  g_time_slots : list (list (list TimeSlotInfo)) }.

(** [g_pre_bw[t][x][y]] *)
Definition pre_bw (bw : list (list (list double))) (t x y : Z)
    : option double :=
  plane ← vget bw t; row ← vget plane x; vget row y.

(** *** Decay tables

    [pow] is the function of the C library; it is a parameter of the
    builder. *)
Definition distance_decay (pow : double → double → double) (d : Z)
    : double :=
  pow (of_int 2) (mul (opp (decimal 1 10)) (of_int d)).

Definition delay_decay (dt : Z) : double :=
  div (of_int 10) (add (of_int dt) (of_int 10)).


(** *** Fast scoring *)

Record ScoreAcc := mkScoreAcc {
  transmitted : double; delay_sum : double; dist_sum : double;
  landing_uavs : gset (Z * Z) }.

Definition score_step (G : Globals) (flow : Flow) (acc : ScoreAcc)
    (item : ScheduleItem) : option ScoreAcc :=
  let delay := it_t item - fl_tf flow in
  let hops := Z.abs (fl_x flow - it_x item) + Z.abs (fl_y flow - it_y item) in
  delay_f ← lookup_clamped (g_delay_factor G) delay;
  dist_f ← lookup_clamped (g_distance_factor G) hops;
  Some (mkScoreAcc
          (add (transmitted acc) (it_z item))
          (add (delay_sum acc) (mul delay_f (div (it_z item) (fl_s flow))))
          (add (dist_sum acc) (mul (div (it_z item) (fl_s flow)) dist_f))
          (landing_uavs acc ∪ {[ (it_x item, it_y item) ]})).

Definition compute_flow_score_fast (G : Globals) (flow : Flow)
    (schedule : list ScheduleItem) : option double :=
  if leb (fl_s flow) eps then Some zero
  else
    acc ← foldlM (score_step G flow) (mkScoreAcc zero zero zero ∅) schedule;
    let u2g := dmin (div (transmitted acc) (fl_s flow)) (of_int 1) in
    let k := if bool_decide (landing_uavs acc = ∅) then 1
             else Z.of_nat (size (landing_uavs acc)) in
    let land := div (of_int 1) (of_int k) in
    Some (mul (of_int 100)
              (add (add (add (mul (decimal 4 10) u2g)
                             (mul (decimal 2 10) (delay_sum acc)))
                        (mul (decimal 3 10) (dist_sum acc)))
                   (mul (decimal 1 10) land))).

(** *** Greedy decoder *)

Definition dims (bw : list (list (list double))) : option (Z * Z * Z) :=
  plane ← bw !! 0%nat;
  row ← plane !! 0%nat;
  Some (vsize bw, vsize plane, vsize row).

Definition init_capacity (bw : list (list (list double))) (T M N : Z)
    : option (list double) :=
  foldlM (λ rem c,
            let '(t, x, y) := c in
            v ← pre_bw bw t x y;
            vset rem (capacity_idx M N t x y) v)
         (replicate (Z.to_nat (T * M * N)) zero)
         (cells T M N).

Definition flow_before (flows : list Flow) (a b : nat) : bool :=
  match flows !! a, flows !! b with
  | Some fa, Some fb =>
      if negb (fl_tf fa =? fl_tf fb) then fl_tf fa <? fl_tf fb
      else ltb (fl_s fb) (fl_s fa)
  | _, _ => false
  end.

Definition flow_order (flows : list Flow) : list nat :=
  std_sort (flow_before flows) (seq 0 (length flows)).

Fixpoint consume (M N : Z) (cx cy : Z) (slots : list TimeSlotInfo)
    (rem : list double) (need : double)
    : option (list double * double * list ScheduleItem) :=
  match slots with
  | [] => Some (rem, need, [])
  | slot :: rest =>
      if leb need eps then Some (rem, need, [])
      else
        let cidx := capacity_idx M N (slot_t slot) cx cy in
        avail ← vget rem cidx;
        if ltb eps avail then
          let use := dmin avail need in
          rem' ← vset rem cidx (sub avail use);
          '(rem'', need', items) ← consume M N cx cy rest rem'
                                     (sub need use);
          Some (rem'', need', mkItem (slot_t slot) cx cy use :: items)
        else consume M N cx cy rest rem need
  end.

Definition allocate_flow (G : Globals) (M N : Z) (solution : list Z)
    (idx : nat) (fl : Flow) (rem : list double)
    : option (list double * list ScheduleItem) :=
  sol ← solution !! idx;
  cands ← g_candidates G !! idx;
  tslots ← g_time_slots G !! idx;
  let cand_idx := if vsize cands <=? sol then 0 else sol in
  cand ← vget cands cand_idx;
  slots ← vget tslots cand_idx;
  '(rem1, need1, items1) ← consume M N (ux cand) (uy cand) slots rem
                             (fl_s fl);
  if ltb (mul (fl_s fl) (decimal 1 10)) need1 && (1 <? vsize cands) then
    let cand_idx2 := (cand_idx + 1) mod vsize cands in
    cand2 ← vget cands cand_idx2;
    slots2 ← vget tslots cand_idx2;
    '(rem2, need2, items2) ← consume M N (ux cand2) (uy cand2) slots2 rem1
                               need1;
    Some (rem2, items1 ++ items2)
  else Some (rem1, items1).

Fixpoint allocate_all (G : Globals) (M N : Z) (flows : list Flow)
    (solution : list Z) (order : list nat)
    (rem : list double) (schedules : list (list ScheduleItem))
    : option (list double * list (list ScheduleItem)) :=
  match order with
  | [] => Some (rem, schedules)
  | idx :: rest =>
      fl ← flows !! idx;
      '(rem', items) ← allocate_flow G M N solution idx fl rem;
      old ← schedules !! idx;
      allocate_all G M N flows solution rest rem'
                   (<[idx := old ++ items]> schedules)
  end.

(** [weighted / (total_s + 1e-12)] *)
Definition total_score (G : Globals) (flows : list Flow)
    (schedules : list (list ScheduleItem)) : option double :=
  let total_s := foldl (λ a fl, add a (fl_s fl)) zero flows in
  weighted ← foldlM (λ w i,
                       fl ← flows !! i;
                       sched ← schedules !! i;
                       sc ← compute_flow_score_fast G fl sched;
                       Some (add w (mul sc (fl_s fl))))
                    zero (seq 0 (length flows));
  Some (div weighted (add total_s (decimal 1 (10 ^ 12)))).

Definition greedy_allocate (G : Globals) (flows : list Flow)
    (solution : list Z) : option (list (list ScheduleItem) * double) :=
  '(T, M, N) ← dims (g_pre_bw G);
  rem0 ← init_capacity (g_pre_bw G) T M N;
  '(_, schedules) ← allocate_all G M N flows solution (flow_order flows)
                      rem0 (replicate (length flows) []);
  score ← total_score G flows schedules;
  Some (schedules, score).

End B64.



(** *** Instances of the binary64 decoder

    A field of one cell at one time step, and one candidate per flow at
    that cell with its one slot. *)
Definition one_cell_candidate : B64.CandidateInfo :=
  B64.mkCand 0 0 B64.zero B64.zero 0 [] B64.zero.

Definition slot_at (t : Z) : B64.TimeSlotInfo :=
  B64.mkSlot t B64.zero B64.zero B64.zero.

Definition flow_of (f : Z) (s : B64.double) : B64.Flow :=
  B64.mkFlow f 0 0 0 s 0 0 0 0.

Definition one_cell_G (cap : B64.double) (flows : nat) : B64.Globals :=
  B64.mkGlobals [[[cap]]] [B64.of_int 1] [B64.of_int 1]
                (replicate flows [one_cell_candidate])
                (replicate flows [[slot_at 0]]).

(** Capacity 2.5 and two flows of demand 1.5: multiples of 1/2. *)
Definition halves_G : B64.Globals := one_cell_G (B64.of_grid 1 5) 2.
Definition halves_flows : list B64.Flow :=
  [flow_of 1 (B64.of_grid 1 3); flow_of 2 (B64.of_grid 1 3)].



(** ** The exact values of the decay tables

    The numbers [2^(-0.1*d)] and [10/(dt+10)], of which the entries of the
    two tables are the roundings; the first is irrational for most [d]. *)

Definition distance_decay (d : Z) : R := Rpower 2 (-0.1 * IZR d).
Definition delay_decay (dt : Z) : R := (10 / (IZR dt + 10))%R.

(** ** Observations on schedules

    The quantities that the properties below speak about. *)


(** The item was delivered at time [t] by the cell [(x, y)]. *)
Definition at_cell (t x y : Z) (item : ScheduleItem) : bool :=
  (it_t item =? t) && (it_x item =? x) && (it_y item =? y).




(** ** The instance of the specification's example

    A grid of [2 x 2] cells over a horizon of 10 steps; the cell at the
    origin has base bandwidth 10 and phase 3, the others have none.  One
    flow of demand 15 starts at time 0 at the origin and may use the whole
    grid.  The distance table holds [2^(-0.1*d)] rounded to three
    decimals; [log] is replaced by the rational function
    [2(q-1)/(q+1)]. *)

Definition demo_uav_b : list (list Q) := [[10; 0]; [0; 0]]%Q.
Definition demo_uav_phi : list (list Z) := [[3; 0]; [0; 0]].

Definition demo_field : list (list (list Q)) :=
  default [] (build_bandwidth_matrix 2 2 10 demo_uav_b demo_uav_phi).

Definition demo_distance : list Q := [1; 0.933; 0.871; 0.812; 0.758]%Q.
Definition demo_delay : list Q :=
  (λ dt, 10 / (of_int dt + 10))%Q <$> seqZ 0 11.

Definition demo_log (q : Q) : Q := (2 * (q - 1) / (q + 1))%Q.

Definition demo_tables : Globals :=
  mkGlobals demo_field demo_distance demo_delay [] [].

Definition demo_flow : Flow := mkFlow 1 0 0 0 15 0 0 1 1.

Definition demo_G : Globals :=
  default demo_tables
    (build_smart_candidates demo_log demo_tables [demo_flow] 10 2 2 60).

(** A second flow at the origin whose rectangle is the column of the two
    cells [(1,0)] and [(1,1)], which never have bandwidth. *)
Definition demo_flow_column : Flow := mkFlow 2 0 0 0 15 1 0 1 1.

(** The same flow with a demand of 100, which the field cannot serve. *)
Definition demo_flow_big : Flow := mkFlow 1 0 0 0 100 0 0 1 1.

Definition demo_G_big : Globals :=
  default demo_tables
    (build_smart_candidates demo_log demo_tables [demo_flow_big] 10 2 2 60).



(** ** Well-formed inputs of the decoder *)

(** The field has [T] planes of [M] rows of [N] entries. *)
Definition field_shape (bw : list (list (list Q))) (T M N : Z) : Prop :=
  vsize bw = T ∧
  Forall (λ plane, vsize plane = M ∧ Forall (λ row, vsize row = N) plane) bw.

(** The cell [(t, x, y)] lies in the grid. *)
Definition in_grid (T M N : Z) (t x y : Z) : Prop :=
  0 ≤ t < T ∧ 0 ≤ x < M ∧ 0 ≤ y < N.

(** The slots of the candidate are at cells of the grid, not before the
    start of the flow. *)
Definition slots_ok (T M N : Z) (fl : Flow) (cand : CandidateInfo)
    (slots : list TimeSlotInfo) : Prop :=
  Forall (λ slot, in_grid T M N (slot_t slot) (ux cand) (uy cand)
                  ∧ fl_tf fl ≤ slot_t slot) slots.

(** What the decoder relies on: a field of at least one cell whose flat
    index fits an [int], decay tables that are not empty, and for every
    flow an index that is not negative, a candidate list that is not empty
    and one slot list per candidate. *)
Record decoder_ready (G : Globals) (flows : list Flow) (sol : list Z)
    (T M N : Z) : Prop := mkReady {
  ready_shape : field_shape (g_pre_bw G) T M N;
  ready_cells : 0 < T ∧ 0 < M;
  ready_fit : T * M * N < 2 ^ 31;
  ready_delay : g_delay_factor G ≠ [];
  ready_distance : g_distance_factor G ≠ [];
  ready_flows : ∀ idx fl, flows !! idx = Some fl →
    ∃ c cands tslots,
      sol !! idx = Some c ∧ 0 ≤ c ∧
      g_candidates G !! idx = Some cands ∧ cands ≠ [] ∧
      g_time_slots G !! idx = Some tslots ∧
      Forall2 (slots_ok T M N fl) cands tslots }.

(** Every schedule holds items that are not before the start of its
    flow. *)
Definition schedules_timely (flows : list Flow)
    (schedules : list (list ScheduleItem)) : Prop :=
  length schedules = length flows ∧
  ∀ idx fl sched, flows !! idx = Some fl → schedules !! idx = Some sched →
                  Forall (λ item, fl_tf fl ≤ it_t item) sched.

(** ** Observations on the local search *)

(** The iteration from [st] to [st'] accepted the mutation [new_solution]
    of decoded score [score]. *)
Definition ls_accepted (st st' : LSState) (new_solution : list Z)
    (score : Q) : Prop :=
  (ls_best_score st + eps < score)%Q ∧
  ls_solution st' = new_solution ∧ ls_best_solution st' = new_solution ∧
  ls_best_score st' = score ∧ ls_no_improve st' = 0.

(** The iteration from [st] to [st'] rejected a mutation of decoded score
    [score]. *)
Definition ls_rejected (st st' : LSState) (score : Q) : Prop :=
  (score <= ls_best_score st + eps)%Q ∧
  ls_solution st' = ls_solution st ∧
  ls_best_solution st' = ls_best_solution st ∧
  ls_best_score st' = ls_best_score st ∧
  ls_no_improve st' = ls_no_improve st + 1.

(** The best score of the state is the decoded score of its best
    solution. *)
Definition ls_decoded (G : Globals) (flows : list Flow) (st : LSState)
    : Prop :=
  ∃ schedules,
    greedy_allocate G flows (ls_best_solution st)
    = Some (schedules, ls_best_score st).

(** ** Observations on the decoder *)

(** The candidate index that the decoder uses for the solution entry
    [sol], and the index of the next candidate in rank order. *)
Definition resolved_index (cands : list CandidateInfo) (sol : Z) : Z :=
  if vsize cands <=? sol then 0 else sol.

Definition fallback_index (cands : list CandidateInfo) (k : Z) : Z :=
  (k + 1) mod vsize cands.

(** The items are amounts of more than [1e-9] and at most [bound], drawn
    at the cell of the candidate, at times of its slots, in slot order. *)
Definition drawn_from (cand : CandidateInfo) (slots : list TimeSlotInfo)
    (bound : Q) (items : list ScheduleItem) : Prop :=
  Forall (λ item, it_x item = ux cand ∧ it_y item = uy cand
                  ∧ (eps < it_z item <= bound)%Q) items
  ∧ (it_t <$> items) `sublist_of` (slot_t <$> slots).


(** The flow [fa] is not served after [fb]: it starts earlier, or at the
    same time with a demand that is not smaller. *)
Definition serves_before (fa fb : Flow) : Prop :=
  fl_tf fa < fl_tf fb ∨ (fl_tf fa = fl_tf fb ∧ (fl_s fb <= fl_s fa)%Q).

(** ** Observations on the candidates *)

(** The cell of a candidate, and the candidate lies in the rectangle of
    the flow. *)
Definition cell_of (c : CandidateInfo) : Z * Z := (ux c, uy c).

Definition in_rectangle (fl : Flow) (c : CandidateInfo) : Prop :=
  fl_m1 fl ≤ ux c ≤ fl_m2 fl ∧ fl_n1 fl ≤ uy c ≤ fl_n2 fl.

(** What the generator stores in a slot of the candidate [cand] of the
    flow [fl]: a time of the look-ahead window at which the field is above
    [1e-9] at the candidate's cell, with that bandwidth, the clamped delay
    decay and the value that orders the slots. *)
Definition slot_ok (G : Globals) (fl : Flow) (T W : Z)
    (cand : CandidateInfo) (slot : TimeSlotInfo) : Prop :=
  fl_tf fl ≤ slot_t slot < Z.min T (fl_tf fl + W) ∧
  pre_bw (g_pre_bw G) (slot_t slot) (ux cand) (uy cand)
  = Some (bandwidth slot) ∧
  (eps < bandwidth slot)%Q ∧
  lookup_clamped (g_delay_factor G) (slot_t slot - fl_tf fl)
  = Some (delay_factor slot) ∧
  ∃ dist_f,
    lookup_clamped (g_distance_factor G) (distance cand) = Some dist_f ∧
    value slot = (delay_factor slot * bandwidth slot * dist_f)%Q.

(** A solution as the search handles it: one index per flow, none
    negative. *)
Definition solution_ok (flows : list Flow) (sol : list Z) : Prop :=
  length sol = length flows ∧ Forall (λ c, 0 ≤ c) sol.

(** The tables serve the decoder for every such solution. *)
Definition tables_ready (G : Globals) (flows : list Flow) (T M N : Z)
    : Prop :=
  ∀ sol, solution_ok flows sol → decoder_ready G flows sol T M N.

(** What the search keeps true of its state from one iteration to the
    next. *)
Definition ls_state_ok (flows : list Flow) (st : LSState) : Prop :=
  solution_ok flows (ls_solution st) ∧
  solution_ok flows (ls_best_solution st) ∧
  Forall (λ i, (i < length flows)%nat) (ls_problematic st).

(** ** Observations on the mutation and on the output *)

(** The solution [sol'] differs from [sol] at indices of [idxs] only, and
    holds there an index into the candidate list of that flow, a list of
    more than one candidate. *)
Definition mutated_at (G : Globals) (idxs : list nat) (sol sol' : list Z)
    : Prop :=
  length sol' = length sol ∧
  ∀ k, sol' !! k = sol !! k ∨
       (k ∈ idxs ∧
        ∃ cands v, g_candidates G !! k = Some cands ∧ 1 < vsize cands ∧
                   sol' !! k = Some v ∧ 0 ≤ v < vsize cands).

(** The sum that the output prints for the key [k] of a schedule. *)
Definition merged_amount (sched : list ScheduleItem) (k : Z * Z * Z) : Q :=
  delivered (List.filter (at_cell k.1.1 k.1.2 k.2) sched).

(** The entry of a map for a key. *)
Fixpoint entry (m : list (Z * Z * Z * Q)) (k : Z * Z * Z) : option Q :=
  match m with
  | [] => None
  | (k', v) :: rest => if bool_decide (k' = k) then Some v else entry rest k
  end.

(** * Properties *)

(** ** Vectors and loops *)

Lemma vget_Some {A : Type} (v : list A) (i : Z) (a : A) :
  vget v i = Some a ↔ 0 ≤ i ∧ v !! Z.to_nat i = Some a.
Proof.
  unfold vget. case_bool_decide; split.
  - by intros ->.
  - by intros [_ ?].
  - done.
  - intros [? _]. lia.
Qed.

Lemma vget_lt {A : Type} (v : list A) (i : Z) (a : A) :
  vget v i = Some a → 0 ≤ i < vsize v.
Proof.
  rewrite vget_Some. intros [Hi Hl]. apply lookup_lt_Some in Hl.
  unfold vsize. lia.
Qed.

Lemma vget_is_Some {A : Type} (v : list A) (i : Z) :
  0 ≤ i < vsize v → is_Some (vget v i).
Proof.
  unfold vget, vsize. intros Hi. rewrite bool_decide_true by lia.
  apply lookup_lt_is_Some. lia.
Qed.

Lemma vset_Some {A : Type} (v v' : list A) (i : Z) (a : A) :
  vset v i a = Some v' →
  0 ≤ i < vsize v ∧ v' = <[Z.to_nat i := a]> v.
Proof.
  unfold vset, vsize. case_bool_decide; [|done].
  intros [= <-]. done.
Qed.

(** Inversion of a successful sequence of steps that may fault. *)
Ltac bind_inv H :=
  match type of H with
  | mbind _ ?o = Some _ =>
      let E := fresh "E" in
      destruct o as [?|] eqn:E; [|discriminate H];
      cbn [mbind option_bind] in H;
      repeat match type of H with
             | (let '(_, _) := ?p in _) = _ => destruct p
             end
  end.

Lemma mapM_seqZ_lookup {B : Type} (f : Z → option B) (n : Z) (l : list B)
    (i : Z) :
  mapM f (seqZ 0 n) = Some l → 0 ≤ i < n →
  ∃ b, vget l i = Some b ∧ f i = Some b.
Proof.
  intros Hm Hi. apply mapM_Some_1 in Hm.
  assert (Hs : seqZ 0 n !! Z.to_nat i = Some i).
  { rewrite lookup_seqZ. lia. }
  destruct (Forall2_lookup_l _ _ _ _ _ Hm Hs) as (b & Hb & Hf).
  exists b. split; [|done]. apply vget_Some. split; [lia|done].
Qed.


(** ** Capacity field builder *)


Lemma build_bandwidth_matrix_lookup M N T uav_b uav_phi g t x y :
  build_bandwidth_matrix M N T uav_b uav_phi = Some g →
  0 ≤ t < T → 0 ≤ x < M → 0 ≤ y < N →
  pre_bw g t x y = cell_bandwidth uav_b uav_phi t x y
  ∧ is_Some (pre_bw g t x y).
Proof.
  unfold build_bandwidth_matrix. case_bool_decide; [|done].
  intros Hg Ht Hx Hy.
  destruct (mapM_seqZ_lookup _ _ _ t Hg Ht) as (plane & Hp & Hplane).
  destruct (mapM_seqZ_lookup _ _ _ x Hplane Hx) as (row & Hr & Hrow).
  destruct (mapM_seqZ_lookup _ _ _ y Hrow Hy) as (v & Hv & Hcell).
  unfold pre_bw. rewrite Hp. simpl. rewrite Hr. simpl.
  rewrite Hv, Hcell. eauto.
Qed.


Lemma to_int_small (v : Z) : - 2 ^ 31 ≤ v < 2 ^ 31 → to_int v = v.
Proof. intros Hv. unfold to_int. rewrite Z.mod_small; lia. Qed.

Lemma rem_10_nonpos (v : Z) : v < 0 → Z.rem v 10 ≤ 0.
Proof. intros Hv. apply Z.rem_nonpos; lia. Qed.




(** ** Decay lookup tables *)

Section Decay.

Context {A : Type} (f : Z → A).




End Decay.





(** ** Candidate generator *)

Lemma std_sort_length {A : Type} (comp : A → A → bool) (l : list A) :
  length (std_sort comp l) = length l.
Proof.
  unfold std_sort. apply Permutation_length, merge_sort_Permutation.
Qed.

Lemma std_sort_Permutation {A : Type} (comp : A → A → bool) (l : list A) :
  std_sort comp l ≡ₚ l.
Proof. unfold std_sort. apply merge_sort_Permutation. Qed.

Section CandidateBounds.

Variable log : Q → Q.

Lemma diversify_length (top_k : Z) (rest final : list CandidateInfo) :
  vsize final ≤ vsize (diversify top_k rest final)
  ∧ vsize (diversify top_k rest final) ≤ Z.max (vsize final) top_k
  ∧ vsize (diversify top_k rest final) ≤ vsize final + vsize rest.
Proof.
  revert final. induction rest as [|c rest IH]; intros final; simpl.
  - unfold vsize. simpl. lia.
  - destruct (vsize final <? top_k) eqn:Hk.
    + apply Z.ltb_lt in Hk.
      destruct (too_close c final).
      * specialize (IH final). unfold vsize in *. simpl. lia.
      * specialize (IH (final ++ [c])). unfold vsize in *.
        rewrite length_app in IH. simpl in *. lia.
    + unfold vsize. simpl. lia.
Qed.

Lemma rectangle_length (fl : Flow) :
  fl_m1 fl ≤ fl_m2 fl → fl_n1 fl ≤ fl_n2 fl →
  vsize (rectangle fl) = rect_size fl.
Proof.
  intros Hm Hn. unfold rectangle, rect_size, vsize.
  generalize (seqZ (fl_m1 fl) (fl_m2 fl - fl_m1 fl + 1)) as xs,
    (length_seqZ (fl_m1 fl) (fl_m2 fl - fl_m1 fl + 1)).
  intros xs Hxs.
  assert (Hlen : ∀ xs : list Z,
    length (cx ← xs; cy ← seqZ (fl_n1 fl) (fl_n2 fl - fl_n1 fl + 1);
            [(cx, cy)])
    = (length xs * Z.to_nat (fl_n2 fl - fl_n1 fl + 1))%nat).
  { clear. induction xs as [|a xs IH]; [done|].
    change (length ((cy ← seqZ (fl_n1 fl) (fl_n2 fl - fl_n1 fl + 1);
                     [(a, cy)]) ++
                    (cx ← xs; cy ← seqZ (fl_n1 fl) (fl_n2 fl - fl_n1 fl + 1);
                     [(cx, cy)]))
            = (length (a :: xs) * Z.to_nat (fl_n2 fl - fl_n1 fl + 1))%nat).
    rewrite length_app, IH. simpl. f_equal.
    rewrite <- (length_seqZ (fl_n1 fl)).
    generalize (seqZ (fl_n1 fl) (fl_n2 fl - fl_n1 fl + 1)).
    induction l as [|b l IHl]; simpl; [done|]. by f_equal. }
  rewrite Hlen, Hxs. lia.
Qed.

Lemma rectangle_empty (fl : Flow) :
  ¬ (fl_m1 fl ≤ fl_m2 fl ∧ fl_n1 fl ≤ fl_n2 fl) → rectangle fl = [].
Proof.
  intros Hne. unfold rectangle.
  destruct (decide (fl_m1 fl ≤ fl_m2 fl)) as [Hm|Hm].
  - rewrite (seqZ_nil (fl_n1 fl)) by lia.
    induction (seqZ (fl_m1 fl) (fl_m2 fl - fl_m1 fl + 1)); [done|].
    simpl. done.
  - rewrite (seqZ_nil (fl_m1 fl)) by lia. done.
Qed.

Lemma raw_candidates_length (G : Globals) (fl : Flow) (T W : Z)
    (raw : list CandidateInfo) :
  raw_candidates log G fl T W = Some raw →
  vsize raw ≤ vsize (rectangle fl).
Proof.
  unfold raw_candidates. intros Hraw.
  destruct (mapM _ (rectangle fl)) as [all|] eqn:Hall; [|done].
  simpl in Hraw. injection Hraw as <-.
  apply length_mapM in Hall. unfold vsize. rewrite Hall.
  pose proof (List.filter_length_le (admitted fl) all). lia.
Qed.

Lemma select_candidates_size (fl : Flow) (raw final : list CandidateInfo) :
  select_candidates fl raw = Some final →
  1 ≤ vsize final ∧ vsize final ≤ top_k_of fl raw
  ∧ vsize final ≤ 8 ∧ vsize final ≤ vsize raw.
Proof.
  unfold select_candidates.
  set (sorted := std_sort _ raw).
  assert (Hlen : vsize sorted = vsize raw).
  { unfold vsize. f_equal. apply std_sort_length. }
  destruct sorted as [|first rest] eqn:Hsorted; [done|].
  simpl. intros [= <-].
  pose proof (diversify_length
                (top_k_of fl (first :: rest)) rest [first]) as (H1 & H2 & H3).
  assert (Htop : top_k_of fl (first :: rest) = top_k_of fl raw).
  { unfold top_k_of. by rewrite Hlen. }
  rewrite Htop in *.
  assert (Hk : 2 ≤ top_k_of fl raw ≤ 8) by (unfold top_k_of; lia).
  unfold vsize in *. simpl in *. lia.
Qed.

(** With no admitted candidate the selection reads [raw_candidates[0]]
    of an empty vector. *)
Lemma select_candidates_empty (fl : Flow) : select_candidates fl [] = None.
Proof. reflexivity. Qed.

Lemma flow_candidates_size (G : Globals) (T W : Z) (fl : Flow)
    (final : list CandidateInfo) (slots : list (list TimeSlotInfo)) :
  flow_candidates log G T W fl = Some (final, slots) →
  ∃ raw, raw_candidates log G fl T W = Some raw ∧
    1 ≤ vsize final ≤ 8 ∧
    vsize final ≤ vsize raw ∧ vsize raw ≤ rect_size fl ∧
    vsize final ≤ top_k_of fl raw ∧
    vsize slots = vsize final.
Proof.
  unfold flow_candidates. intros Hfc.
  destruct (raw_candidates log G fl T W) as [raw|] eqn:Hraw; [|done].
  simpl in Hfc.
  destruct (select_candidates fl raw) as [final'|] eqn:Hsel; [|done].
  simpl in Hfc.
  destruct (mapM _ final') as [slots'|] eqn:Hslots; [|done].
  simpl in Hfc. injection Hfc as <- <-.
  exists raw. split; [done|].
  destruct (select_candidates_size _ _ _ Hsel) as (H1 & Hk & H8 & Hr).
  pose proof (raw_candidates_length _ _ _ _ _ Hraw) as Hrect.
  apply length_mapM in Hslots.
  destruct (decide (fl_m1 fl ≤ fl_m2 fl ∧ fl_n1 fl ≤ fl_n2 fl))
    as [[Hm Hn]|Hne].
  - rewrite rectangle_length in Hrect by done. unfold vsize in *. lia.
  - rewrite rectangle_empty in Hrect by done. unfold vsize in *.
    simpl in *. lia.
Qed.

(** C1, as the code has it.  When candidate generation completes, the
    final candidate list of every flow has at least 1 and at most 8
    entries, no more entries than raw candidates passed the admission
    filter, and no more than the flow's rectangle has cells; its size is
    capped by [top_k], the minimum of 8, the rectangle area and the number
    of admitted candidates, raised to 2. *)
Theorem candidate_list_size (G G' : Globals) (flows : list Flow)
    (T M N W : Z) (idx : nat) (fl : Flow) :
  build_smart_candidates log G flows T M N W = Some G' →
  flows !! idx = Some fl →
  ∃ raw final,
    raw_candidates log G fl T W = Some raw ∧
    g_candidates G' !! idx = Some final ∧
    1 ≤ vsize final ≤ 8 ∧
    vsize final ≤ vsize raw ∧
    vsize raw ≤ rect_size fl ∧
    vsize final ≤ top_k_of fl raw.
Proof.
  unfold build_smart_candidates. intros Hb Hfl.
  destruct (mapM _ flows) as [per|] eqn:Hper; [|done].
  simpl in Hb. injection Hb as <-. simpl.
  apply mapM_Some_1 in Hper.
  destruct (Forall2_lookup_l _ _ _ _ _ Hper Hfl) as ([final slots] & Hp & Hfc).
  destruct (flow_candidates_size _ _ _ _ _ _ Hfc) as (raw & Hraw & Hsz).
  exists raw, final. split; [done|]. split.
  - rewrite list_lookup_fmap, Hp. done.
  - tauto.
Qed.

End CandidateBounds.

Lemma candidate_list_size_witness :
  ∃ G' raw final,
    build_smart_candidates demo_log demo_tables [demo_flow] 10 2 2 60
    = Some G' ∧
    raw_candidates demo_log demo_tables demo_flow 10 60 = Some raw ∧
    g_candidates G' !! 0%nat = Some final ∧
    1 ≤ vsize final ≤ 8 ∧ vsize final ≤ vsize raw ∧
    vsize raw ≤ rect_size demo_flow.
Proof.
  destruct (build_smart_candidates demo_log demo_tables [demo_flow] 10 2 2 60)
    as [G'|] eqn:Hb; [|vm_compute in Hb; discriminate Hb].
  destruct (candidate_list_size demo_log demo_tables G' [demo_flow]
              10 2 2 60 0%nat demo_flow Hb eq_refl)
    as (raw & final & Hraw & Hfinal & Hsize & Hle & Hrect & _).
  exists G', raw, final. repeat split; assumption || apply Hsize.
Defined.

(** C1 as stated fails on its lower bound.  The two cells of the
    rectangle of [demo_flow_column] are both admitted (they are within
    distance 2 of the origin), so there are two raw candidates in a
    rectangle of area two, but the second is adjacent to the first and has
    less than 80% of its potential: the final list holds one candidate.
    No cell of the rectangle has capacity, so [log] is never called. *)
Lemma candidate_list_may_be_single :
  ∃ G' raw final,
    build_smart_candidates demo_log demo_tables [demo_flow_column] 10 2 2 60
    = Some G' ∧
    raw_candidates demo_log demo_tables demo_flow_column 10 60 = Some raw ∧
    vsize raw = 2 ∧ rect_size demo_flow_column = 2 ∧
    g_candidates G' !! 0%nat = Some final ∧
    ¬ (2 ≤ vsize final).
Proof.
  eexists _, _, _.
  split; [vm_compute; reflexivity|].
  split; [vm_compute; reflexivity|].
  split; [reflexivity|]. split; [reflexivity|].
  split; [reflexivity|]. vm_compute. intros H. by apply H.
Qed.

(** ** Doubles and sums *)

Lemma Qltb_lt (a b : Q) : Qltb a b = true ↔ (a < b)%Q.
Proof.
  unfold Qltb. rewrite Qlt_alt. destruct (a ?= b)%Q; split; congruence.
Qed.

Lemma Qltb_ge (a b : Q) : Qltb a b = false ↔ (b <= a)%Q.
Proof.
  rewrite <- not_true_iff_false, Qltb_lt. split.
  - apply Qnot_lt_le.
  - apply Qle_not_lt.
Qed.

Lemma Qleb_le (a b : Q) : Qleb a b = true ↔ (a <= b)%Q.
Proof. apply Qle_bool_iff. Qed.

Lemma Qleb_gt (a b : Q) : Qleb a b = false ↔ (b < a)%Q.
Proof.
  rewrite <- not_true_iff_false, Qleb_le. split.
  - apply Qnot_le_lt.
  - apply Qlt_not_le.
Qed.

Lemma eps_pos : (0 < eps)%Q.
Proof. reflexivity. Qed.

Lemma dmin_spec (a b : Q) :
  (dmin a b <= a)%Q ∧ (dmin a b <= b)%Q ∧ (dmin a b = a ∨ dmin a b = b).
Proof.
  unfold dmin. destruct (Qltb b a) eqn:Hlt.
  - apply Qltb_lt in Hlt. repeat split; auto; lra.
  - apply Qltb_ge in Hlt. repeat split; auto; lra.
Qed.








(** ** Greedy decoder: one flow *)






(** ** Greedy decoder: the working table *)

Lemma capacity_idx_in_grid (T M N t x y : Z) :
  T * M * N < 2 ^ 31 → 0 ≤ t < T → 0 ≤ x < M → 0 ≤ y < N →
  capacity_idx M N t x y = t * M * N + x * N + y
  ∧ 0 ≤ t * M * N + x * N + y < T * M * N.
Proof.
  intros Hfit Ht Hx Hy.
  assert (Hxy : 0 ≤ x * N + y < M * N) by nia.
  assert (Hrange : 0 ≤ t * M * N + x * N + y < T * M * N) by nia.
  split; [|done]. unfold capacity_idx, to_int.
  rewrite (Z.mod_small _ (2 ^ 64)) by lia.
  rewrite Z.mod_small by lia. lia.
Qed.


Lemma elem_of_cells (T M N t x y : Z) :
  (t, x, y) ∈ cells T M N ↔ 0 ≤ t < T ∧ 0 ≤ x < M ∧ 0 ≤ y < N.
Proof.
  unfold cells. rewrite list_elem_of_bind. split.
  - intros (t' & Hin & Ht). apply list_elem_of_bind in Hin as (x' & Hin & Hx).
    apply list_elem_of_bind in Hin as (y' & Hin & Hy).
    apply list_elem_of_singleton in Hin. simplify_eq.
    apply elem_of_seqZ in Ht, Hx, Hy. lia.
  - intros (Ht & Hx & Hy). exists t. split; [|apply elem_of_seqZ; lia].
    apply list_elem_of_bind. exists x. split; [|apply elem_of_seqZ; lia].
    apply list_elem_of_bind. exists y. split; [|apply elem_of_seqZ; lia].
    by apply list_elem_of_singleton.
Qed.


(** ** Greedy decoder: all flows *)





(** A flow that occurs once in the order receives the items of exactly
    one call of the loop body. *)
Lemma allocate_all_trace (G : Globals) (M N : Z) (flows : list Flow)
    (solution : list Z) (order : list nat) (idx : nat) :
  ∀ rem schedules rem' schedules',
    allocate_all G M N flows solution order rem schedules
    = Some (rem', schedules') →
    NoDup order →
    (idx ∉ order → schedules' !! idx = schedules !! idx)
    ∧ (idx ∈ order →
       ∃ fl rem1 rem2 old items,
         flows !! idx = Some fl ∧
         allocate_flow G M N solution idx fl rem1 = Some (rem2, items) ∧
         schedules !! idx = Some old ∧
         schedules' !! idx = Some (old ++ items)).
Proof.
  induction order as [|i order IH]; intros rem schedules rem' schedules';
    simpl; intros Ha Hnd.
  - injection Ha as <- <-. split; [done|]. intros Hin.
    by apply elem_of_nil in Hin.
  - repeat bind_inv Ha. apply NoDup_cons in Hnd as [Hi Hnd].
    destruct (IH _ _ _ _ Ha Hnd) as [Hout Hin]. split.
    + intros Hni. apply not_elem_of_cons in Hni as [Hne Hni].
      rewrite (Hout Hni). by apply list_lookup_insert_ne.
    + intros Hel. apply elem_of_cons in Hel as [-> | Hel].
      * rewrite (Hout Hi).
        match goal with H : schedules !! i = Some ?o |- _ =>
          rename H into Hold; rename o into old end.
        do 5 eexists. split; [done|]. split; [done|]. split; [done|].
        apply list_lookup_insert_eq. by eapply lookup_lt_Some.
      * destruct (Hin Hel) as (fl & rem1 & rem2 & old & items
                               & Hfl & Hal & Hold & Hnew).
        assert (Hne : i ≠ idx) by (intros ->; done).
        rewrite list_lookup_insert_ne in Hold by done.
        by do 5 eexists.
Qed.

Lemma flow_order_Permutation (flows : list Flow) :
  flow_order flows ≡ₚ seq 0 (length flows).
Proof. apply std_sort_Permutation. Qed.

Lemma flow_order_NoDup (flows : list Flow) : NoDup (flow_order flows).
Proof. rewrite flow_order_Permutation. apply NoDup_seq. Qed.

Lemma elem_of_flow_order (flows : list Flow) (idx : nat) :
  idx ∈ flow_order flows ↔ (idx < length flows)%nat.
Proof. rewrite flow_order_Permutation, elem_of_seq. lia. Qed.

(** The steps of a successful call of the decoder. *)
Lemma greedy_allocate_inv (G : Globals) (flows : list Flow)
    (solution : list Z) (schedules : list (list ScheduleItem)) (score : Q) :
  greedy_allocate G flows solution = Some (schedules, score) →
  ∃ T M N rem0 rem',
    dims (g_pre_bw G) = Some (T, M, N) ∧
    init_capacity (g_pre_bw G) T M N = Some rem0 ∧
    allocate_all G M N flows solution (flow_order flows) rem0
                 (replicate (length flows) []) = Some (rem', schedules) ∧
    total_score G flows schedules = Some score.
Proof.
  unfold greedy_allocate. intros Hg.
  destruct (dims (g_pre_bw G)) as [[[T M] N]|]; [|done].
  cbn [mbind option_bind] in Hg. repeat bind_inv Hg.
  injection Hg as <- <-. by do 5 eexists.
Qed.

(** ** Greedy decoder: what it reads *)

(** The body of the loop reads the solution only through the clamped
    index. *)
Lemma allocate_flow_remap (G : Globals) (M N : Z) (sol sol' : list Z)
    (idx : nat) (fl : Flow) (rem : list Q) :
  length sol' = length sol →
  (∀ c c', sol !! idx = Some c → sol' !! idx = Some c' →
     c' = c ∨ ∃ cands, g_candidates G !! idx = Some cands
                       ∧ vsize cands ≤ c ∧ c' = 0) →
  allocate_flow G M N sol idx fl rem = allocate_flow G M N sol' idx fl rem.
Proof.
  intros Hlen Hrel. unfold allocate_flow.
  destruct (sol !! idx) as [c|] eqn:Hc.
  - destruct (sol' !! idx) as [c'|] eqn:Hc'.
    2:{ apply lookup_ge_None in Hc'. apply lookup_lt_Some in Hc. lia. }
    cbn [mbind option_bind].
    destruct (g_candidates G !! idx) as [cands|] eqn:Hcands; [|done].
    cbn [mbind option_bind].
    destruct (Hrel c c' eq_refl eq_refl) as [-> | (cands' & [= <-] & Hge & ->)];
      [done|].
    assert (Hz : (vsize cands <=? 0) = false ∨ vsize cands = 0).
    { unfold vsize. destruct cands; [by right|by left]. }
    replace (vsize cands <=? c) with true by (symmetry; apply Z.leb_le; lia).
    destruct Hz as [-> | Hz]; [done|].
    rewrite Hz. done.
  - destruct (sol' !! idx) as [c'|] eqn:Hc'; [|done].
    apply lookup_ge_None in Hc. apply lookup_lt_Some in Hc'. lia.
Qed.

Lemma allocate_all_remap (G : Globals) (M N : Z) (flows : list Flow)
    (sol sol' : list Z) (order : list nat) :
  length sol' = length sol →
  (∀ idx c c', sol !! idx = Some c → sol' !! idx = Some c' →
     c' = c ∨ ∃ cands, g_candidates G !! idx = Some cands
                       ∧ vsize cands ≤ c ∧ c' = 0) →
  ∀ rem schedules,
    allocate_all G M N flows sol order rem schedules
    = allocate_all G M N flows sol' order rem schedules.
Proof.
  intros Hlen Hrel. induction order as [|idx order IH]; intros rem schedules;
    simpl; [done|].
  destruct (flows !! idx) as [fl|]; [|done]. cbn [mbind option_bind].
  rewrite (allocate_flow_remap G M N sol sol') by eauto.
  destruct (allocate_flow G M N sol' idx fl rem) as [[rem' items]|]; [|done].
  cbn [mbind option_bind].
  destruct (schedules !! idx); [|done]. cbn [mbind option_bind]. apply IH.
Qed.

Lemma allocate_all_tables (G1 G2 : Globals) (M N : Z) (flows : list Flow)
    (sol : list Z) (order : list nat) :
  g_candidates G1 = g_candidates G2 →
  g_time_slots G1 = g_time_slots G2 →
  ∀ rem schedules,
    allocate_all G1 M N flows sol order rem schedules
    = allocate_all G2 M N flows sol order rem schedules.
Proof.
  intros Hc Hs. induction order as [|idx order IH]; intros rem schedules;
    simpl; [done|].
  destruct (flows !! idx) as [fl|]; [|done]. cbn [mbind option_bind].
  assert (Hflow : allocate_flow G1 M N sol idx fl rem
                  = allocate_flow G2 M N sol idx fl rem).
  { unfold allocate_flow. by rewrite Hc, Hs. }
  rewrite Hflow.
  destruct (allocate_flow G2 M N sol idx fl rem) as [[rem' items]|]; [|done].
  cbn [mbind option_bind].
  destruct (schedules !! idx); [|done]. cbn [mbind option_bind]. apply IH.
Qed.

(** C4. The decoder is a function of the solution, the flows and the
    static tables.  Two calls on the same solution and flows, with the
    same capacity field, candidate lists and slot lists, produce the same
    schedules; when the two decay tables, which the score reads, agree as
    well, the two calls produce the same result, schedules and score (and
    either both fault or neither does). *)
Theorem greedy_allocate_pure (G1 G2 : Globals) (flows : list Flow)
    (sol : list Z) :
  g_pre_bw G1 = g_pre_bw G2 →
  g_candidates G1 = g_candidates G2 →
  g_time_slots G1 = g_time_slots G2 →
  (∀ s1 c1 s2 c2,
     greedy_allocate G1 flows sol = Some (s1, c1) →
     greedy_allocate G2 flows sol = Some (s2, c2) → s1 = s2)
  ∧ (g_distance_factor G1 = g_distance_factor G2 →
     g_delay_factor G1 = g_delay_factor G2 →
     greedy_allocate G1 flows sol = greedy_allocate G2 flows sol).
Proof.
  intros Hbw Hc Hs. split.
  - intros s1 c1 s2 c2 H1 H2.
    apply greedy_allocate_inv in H1
      as (T & M & N & rem0 & rem1 & Hd1 & Hi1 & Ha1 & _).
    apply greedy_allocate_inv in H2
      as (T' & M' & N' & rem0' & rem2 & Hd2 & Hi2 & Ha2 & _).
    rewrite Hbw in Hd1, Hi1. rewrite Hd1 in Hd2. injection Hd2 as <- <- <-.
    rewrite Hi1 in Hi2. injection Hi2 as <-.
    rewrite (allocate_all_tables G1 G2) in Ha1 by done.
    rewrite Ha1 in Ha2. by injection Ha2.
  - intros Hdist Hdelay. destruct G1, G2. simpl in *. by subst.
Qed.

Lemma greedy_allocate_pure_witness :
  fst <$> greedy_allocate demo_G [demo_flow] [0]
  = fst <$> greedy_allocate
              (mkGlobals (g_pre_bw demo_G) [1%Q] [1%Q]
                         (g_candidates demo_G) (g_time_slots demo_G))
              [demo_flow] [0]
  ∧ is_Some (greedy_allocate demo_G [demo_flow] [0]).
Proof.
  set (G2 := mkGlobals (g_pre_bw demo_G) [1%Q] [1%Q]
                       (g_candidates demo_G) (g_time_slots demo_G)).
  destruct (greedy_allocate demo_G [demo_flow] [0]) as [[s1 c1]|] eqn:H1;
    [|vm_compute in H1; discriminate H1].
  destruct (greedy_allocate G2 [demo_flow] [0]) as [[s2 c2]|] eqn:H2;
    [|vm_compute in H2; discriminate H2].
  split; [|by eexists]. simpl. f_equal.
  destruct (greedy_allocate_pure demo_G G2 [demo_flow] [0]) as [Hsched _];
    [reflexivity..|].
  by eapply Hsched.
Defined.

(** ** The random engine *)

(** The value that the C++ standard requires of the 10000th consecutive
    invocation of a default-constructed [mt19937] (whose seed is 5489),
    and the first draws of the engine seeded with 42. *)
Example mt19937_required_behaviour :
  (mt_next (mt_discard 9999 (mt_seed 5489))).1 = 4123659995%N.
Proof. vm_compute. reflexivity. Qed.

Example mt19937_seed_42 :
  let '(r1, g1) := mt_next (mt_seed 42) in
  let '(r2, g2) := mt_next g1 in
  let '(r3, _) := mt_next g2 in
  [r1; r2; r3] = [1608637542; 3421126067; 4083286876]%N.
Proof. vm_compute. reflexivity. Qed.

(** ** Local search *)

Lemma ls_iteration_step (G : Globals) (flows : list Flow) (st st' : LSState) :
  ls_iteration G flows st = Some st' →
  ∃ new_solution rng' schedules score,
    mutate G (vsize flows) (ls_problematic st) (ls_solution st) (ls_rng st)
    = Some (new_solution, rng') ∧
    greedy_allocate G flows new_solution = Some (schedules, score) ∧
    (ls_accepted st st' new_solution score ∨ ls_rejected st st' score).
Proof.
  unfold ls_iteration. intros Hit. repeat bind_inv Hit.
  do 4 eexists. split; [done|]. split; [done|].
  destruct (Qltb _ _) eqn:Hcmp.
  - apply Qltb_lt in Hcmp. bind_inv Hit. injection Hit as <-.
    left. by repeat split.
  - apply Qltb_ge in Hcmp. injection Hit as <-.
    right. by repeat split.
Qed.

Lemma ls_iteration_monotone (G : Globals) (flows : list Flow)
    (st st' : LSState) :
  ls_iteration G flows st = Some st' →
  (ls_best_score st <= ls_best_score st')%Q.
Proof.
  intros Hit. pose proof eps_pos.
  apply ls_iteration_step in Hit
    as (new & rng' & scheds & score & _ & _ & [Hacc | Hrej]).
  - destruct Hacc as (Hlt & _ & _ & -> & _). lra.
  - destruct Hrej as (_ & _ & _ & -> & _). lra.
Qed.

Lemma ls_iteration_current (G : Globals) (flows : list Flow)
    (st st' : LSState) :
  ls_iteration G flows st = Some st' →
  ls_solution st = ls_best_solution st →
  ls_solution st' = ls_best_solution st'.
Proof.
  intros Hit Heq.
  apply ls_iteration_step in Hit
    as (new & rng' & scheds & score & _ & _ & [Hacc | Hrej]).
  - destruct Hacc as (_ & -> & -> & _). done.
  - destruct Hrej as (_ & -> & -> & _). done.
Qed.

(** Consecutive states of the loop are one iteration apart. *)
Lemma ls_loop_steps (G : Globals) (flows : list Flow) (n : nat) :
  ∀ st0 trace, ls_loop G flows n st0 = Some trace →
  ∀ i a b, (st0 :: trace) !! i = Some a → (st0 :: trace) !! S i = Some b →
           ls_iteration G flows a = Some b.
Proof.
  induction n as [|n IH]; intros st0 trace Hloop i a b Ha Hb; simpl in Hloop.
  - injection Hloop as <-. done.
  - bind_inv Hloop. destruct (20 <? ls_no_improve _).
    + injection Hloop as <-. destruct i as [|[|i]]; simplify_eq/=. done.
    + bind_inv Hloop. injection Hloop as <-.
      destruct i as [|i]; simplify_eq/=; [done|]. by eapply IH.
Qed.

Lemma ls_loop_monotone (G : Globals) (flows : list Flow) (n : nat)
    (st0 : LSState) (trace : list LSState) :
  ls_loop G flows n st0 = Some trace →
  ∀ i j a b, (i ≤ j)%nat →
    (st0 :: trace) !! i = Some a → (st0 :: trace) !! j = Some b →
    (ls_best_score a <= ls_best_score b)%Q.
Proof.
  intros Hloop. pose proof (ls_loop_steps _ _ _ _ _ Hloop) as Hsteps.
  intros i j a b Hij. replace j with (i + (j - i))%nat by lia.
  generalize (j - i)%nat as k. clear j Hij. intros k. revert b.
  induction k as [|k IH]; intros b Ha Hb.
  - rewrite Nat.add_0_r in Hb. rewrite Ha in Hb. injection Hb as <-. lra.
  - replace (i + S k)%nat with (S (i + k)) in Hb by lia.
    destruct ((st0 :: trace) !! (i + k)%nat) as [c|] eqn:Hc.
    2:{ apply lookup_ge_None in Hc. apply lookup_lt_Some in Hb. lia. }
    specialize (IH c Ha eq_refl).
    pose proof (ls_iteration_monotone _ _ _ _ (Hsteps _ _ _ Hc Hb)). lra.
Qed.

Lemma ls_loop_current (G : Globals) (flows : list Flow) (n : nat)
    (st0 : LSState) (trace : list LSState) :
  ls_loop G flows n st0 = Some trace →
  ls_solution st0 = ls_best_solution st0 →
  ∀ i st, (st0 :: trace) !! i = Some st →
          ls_solution st = ls_best_solution st.
Proof.
  intros Hloop Hinit. pose proof (ls_loop_steps _ _ _ _ _ Hloop) as Hsteps.
  induction i as [|i IH]; intros st Hst.
  - by injection Hst as <-.
  - destruct ((st0 :: trace) !! i) as [c|] eqn:Hc.
    2:{ apply lookup_ge_None in Hc. apply lookup_lt_Some in Hst. lia. }
    eapply ls_iteration_current; [exact (Hsteps _ _ _ Hc Hst)|].
    by apply IH.
Qed.

(** C7. Along the states of the loop, starting with the state before the
    first iteration: every iteration either accepts its mutation, whose
    decoded score then exceeds the best score by more than [eps] and
    which becomes the current and the best solution, or rejects it and
    leaves the current solution, the best solution and the best score as
    they were; the best score never decreases from a state to a later
    one; and when the loop starts with the current solution as the best
    one, the current solution is the last accepted one at every state. *)
Theorem local_search_hill_climbing (G : Globals) (flows : list Flow)
    (n : nat) (st0 : LSState) (trace : list LSState) :
  ls_loop G flows n st0 = Some trace →
  (∀ i a b, (st0 :: trace) !! i = Some a → (st0 :: trace) !! S i = Some b →
     ∃ new_solution rng' schedules score,
       mutate G (vsize flows) (ls_problematic a) (ls_solution a) (ls_rng a)
       = Some (new_solution, rng') ∧
       greedy_allocate G flows new_solution = Some (schedules, score) ∧
       (ls_accepted a b new_solution score ∨ ls_rejected a b score))
  ∧ (∀ i j a b, (i ≤ j)%nat →
       (st0 :: trace) !! i = Some a → (st0 :: trace) !! j = Some b →
       (ls_best_score a <= ls_best_score b)%Q)
  ∧ (ls_solution st0 = ls_best_solution st0 →
     ∀ st, st ∈ trace → ls_solution st = ls_best_solution st).
Proof.
  intros Hloop. split; [|split].
  - intros i a b Ha Hb. apply ls_iteration_step.
    by eapply ls_loop_steps.
  - by eapply ls_loop_monotone.
  - intros Hinit st Hst. apply list_elem_of_lookup in Hst as [i Hi].
    by apply (ls_loop_current _ _ _ _ _ Hloop Hinit (S i)).
Qed.

Lemma local_search_hill_climbing_witness :
  ∃ trace,
    ls_loop demo_G_big [demo_flow_big] 3 (ls_init [0] 0 [0%nat])
    = Some trace ∧
    ∀ st, st ∈ trace → ls_solution st = ls_best_solution st.
Proof.
  destruct (ls_loop demo_G_big [demo_flow_big] 3 (ls_init [0] 0 [0%nat]))
    as [trace|] eqn:Hloop; [|vm_compute in Hloop; discriminate Hloop].
  exists trace. split; [done|].
  apply (local_search_hill_climbing _ _ _ _ _ Hloop). reflexivity.
Defined.

Lemma last_default_or_elem {A : Type} (l : list A) (d : A) :
  (l = [] ∧ List.last l d = d) ∨ List.last l d ∈ l.
Proof.
  induction l as [|a l IH]; [by left|]. right.
  destruct IH as [[-> _] | IH]; simpl.
  - apply elem_of_cons. by left.
  - destruct l; [by apply elem_of_nil in IH|].
    apply elem_of_cons. by right.
Qed.

(** The result of the driver is at least the score it was given. *)
Lemma local_search_improves (G : Globals) (flows : list Flow)
    (solution best : list Z) (current_score best_score : Q)
    (max_iterations : Z) :
  local_search G flows solution current_score max_iterations
  = Some (best, best_score) →
  (current_score <= best_score)%Q.
Proof.
  unfold local_search. intros Hls. repeat bind_inv Hls.
  injection Hls as _ <-.
  match goal with H : ls_loop _ _ _ ?s = Some ?t |- _ =>
    pose proof (ls_loop_monotone _ _ _ _ _ H) as Hmono;
    set (st0 := s) in *; rename t into trace end.
  destruct (last_default_or_elem trace st0) as [[_ ->] | Hlast].
  - simpl. lra.
  - apply list_elem_of_lookup in Hlast as [i Hi].
    apply (Hmono 0%nat (S i) st0 _); [lia|done|done].
Qed.

(** ** The focused mutation *)

Lemma reassign_spec (G : Globals) (idx : nat) (sol sol' : list Z)
    (rng rng' : mt19937) :
  reassign G idx sol rng = Some (sol', rng') →
  length sol' = length sol ∧
  (∀ j, j ≠ idx → sol' !! j = sol !! j) ∧
  ∃ cands, g_candidates G !! idx = Some cands ∧
    (1 < vsize cands →
       sol' !! idx = Some (Z.of_N (mt_next rng).1 mod vsize cands)
       ∧ 0 ≤ Z.of_N (mt_next rng).1 mod vsize cands < vsize cands) ∧
    (vsize cands ≤ 1 → sol' = sol).
Proof.
  unfold reassign. intros Hr. bind_inv Hr.
  destruct (1 <? vsize _) eqn:Hnum.
  - apply Z.ltb_lt in Hnum. destruct (mt_next rng) as [r rng1] eqn:Hnext.
    bind_inv Hr. injection Hr as <- <-.
    match goal with H : vset _ _ _ = Some _ |- _ =>
      apply vset_Some in H as [Hidx ->] end.
    rewrite Nat2Z.id. split; [apply length_insert|]. split.
    + intros j Hj. by apply list_lookup_insert_ne.
    + eexists. split; [done|]. split; [|lia]. intros _. simpl. split.
      * apply list_lookup_insert_eq. unfold vsize in Hidx. lia.
      * apply Z.mod_pos_bound. lia.
  - apply Z.ltb_ge in Hnum. injection Hr as <- <-.
    split; [done|]. split; [done|]. eexists. split; [done|].
    split; [lia|done].
Qed.

(** C8, as the code has it.  In the branch that focuses on a problematic
    flow, the flow picked is one of the problematic flows, the indices of
    all other flows are kept, and when the flow has more than one
    candidate its new index is the next draw of the engine reduced modulo
    the number of its candidates, an index of its candidate list. *)
Theorem focused_mutation_in_range (G : Globals) (problematic_flows : list nat)
    (sol sol' : list Z) (rng rng' : mt19937) (idx : nat) :
  mutate_problematic G problematic_flows sol rng = Some (idx, sol', rng') →
  idx ∈ problematic_flows ∧
  length sol' = length sol ∧
  (∀ j, j ≠ idx → sol' !! j = sol !! j) ∧
  ∃ cands, g_candidates G !! idx = Some cands ∧
    (1 < vsize cands →
       ∃ c, sol' !! idx = Some c ∧ 0 ≤ c < vsize cands ∧
            c = Z.of_N (mt_next (mt_next rng).2).1 mod vsize cands).
Proof.
  unfold mutate_problematic. intros Hm.
  destruct (mt_next rng) as [r rng1] eqn:Hnext.
  repeat bind_inv Hm. injection Hm as <- <- <-.
  match goal with H : reassign _ _ _ _ = Some _ |- _ =>
    apply reassign_spec in H as (Hlen & Hother & cands & Hc & Hnew & _) end.
  split; [by eapply list_elem_of_lookup_2|].
  split; [done|]. split; [done|].
  exists cands. split; [done|]. intros Hnum.
  destruct (Hnew Hnum) as [Hidx Hrange]. eexists. split; [exact Hidx|].
  split; [done|]. reflexivity.
Qed.

Lemma focused_mutation_in_range_witness :
  ∃ sol' idx,
    fst <$> mutate_problematic demo_G_big [0%nat] [1]
              (mt_next (mt_seed 42)).2 = Some (idx, sol') ∧
    idx ∈ [0%nat] ∧ length sol' = 1%nat.
Proof.
  destruct (mutate_problematic demo_G_big [0%nat] [1]
              (mt_next (mt_seed 42)).2) as [[[idx sol'] rng']|] eqn:Hm;
    [|vm_compute in Hm; discriminate Hm].
  exists sol', idx. split; [done|].
  destruct (focused_mutation_in_range _ _ _ _ _ _ _ Hm) as (Hin & Hlen & _).
  by split.
Defined.

(** C8 as stated fails.  On the instance with demand 100 the only flow is
    problematic under the initial solution and has two candidates; the
    first draw of [mt19937 rng(42)] selects the focused branch, and the
    third draw, 4083286876, is even: the mutated solution assigns the
    flow the index 0 that it already has. *)
Lemma focused_mutation_may_repeat :
  (fst <$> greedy_allocate demo_G_big [demo_flow_big] [0]) ≫=
    find_problematic [demo_flow_big] = Some [0%nat] ∧
  ((mt_next (mt_seed 42)).1 mod 10 <? 7)%N = true ∧
  (vsize <$> g_candidates demo_G_big !! 0%nat) = Some 2 ∧
  fst <$> mutate_problematic demo_G_big [0%nat] [0] (mt_next (mt_seed 42)).2
  = Some (0%nat, [0]) ∧
  fst <$> mutate demo_G_big 1 [0%nat] [0] (mt_seed 42) = Some [0].
Proof.
  repeat split; vm_compute; reflexivity.
Qed.

(** ** The decoder returns on well-formed inputs *)

Lemma pre_bw_in_grid (bw : list (list (list Q))) (T M N t x y : Z) :
  field_shape bw T M N →
  (is_Some (pre_bw bw t x y) ↔ in_grid T M N t x y).
Proof.
  intros [HT Hplanes]. unfold pre_bw, in_grid. split.
  - intros [v Hv]. repeat bind_inv Hv.
    match goal with
    | Hp : vget bw t = Some ?plane, Hr : vget ?plane x = Some ?row |- _ =>
        pose proof (vget_lt _ _ _ Hp) as Ht;
        pose proof (vget_lt _ _ _ Hr) as Hx;
        pose proof (vget_lt _ _ _ Hv) as Hy;
        apply vget_Some in Hp as [_ Hp]; apply vget_Some in Hr as [_ Hr];
        destruct (Forall_lookup_1 _ _ _ _ Hplanes Hp) as [HM Hrows];
        pose proof (Forall_lookup_1 _ _ _ _ Hrows Hr) as HN
    end.
    simpl in *. lia.
  - intros (Ht & Hx & Hy).
    destruct (vget_is_Some bw t) as [plane Hp]; [lia|]. rewrite Hp.
    cbn [mbind option_bind].
    pose proof Hp as Hp'. apply vget_Some in Hp' as [_ Hp'].
    destruct (Forall_lookup_1 _ _ _ _ Hplanes Hp') as [HM Hrows].
    simpl in HM.
    destruct (vget_is_Some plane x) as [row Hr]; [lia|]. rewrite Hr.
    cbn [mbind option_bind].
    pose proof Hr as Hr'. apply vget_Some in Hr' as [_ Hr'].
    pose proof (Forall_lookup_1 _ _ _ _ Hrows Hr') as HN. simpl in HN.
    apply vget_is_Some. lia.
Qed.

Lemma dims_shape (bw : list (list (list Q))) (T M N : Z) :
  field_shape bw T M N → 0 < T → 0 < M → dims bw = Some (T, M, N).
Proof.
  intros [HT Hplanes] HTpos HMpos. unfold dims.
  destruct bw as [|plane bw]; [unfold vsize in HT; simpl in HT; lia|].
  apply Forall_cons in Hplanes as [[HM Hrows] _]. simpl.
  destruct plane as [|row plane]; [unfold vsize in HM; simpl in HM; lia|].
  apply Forall_cons in Hrows as [HN _]. simpl. by rewrite HT, HM, HN.
Qed.

Lemma foldlM_invariant {A B : Type} (f : A → B → option A) (I : A → Prop)
    (l : list B) :
  (∀ a b, I a → b ∈ l → ∃ a', f a b = Some a' ∧ I a') →
  ∀ a, I a → ∃ a', foldlM f a l = Some a' ∧ I a'.
Proof.
  induction l as [|b l IH]; intros Hstep a Ha; simpl.
  - by exists a.
  - destruct (Hstep a b Ha) as (a1 & -> & Ha1); [by left|].
    cbn [mbind option_bind]. apply IH; [|done].
    intros a2 b2 Ha2 Hb2. apply Hstep; [done|by right].
Qed.

Lemma init_capacity_total (bw : list (list (list Q))) (T M N : Z) :
  field_shape bw T M N → T * M * N < 2 ^ 31 →
  ∃ rem0, init_capacity bw T M N = Some rem0 ∧ vsize rem0 = T * M * N.
Proof.
  intros Hshape Hfit. unfold init_capacity.
  apply (foldlM_invariant _ (λ rem, vsize rem = T * M * N)).
  - intros rem [[t x] y] Hlen Hc. apply elem_of_cells in Hc.
    destruct Hc as (Ht & Hx & Hy).
    destruct (proj2 (pre_bw_in_grid bw T M N t x y Hshape)) as [v ->];
      [done|].
    cbn [mbind option_bind].
    destruct (capacity_idx_in_grid T M N t x y) as [-> Hr]; [done..|].
    unfold vset. unfold vsize in Hlen. rewrite bool_decide_true by lia.
    eexists. split; [done|]. unfold vsize. by rewrite length_insert.
  - unfold vsize. rewrite length_replicate.
    destruct (decide (0 ≤ T * M * N)); [lia|].
    destruct Hshape as [HT Hplanes]. unfold vsize in HT.
    destruct bw as [|plane bw]; simpl in HT; [lia|].
    apply Forall_cons in Hplanes as [[HM Hrows] _]. unfold vsize in HM.
    destruct plane as [|row plane]; simpl in HM; [lia|].
    apply Forall_cons in Hrows as [HN _]. unfold vsize in HN. nia.
Qed.

Lemma consume_total (T M N cx cy : Z) (slots : list TimeSlotInfo) :
  T * M * N < 2 ^ 31 →
  Forall (λ slot, in_grid T M N (slot_t slot) cx cy) slots →
  ∀ rem need, vsize rem = T * M * N →
    ∃ rem' need' items,
      consume M N cx cy slots rem need = Some (rem', need', items)
      ∧ vsize rem' = T * M * N.
Proof.
  intros Hfit. induction 1 as [|slot slots (Ht & Hx & Hy) _ IH];
    intros rem need Hlen; simpl.
  - by eexists _, _, _.
  - destruct (Qleb need eps); [by eexists _, _, _|].
    destruct (capacity_idx_in_grid T M N (slot_t slot) cx cy) as [-> Hr];
      [done..|].
    destruct (vget_is_Some rem (slot_t slot * M * N + cx * N + cy))
      as [avail ->]; [lia|].
    cbn [mbind option_bind].
    destruct (Qltb eps avail); [|by apply IH].
    unfold vset at 1. rewrite bool_decide_true by (unfold vsize in Hlen; lia).
    cbn [mbind option_bind].
    edestruct IH as (rem' & need' & items & -> & Hlen').
    { unfold vsize. rewrite length_insert. exact Hlen. }
    cbn [mbind option_bind]. by eexists _, _, _.
Qed.

Lemma consume_times (P : Z → Prop) (M N cx cy : Z)
    (slots : list TimeSlotInfo) :
  Forall (λ slot, P (slot_t slot)) slots →
  ∀ rem need rem' need' items,
    consume M N cx cy slots rem need = Some (rem', need', items) →
    Forall (λ item, P (it_t item)) items.
Proof.
  induction 1 as [|slot slots Hslot _ IH];
    intros rem need rem' need' items; simpl.
  - by intros [= <- <- <-].
  - destruct (Qleb need eps); [by intros [= <- <- <-]|].
    intros Hc. bind_inv Hc. destruct (Qltb eps _); [|by eapply IH].
    repeat bind_inv Hc. injection Hc as <- <- <-.
    constructor; [done|]. by eapply IH.
Qed.

Lemma slots_ok_grid (T M N : Z) (fl : Flow) (cand : CandidateInfo)
    (slots : list TimeSlotInfo) :
  slots_ok T M N fl cand slots →
  Forall (λ slot, in_grid T M N (slot_t slot) (ux cand) (uy cand)) slots
  ∧ Forall (λ slot, fl_tf fl ≤ slot_t slot) slots.
Proof.
  unfold slots_ok. intros Hok. split.
  - eapply Forall_impl; [exact Hok|]. by intros slot [? ?].
  - eapply Forall_impl; [exact Hok|]. by intros slot [? ?].
Qed.

Lemma candidate_at (T M N : Z) (fl : Flow) (cands : list CandidateInfo)
    (tslots : list (list TimeSlotInfo)) (i : Z) :
  Forall2 (slots_ok T M N fl) cands tslots → 0 ≤ i < vsize cands →
  ∃ cand slots, vget cands i = Some cand ∧ vget tslots i = Some slots
                ∧ slots_ok T M N fl cand slots.
Proof.
  intros Hall Hi. destruct (vget_is_Some cands i Hi) as [cand Hcand].
  pose proof Hcand as Hc. apply vget_Some in Hc as [_ Hc].
  destruct (Forall2_lookup_l _ _ _ _ _ Hall Hc) as (slots & Hs & Hok).
  exists cand, slots. split; [done|]. split; [|done].
  apply vget_Some. split; [lia|done].
Qed.

Lemma allocate_flow_total (G : Globals) (flows : list Flow) (sol : list Z)
    (T M N : Z) (idx : nat) (fl : Flow) (rem : list Q) :
  decoder_ready G flows sol T M N →
  flows !! idx = Some fl →
  vsize rem = T * M * N →
  ∃ rem' items,
    allocate_flow G M N sol idx fl rem = Some (rem', items)
    ∧ vsize rem' = T * M * N
    ∧ Forall (λ item, fl_tf fl ≤ it_t item) items.
Proof.
  intros [_ _ Hfit _ _ Hflows] Hfl Hlen.
  destruct (Hflows idx fl Hfl)
    as (c & cands & tslots & Hc & Hc0 & Hcands & Hne & Hts & Hall).
  unfold allocate_flow. rewrite Hc, Hcands, Hts. cbn [mbind option_bind].
  assert (Hsz : 0 < vsize cands).
  { unfold vsize. destruct cands; [done|]. simpl. lia. }
  set (cand_idx := if vsize cands <=? c then 0 else c).
  assert (Hidx : 0 ≤ cand_idx < vsize cands).
  { unfold cand_idx. destruct (Z.leb_spec (vsize cands) c); lia. }
  destruct (candidate_at _ _ _ _ _ _ cand_idx Hall Hidx)
    as (cand & slots & -> & -> & Hok).
  cbn [mbind option_bind].
  destruct (slots_ok_grid _ _ _ _ _ _ Hok) as [Hgrid Htime].
  destruct (consume_total T M N (ux cand) (uy cand) slots Hfit Hgrid
              rem (fl_s fl) Hlen)
    as (rem1 & need1 & items1 & Hc1 & Hlen1).
  rewrite Hc1. cbn [mbind option_bind].
  pose proof (consume_times _ _ _ _ _ _ Htime _ _ _ _ _ Hc1) as Ht1.
  destruct (Qltb _ need1 && _).
  - assert (Hidx2 : 0 ≤ (cand_idx + 1) mod vsize cands < vsize cands).
    { apply Z.mod_pos_bound. lia. }
    destruct (candidate_at _ _ _ _ _ _ _ Hall Hidx2)
      as (cand2 & slots2 & -> & -> & Hok2).
    cbn [mbind option_bind].
    destruct (slots_ok_grid _ _ _ _ _ _ Hok2) as [Hgrid2 Htime2].
    destruct (consume_total T M N (ux cand2) (uy cand2) slots2 Hfit Hgrid2
                rem1 need1 Hlen1)
      as (rem2 & need2 & items2 & Hc2 & Hlen2).
    rewrite Hc2. cbn [mbind option_bind].
    pose proof (consume_times _ _ _ _ _ _ Htime2 _ _ _ _ _ Hc2) as Ht2.
    eexists _, _. split; [done|]. split; [done|]. by apply Forall_app.
  - by eexists _, _.
Qed.

Lemma allocate_all_total (G : Globals) (flows : list Flow) (sol : list Z)
    (T M N : Z) (order : list nat) :
  decoder_ready G flows sol T M N →
  Forall (λ idx, idx < length flows)%nat order →
  ∀ rem schedules,
    vsize rem = T * M * N → schedules_timely flows schedules →
    ∃ rem' schedules',
      allocate_all G M N flows sol order rem schedules
      = Some (rem', schedules')
      ∧ schedules_timely flows schedules'.
Proof.
  intros Hready. induction 1 as [|idx order Hidx _ IH];
    intros rem schedules Hlen [Hslen Htimely]; simpl.
  - by eexists _, _.
  - destruct (lookup_lt_is_Some_2 flows idx Hidx) as [fl Hfl].
    rewrite Hfl. cbn [mbind option_bind].
    destruct (allocate_flow_total _ _ _ _ _ _ idx fl rem Hready Hfl Hlen)
      as (rem1 & items & -> & Hlen1 & Hitems).
    cbn [mbind option_bind].
    destruct (lookup_lt_is_Some_2 schedules idx) as [old Hold]; [lia|].
    rewrite Hold. cbn [mbind option_bind].
    apply IH; [done|]. split; [by rewrite length_insert|].
    intros i fl' sched Hfl' Hsched.
    destruct (decide (i = idx)) as [-> | Hne].
    + rewrite list_lookup_insert_eq in Hsched by lia.
      injection Hsched as <-. rewrite Hfl in Hfl'. injection Hfl' as <-.
      apply Forall_app. split; [|done]. by eapply Htimely.
    + rewrite list_lookup_insert_ne in Hsched by done. by eapply Htimely.
Qed.

Lemma lookup_clamped_is_Some {A : Type} (tbl : list A) (i : Z) :
  tbl ≠ [] → 0 ≤ i → is_Some (lookup_clamped tbl i).
Proof.
  intros Hne Hi. unfold lookup_clamped. apply vget_is_Some.
  assert (0 < vsize tbl); [|lia].
  unfold vsize. destruct tbl; [done|]. simpl. lia.
Qed.

Lemma compute_flow_score_fast_total (G : Globals) (flow : Flow)
    (schedule : list ScheduleItem) :
  g_delay_factor G ≠ [] → g_distance_factor G ≠ [] →
  Forall (λ item, fl_tf flow ≤ it_t item) schedule →
  is_Some (compute_flow_score_fast G flow schedule).
Proof.
  intros Hdelay Hdist Htimes. unfold compute_flow_score_fast.
  destruct (Qleb (fl_s flow) eps); [done|].
  destruct (foldlM_invariant (score_step G flow) (λ _, True) schedule)
    with (a := mkScoreAcc 0 0 0 ∅) as (acc & -> & _); [|done|done].
  intros acc item _ Hitem.
  apply (proj1 (Forall_forall _ _) Htimes) in Hitem.
  unfold score_step. cbv zeta.
  destruct (lookup_clamped_is_Some (g_delay_factor G)
              (it_t item - fl_tf flow)) as [delay_f ->]; [done|lia|].
  destruct (lookup_clamped_is_Some (g_distance_factor G)
              (Z.abs (fl_x flow - it_x item)
               + Z.abs (fl_y flow - it_y item))) as [dist_f ->]; [done|lia|].
  cbn [mbind option_bind]. by eexists.
Qed.

Lemma total_score_total (G : Globals) (flows : list Flow)
    (schedules : list (list ScheduleItem)) :
  g_delay_factor G ≠ [] → g_distance_factor G ≠ [] →
  schedules_timely flows schedules →
  is_Some (total_score G flows schedules).
Proof.
  intros Hdelay Hdist [Hlen Htimely]. unfold total_score.
  match goal with |- context [foldlM ?step ?w0 ?idxs] =>
    assert (Hstep : ∀ w i, True → i ∈ idxs →
                           ∃ w', step w i = Some w' ∧ True);
    [|destruct (foldlM_invariant step (λ _, True) idxs Hstep w0 I)
        as (w & -> & _); cbn [mbind option_bind]; by eexists] end.
  intros w i _ Hi. apply elem_of_seq in Hi.
  destruct (lookup_lt_is_Some_2 flows i) as [fl Hfl]; [lia|].
  destruct (lookup_lt_is_Some_2 schedules i) as [sched Hsched]; [lia|].
  rewrite Hfl, Hsched. cbn [mbind option_bind].
  destruct (compute_flow_score_fast_total G fl sched) as [sc ->];
    [done|done|by eapply Htimely|].
  cbn [mbind option_bind]. by eexists.
Qed.

(** On well-formed inputs the decoder returns schedules and a score. *)
Lemma greedy_allocate_total (G : Globals) (flows : list Flow)
    (sol : list Z) (T M N : Z) :
  decoder_ready G flows sol T M N →
  ∃ schedules score,
    greedy_allocate G flows sol = Some (schedules, score)
    ∧ schedules_timely flows schedules.
Proof.
  intros Hready. pose proof Hready as [Hshape [HT HM] Hfit Hdelay Hdist _].
  unfold greedy_allocate. rewrite (dims_shape _ T M N) by done.
  cbn [mbind option_bind].
  destruct (init_capacity_total _ _ _ _ Hshape Hfit) as (rem0 & -> & Hlen).
  cbn [mbind option_bind].
  destruct (allocate_all_total G flows sol T M N (flow_order flows) Hready)
    with (rem := rem0) (schedules := replicate (length flows)
                                       ([] : list ScheduleItem))
    as (rem' & schedules & -> & Htimely).
  - apply Forall_forall. intros idx Hidx. by apply elem_of_flow_order.
  - done.
  - split; [by rewrite length_replicate|].
    intros idx fl sched _ Hsched. apply lookup_replicate in Hsched as [-> _].
    constructor.
  - cbn [mbind option_bind].
    destruct (total_score_total G flows schedules) as [score ->]; [done..|].
    cbn [mbind option_bind]. by eexists _, _.
Qed.

(** ** An index beyond the candidate list *)

(** C9, as the code has it.  A candidate index at or above the size of
    the flow's candidate list is remapped to the first candidate: a
    solution and the one obtained from it by setting such indices to 0
    decode to the same result, schedules and score; and the decoder
    returns on the first whenever the tables are well-formed for the
    second. *)
Theorem oversized_index_remapped (G : Globals) (flows : list Flow)
    (sol sol' : list Z) :
  length sol' = length sol →
  (∀ idx c c', sol !! idx = Some c → sol' !! idx = Some c' →
     c' = c ∨ ∃ cands, g_candidates G !! idx = Some cands
                       ∧ vsize cands ≤ c ∧ c' = 0) →
  greedy_allocate G flows sol = greedy_allocate G flows sol'
  ∧ (∀ T M N, decoder_ready G flows sol' T M N →
              is_Some (greedy_allocate G flows sol)).
Proof.
  intros Hlen Hrel.
  assert (Heq : greedy_allocate G flows sol = greedy_allocate G flows sol').
  { unfold greedy_allocate.
    destruct (dims (g_pre_bw G)) as [[[T M] N]|]; [|done].
    cbn [mbind option_bind].
    destruct (init_capacity (g_pre_bw G) T M N) as [rem0|]; [|done].
    cbn [mbind option_bind].
    by rewrite (allocate_all_remap G M N flows sol sol'). }
  split; [done|]. intros T M N Hready. rewrite Heq.
  destruct (greedy_allocate_total _ _ _ _ _ _ Hready)
    as (schedules & score & -> & _).
  by eexists.
Qed.

Lemma oversized_index_remapped_witness :
  greedy_allocate demo_G [demo_flow] [5] = greedy_allocate demo_G [demo_flow] [0]
  ∧ is_Some (greedy_allocate demo_G [demo_flow] [0]).
Proof.
  split.
  - apply (oversized_index_remapped demo_G [demo_flow] [5] [0]).
    + reflexivity.
    + intros [|idx] c c' Hc Hc'; [|discriminate Hc].
      injection Hc as <-. injection Hc' as <-. right.
      eexists. split; [vm_compute; reflexivity|]. split; [|done].
      vm_compute. discriminate.
  - vm_compute. eauto.
Defined.

(** C9 as stated fails for an index that is out of range below zero:
    the index [-1] is not remapped, the decoder reads before the
    candidate vector, while with index 0 it returns a schedule. *)
Lemma negative_index_not_remapped :
  (∃ cands, g_candidates demo_G !! 0%nat = Some cands
            ∧ ¬ (0 ≤ -1 < vsize cands)) ∧
  greedy_allocate demo_G [demo_flow] [-1] = None ∧
  is_Some (greedy_allocate demo_G [demo_flow] [0]).
Proof.
  split; [|split].
  - eexists. split; [vm_compute; reflexivity|]. lia.
  - vm_compute. reflexivity.
  - vm_compute. eauto.
Qed.

(** ** The tables of the candidate generator are well-formed *)

Lemma foldlM_preserves {A B : Type} (f : A → B → option A) (I : A → Prop)
    (P : B → Prop) (l : list B) :
  (∀ a b a', I a → P b → f a b = Some a' → I a') →
  Forall P l →
  ∀ a a', I a → foldlM f a l = Some a' → I a'.
Proof.
  intros Hstep. induction 1 as [|b l Hb _ IH]; intros a a' Ha; simpl.
  - by intros [= <-].
  - intros Hf. bind_inv Hf. eapply IH; [|exact Hf]. by eapply Hstep.
Qed.

Lemma window_from_start (fl : Flow) (T W : Z) :
  Forall (λ t, fl_tf fl ≤ t) (window fl T W).
Proof.
  apply Forall_forall. intros t Ht. unfold window in Ht.
  apply elem_of_seqZ in Ht. lia.
Qed.

Lemma time_slots_ok (G : Globals) (fl : Flow) (T' W T M N : Z)
    (cand : CandidateInfo) (slots : list TimeSlotInfo) :
  field_shape (g_pre_bw G) T M N →
  time_slots G fl T' W cand = Some slots →
  slots_ok T M N fl cand slots.
Proof.
  intros Hshape Hts. unfold time_slots in Hts. bind_inv Hts.
  injection Hts as <-. unfold slots_ok.
  rewrite std_sort_Permutation.
  eapply (foldlM_preserves (slot_step G fl cand)
            (Forall (λ slot, in_grid T M N (slot_t slot) (ux cand) (uy cand)
                             ∧ fl_tf fl ≤ slot_t slot))
            (λ t, fl_tf fl ≤ t));
    [|apply window_from_start|constructor|exact E].
  intros acc t acc' Hacc Ht Hstep. unfold slot_step in Hstep.
  bind_inv Hstep.
  assert (Hgrid : in_grid T M N t (ux cand) (uy cand)).
  { apply (pre_bw_in_grid _ _ _ _ _ _ _ Hshape). by eexists. }
  destruct (Qltb eps _).
  - cbv zeta in Hstep. repeat bind_inv Hstep. injection Hstep as <-.
    apply Forall_app. split; [done|].
    apply Forall_singleton. by split.
  - by injection Hstep as <-.
Qed.

Section Ready.

Variable log : Q → Q.

Lemma flow_candidates_ready (G : Globals) (T' W T M N : Z) (fl : Flow)
    (final : list CandidateInfo) (tslots : list (list TimeSlotInfo)) :
  field_shape (g_pre_bw G) T M N →
  flow_candidates log G T' W fl = Some (final, tslots) →
  final ≠ [] ∧ Forall2 (slots_ok T M N fl) final tslots.
Proof.
  intros Hshape Hfc. split.
  - apply flow_candidates_size in Hfc as (raw & _ & [H1 _] & _).
    intros ->. unfold vsize in H1. simpl in H1. lia.
  - unfold flow_candidates in Hfc. repeat bind_inv Hfc.
    injection Hfc as <- <-.
    match goal with H : mapM _ _ = Some _ |- _ =>
      apply mapM_Some_1 in H; rename H into Hall end.
    eapply Forall2_impl; [exact Hall|].
    intros cand slots Hts. simpl in Hts.
    exact (time_slots_ok _ _ _ _ _ _ _ _ _ Hshape Hts).
Qed.

(** The tables that the candidate generator builds over a field of at
    least one cell are well-formed for every solution that holds one index
    per flow, none negative. *)
Lemma build_smart_candidates_ready (G G' : Globals) (flows : list Flow)
    (T' M' N' W : Z) (sol : list Z) (T M N : Z) :
  build_smart_candidates log G flows T' M' N' W = Some G' →
  field_shape (g_pre_bw G) T M N → 0 < T → 0 < M →
  T * M * N < 2 ^ 31 →
  g_delay_factor G ≠ [] → g_distance_factor G ≠ [] →
  length sol = length flows → Forall (λ c, 0 ≤ c) sol →
  decoder_ready G' flows sol T M N.
Proof.
  unfold build_smart_candidates.
  intros Hb Hshape HT HM Hfit Hdelay Hdist Hlen Hsol.
  bind_inv Hb. injection Hb as <-.
  match goal with H : mapM _ _ = Some _ |- _ =>
    apply mapM_Some_1 in H; rename H into Hper end.
  split; simpl; try done.
  intros idx fl Hfl.
  destruct (Forall2_lookup_l _ _ _ _ _ Hper Hfl)
    as ([final tslots] & Hp & Hfc).
  destruct (flow_candidates_ready _ _ _ _ _ _ _ _ _ Hshape Hfc)
    as [Hne Hall].
  destruct (lookup_lt_is_Some_2 sol idx) as [c Hc].
  { rewrite Hlen. by eapply lookup_lt_Some. }
  exists c, final, tslots. split; [done|].
  split; [by apply (Forall_lookup_1 _ _ _ _ Hsol Hc)|].
  rewrite !list_lookup_fmap, Hp. done.
Qed.

End Ready.

(** ** From the capacity field to the schedules *)

Lemma build_bandwidth_matrix_shape (M N T : Z) (uav_b : list (list Q))
    (uav_phi : list (list Z)) (g : list (list (list Q))) :
  build_bandwidth_matrix M N T uav_b uav_phi = Some g →
  field_shape g T M N.
Proof.
  unfold build_bandwidth_matrix. case_bool_decide as Hdim; [|done].
  intros Hg. split.
  - apply length_mapM in Hg. rewrite length_seqZ in Hg. unfold vsize. lia.
  - apply mapM_Some_1 in Hg. apply Forall_forall. intros plane Hplane.
    apply list_elem_of_lookup in Hplane as [i Hi].
    destruct (Forall2_lookup_r _ _ _ _ _ Hg Hi) as (t & _ & Hp).
    split.
    + apply length_mapM in Hp. rewrite length_seqZ in Hp. unfold vsize. lia.
    + apply mapM_Some_1 in Hp. apply Forall_forall. intros row Hrow.
      apply list_elem_of_lookup in Hrow as [k Hk].
      destruct (Forall2_lookup_r _ _ _ _ _ Hp Hk) as (x & _ & Hr).
      apply length_mapM in Hr. rewrite length_seqZ in Hr. unfold vsize. lia.
Qed.

(** The decoder returns on the tables that the preprocessing builds, for
    every solution that holds one index per flow, none negative. *)
Lemma greedy_allocate_after_preprocessing (log : Q → Q) (M N T W : Z)
    (uav_b : list (list Q)) (uav_phi : list (list Z))
    (dist delay : list Q) (flows : list Flow) (G' : Globals)
    (g : list (list (list Q))) (sol : list Z) :
  build_bandwidth_matrix M N T uav_b uav_phi = Some g →
  0 < T → 0 < M → T * M * N < 2 ^ 31 →
  dist ≠ [] → delay ≠ [] →
  build_smart_candidates log (mkGlobals g dist delay [] []) flows T M N W
  = Some G' →
  length sol = length flows → Forall (λ c, 0 ≤ c) sol →
  is_Some (greedy_allocate G' flows sol).
Proof.
  intros Hg HT HM Hfit Hdist Hdelay Hb Hlen Hsol.
  apply build_bandwidth_matrix_shape in Hg.
  eapply build_smart_candidates_ready in Hb; [|exact Hg|done..].
  destruct (greedy_allocate_total _ _ _ _ _ _ Hb)
    as (schedules & score & -> & _).
  by eexists.
Qed.

(** ** The solver returns the best score it found *)

Lemma ls_iteration_decoded (G : Globals) (flows : list Flow)
    (st st' : LSState) :
  ls_iteration G flows st = Some st' →
  ls_decoded G flows st → ls_decoded G flows st'.
Proof.
  intros Hit [schedules Hdec].
  apply ls_iteration_step in Hit
    as (new & rng' & schedules' & score & _ & Hnew & [Hacc | Hrej]).
  - destruct Hacc as (_ & _ & Hbest & Hscore & _).
    exists schedules'. by rewrite Hbest, Hscore.
  - destruct Hrej as (_ & _ & Hbest & Hscore & _).
    exists schedules. by rewrite Hbest, Hscore.
Qed.

Lemma ls_loop_decoded (G : Globals) (flows : list Flow) (n : nat)
    (st0 : LSState) (trace : list LSState) :
  ls_loop G flows n st0 = Some trace →
  ls_decoded G flows st0 →
  ∀ i st, (st0 :: trace) !! i = Some st → ls_decoded G flows st.
Proof.
  intros Hloop Hinit. pose proof (ls_loop_steps _ _ _ _ _ Hloop) as Hsteps.
  induction i as [|i IH]; intros st Hst.
  - by injection Hst as <-.
  - destruct ((st0 :: trace) !! i) as [c|] eqn:Hc.
    2:{ apply lookup_ge_None in Hc. apply lookup_lt_Some in Hst. lia. }
    eapply ls_iteration_decoded; [exact (Hsteps _ _ _ Hc Hst)|].
    by apply IH.
Qed.

(** Started from the decoded score of its solution, the driver returns a
    solution together with its decoded score. *)
Lemma local_search_decoded (G : Globals) (flows : list Flow)
    (solution best : list Z) (current_score best_score : Q)
    (max_iterations : Z) (schedules : list (list ScheduleItem)) :
  greedy_allocate G flows solution = Some (schedules, current_score) →
  local_search G flows solution current_score max_iterations
  = Some (best, best_score) →
  ∃ best_schedules,
    greedy_allocate G flows best = Some (best_schedules, best_score).
Proof.
  intros Hdec. unfold local_search. intros Hls.
  rewrite Hdec in Hls. cbn [mbind option_bind] in Hls.
  repeat bind_inv Hls. injection Hls as <- <-.
  match goal with H : ls_loop _ _ _ ?s = Some ?t |- _ =>
    pose proof (ls_loop_decoded _ _ _ _ _ H) as Hall;
    set (st0 := s) in *; rename t into trace end.
  assert (Hinit : ls_decoded G flows st0) by (by exists schedules).
  destruct (last_default_or_elem trace st0) as [[_ ->] | Hlast].
  - exact Hinit.
  - apply list_elem_of_lookup in Hlast as [i Hi].
    exact (Hall Hinit (S i) _ Hi).
Qed.

(** The score that [solve] reports is the best score of the search, and
    it is not below the score of the initial solution. *)
Lemma solve_final_score (log : Q → Q) (dist delay : list Q)
    (M N FN T : Z) (uav_b : list (list Q)) (uav_phi : list (list Z))
    (flows : list Flow) (best_schedules : list (list ScheduleItem))
    (final_score : Q) :
  solve log dist delay M N FN T uav_b uav_phi flows
  = Some (best_schedules, final_score) →
  ∃ G schedules_init score_init best_solution,
    greedy_allocate G flows (generate_smart_initial_solution flows)
    = Some (schedules_init, score_init) ∧
    local_search G flows (generate_smart_initial_solution flows)
                 score_init 150 = Some (best_solution, final_score) ∧
    (score_init <= final_score)%Q.
Proof.
  unfold solve. intros Hs. repeat bind_inv Hs. injection Hs as <- <-.
  match goal with
  | Hi : greedy_allocate ?G _ (generate_smart_initial_solution _) = Some _,
    Hl : local_search ?G _ _ _ _ = Some (?best, ?score),
    Hf : greedy_allocate ?G _ ?best = Some _ |- _ =>
      destruct (local_search_decoded _ _ _ _ _ _ _ _ Hi Hl) as [sch Hdec];
      rewrite Hdec in Hf; injection Hf as <- <-;
      pose proof (local_search_improves _ _ _ _ _ _ _ Hl) as Hle;
      exists G
  end.
  by eexists _, _, _.
Qed.

(** * Further properties of the code *)

(** ** The passes of the decoder over the slots *)

Lemma consume_drawn (M N : Z) (cand : CandidateInfo)
    (slots : list TimeSlotInfo) :
  ∀ rem need rem' need' items,
    consume M N (ux cand) (uy cand) slots rem need
    = Some (rem', need', items) →
    drawn_from cand slots need items.
Proof.
  unfold drawn_from.
  induction slots as [|slot rest IH]; intros rem need rem' need' items;
    simpl.
  - intros [= <- <- <-]. split; [constructor|]. simpl. apply sublist_nil_l.
  - destruct (Qleb need eps) eqn:Hbreak.
    { intros [= <- <- <-]. split; [constructor|]. apply sublist_nil_l. }
    apply Qleb_gt in Hbreak. intros Hc. bind_inv Hc.
    destruct (Qltb eps _) eqn:Hpos.
    + apply Qltb_lt in Hpos. repeat bind_inv Hc. injection Hc as <- <- <-.
      match goal with H : consume _ _ _ _ _ _ _ = Some _ |- _ =>
        apply IH in H as [Hitems Hsub] end.
      match goal with |- context [dmin ?a ?b] =>
        destruct (dmin_spec a b) as (Hua & Hun & Hu);
        set (use := dmin a b) in * end.
      assert (Huse : (eps < use)%Q) by (destruct Hu as [-> | ->]; lra).
      pose proof eps_pos. split.
      * constructor; [simpl; repeat split; auto; lra|].
        eapply Forall_impl; [exact Hitems|]. simpl.
        intros item (? & ? & ? & ?). repeat split; auto; lra.
      * rewrite ?fmap_cons. simpl. by apply sublist_skip.
    + apply IH in Hc as [Hitems Hsub]. split; [done|].
      rewrite ?fmap_cons. by apply sublist_cons.
Qed.



(** The two passes of the loop body. *)
Lemma allocate_flow_inv (G : Globals) (M N : Z) (sol : list Z) (idx : nat)
    (fl : Flow) (rem rem' : list Q) (items : list ScheduleItem) :
  allocate_flow G M N sol idx fl rem = Some (rem', items) →
  ∃ c cands tslots cand slots rem1 need1 items1,
    sol !! idx = Some c ∧
    g_candidates G !! idx = Some cands ∧
    g_time_slots G !! idx = Some tslots ∧
    vget cands (resolved_index cands c) = Some cand ∧
    vget tslots (resolved_index cands c) = Some slots ∧
    consume M N (ux cand) (uy cand) slots rem (fl_s fl)
    = Some (rem1, need1, items1) ∧
    ((((need1 <= fl_s fl * 0.1)%Q ∨ vsize cands ≤ 1)
      ∧ rem' = rem1 ∧ items = items1)
     ∨ ((fl_s fl * 0.1 < need1)%Q ∧ 1 < vsize cands ∧
        ∃ cand2 slots2 need2 items2,
          vget cands (fallback_index cands (resolved_index cands c))
          = Some cand2 ∧
          vget tslots (fallback_index cands (resolved_index cands c))
          = Some slots2 ∧
          consume M N (ux cand2) (uy cand2) slots2 rem1 need1
          = Some (rem', need2, items2) ∧
          items = items1 ++ items2)).
Proof.
  unfold allocate_flow, fallback_index, resolved_index. intros Ha.
  repeat bind_inv Ha.
  do 8 eexists. do 6 (split; [done|]).
  destruct (Qltb _ _) eqn:Hneed; simpl in Ha.
  - apply Qltb_lt in Hneed. destruct (1 <? vsize _) eqn:Hsize.
    + apply Z.ltb_lt in Hsize. repeat bind_inv Ha. injection Ha as <- <-.
      right. split; [done|]. split; [done|]. by do 4 eexists.
    + apply Z.ltb_ge in Hsize. injection Ha as <- <-.
      left. split; [by right|done].
  - apply Qltb_ge in Hneed. injection Ha as <- <-.
    left. split; [by left|done].
Qed.




(** The schedule of a flow in a decode and the call of the loop body that
    produced it. *)
Lemma greedy_allocate_flow (G : Globals) (flows : list Flow)
    (sol : list Z) (schedules : list (list ScheduleItem)) (score : Q)
    (idx : nat) (fl : Flow) (sched : list ScheduleItem) :
  greedy_allocate G flows sol = Some (schedules, score) →
  flows !! idx = Some fl → schedules !! idx = Some sched →
  ∃ T M N rem rem',
    dims (g_pre_bw G) = Some (T, M, N) ∧
    allocate_flow G M N sol idx fl rem = Some (rem', sched).
Proof.
  intros Hg Hfl Hsched.
  apply greedy_allocate_inv in Hg
    as (T & M & N & rem0 & remf & Hdims & _ & Hall & _).
  apply allocate_all_trace with (idx := idx) in Hall as [_ Hin];
    [|apply flow_order_NoDup].
  destruct Hin as (fl' & rem & rem' & old & items
                   & Hfl' & Halloc & Hold & Hnew).
  { apply elem_of_flow_order. by eapply lookup_lt_Some. }
  rewrite Hfl in Hfl'. injection Hfl' as <-.
  apply lookup_replicate in Hold as [-> _].
  rewrite Hsched in Hnew. injection Hnew as ->. simpl in *.
  by exists T, M, N, rem, rem'.
Qed.





Lemma consume_tiny (M N cx cy : Z) (slots : list TimeSlotInfo)
    (rem : list Q) (need : Q) :
  (need <= eps)%Q → consume M N cx cy slots rem need = Some (rem, need, []).
Proof.
  intros Hle. apply Qleb_le in Hle. destruct slots; simpl; [done|].
  by rewrite Hle.
Qed.

(** X3. A flow whose demand is at most 1e-9 is still processed by the
    decoder (its candidate and slot lists are read) but its schedule stays
    empty. *)
Theorem tiny_demand_unserved (G : Globals) (flows : list Flow)
    (sol : list Z) (schedules : list (list ScheduleItem)) (score : Q)
    (idx : nat) (fl : Flow) (sched : list ScheduleItem) :
  greedy_allocate G flows sol = Some (schedules, score) →
  flows !! idx = Some fl → schedules !! idx = Some sched →
  (fl_s fl <= eps)%Q →
  sched = [] ∧
  ∃ c cands tslots,
    sol !! idx = Some c ∧ g_candidates G !! idx = Some cands ∧
    g_time_slots G !! idx = Some tslots ∧
    is_Some (vget cands (resolved_index cands c)) ∧
    is_Some (vget tslots (resolved_index cands c)).
Proof.
  intros Hg Hfl Hsched Htiny.
  destruct (greedy_allocate_flow _ _ _ _ _ _ _ _ Hg Hfl Hsched)
    as (T & M & N & rem & rem' & _ & Halloc).
  apply allocate_flow_inv in Halloc
    as (c & cands & tslots & cand & slots & rem1 & need1 & items1
        & Hc & Hcands & Hts & Hcand & Hslots & Hpass1 & Hrest).
  rewrite consume_tiny in Hpass1 by done. injection Hpass1 as <- <- <-.
  split.
  - destruct Hrest as [(_ & _ & ->) | (_ & _ & cand2 & slots2 & need2
                                       & items2 & _ & _ & Hpass2 & ->)];
      [done|].
    rewrite consume_tiny in Hpass2 by done. by injection Hpass2 as _ _ <-.
  - exists c, cands, tslots. do 3 (split; [done|]). split; by eexists.
Qed.

Lemma tiny_demand_unserved_witness :
  ∃ schedules score,
    greedy_allocate demo_G [mkFlow 1 0 0 0 0 0 0 1 1] [0]
    = Some (schedules, score) ∧
    schedules !! 0%nat = Some [].
Proof.
  destruct (greedy_allocate demo_G [mkFlow 1 0 0 0 0 0 0 1 1] [0])
    as [[schedules score]|] eqn:Hg; [|vm_compute in Hg; discriminate Hg].
  destruct (schedules !! 0%nat) as [sched|] eqn:Hsched.
  2:{ vm_compute in Hg. injection Hg as <- _. discriminate Hsched. }
  destruct (tiny_demand_unserved demo_G [mkFlow 1 0 0 0 0 0 0 1 1] [0]
              schedules score 0%nat (mkFlow 1 0 0 0 0 0 0 1 1) sched
              Hg eq_refl Hsched) as [-> _].
  { vm_compute. discriminate. }
  exists schedules, score. split; [reflexivity|exact Hsched].
Defined.

(** ** The order in which the flows are served *)

Lemma std_sort_Sorted {A : Type} (comp : A → A → bool) (l : list A) :
  (∀ a b, comp a b = true → comp b a = false) →
  Sorted (λ a b, comp b a = false) (std_sort comp l).
Proof.
  intros Hasym. unfold std_sort.
  assert (Htotal : Total (λ a b : A, Is_true (negb (comp b a)))).
  { intros a b. destruct (comp b a) eqn:Hba.
    - right. rewrite (Hasym _ _ Hba). done.
    - by left. }
  pose proof (Sorted_merge_sort (λ a b : A, Is_true (negb (comp b a))) l)
    as Hsorted.
  induction Hsorted as [|a l' Hs IH Hhd]; constructor; [done|].
  destruct Hhd as [|b l'' Hab]; constructor.
  by destruct (comp b a).
Qed.

(** On a list of elements that satisfy [P], a relation that is transitive
    on [P] and holds between neighbours holds between all pairs. *)
Lemma Sorted_pairwise {A : Type} (R : relation A) (P : A → Prop)
    (l : list A) :
  (∀ a b c, P a → P b → P c → R a b → R b c → R a c) →
  Forall P l → Sorted R l →
  ∀ i j a b, (i < j)%nat → l !! i = Some a → l !! j = Some b → R a b.
Proof.
  intros Htrans HP Hsorted.
  assert (Hstrong : StronglySorted R l).
  { induction Hsorted as [|a l' Hs IH Hhd]; constructor.
    - apply IH. by apply Forall_cons in HP as [_ ?].
    - apply Forall_cons in HP as [Ha HP].
      destruct Hhd as [|b l'' Hab]; [constructor|].
      specialize (IH HP). apply StronglySorted_cons in IH as [Hb _].
      constructor; [done|]. apply Forall_cons in HP as [Pb HP].
      apply Forall_forall. intros c Hc.
      eapply (Htrans a b c); [done|done| |done|].
      + by apply (proj1 (Forall_forall _ _) HP).
      + by apply (proj1 (Forall_forall _ _) Hb). }
  clear Hsorted HP. induction Hstrong as [|x l' Hs IH Hall];
    intros i j a b Hij Ha Hb.
  - done.
  - destruct j as [|j]; [lia|]. destruct i as [|i]; simpl in *.
    + injection Ha as <-. apply (proj1 (Forall_forall _ _) Hall).
      by eapply list_elem_of_lookup_2.
    + eapply (IH i j); [lia|done|done].
Qed.

Lemma flow_before_false (flows : list Flow) (a b : nat) (fa fb : Flow) :
  flows !! a = Some fa → flows !! b = Some fb →
  (flow_before flows b a = false ↔ serves_before fa fb).
Proof.
  intros Ha Hb. unfold flow_before, serves_before. rewrite Ha, Hb.
  destruct (Z.eqb_spec (fl_tf fb) (fl_tf fa)) as [Heq | Hne]; simpl.
  - rewrite Qltb_ge. split; [intros; right; split; [lia|done]|].
    intros [? | [_ ?]]; [lia|done].
  - rewrite Z.ltb_ge. split; [intros; left; lia|].
    intros [? | [? _]]; lia.
Qed.

(** X4. The decoder serves the flows in an order that lists every flow
    index once and is ascending in the start time, flows of the same
    start time in descending demand: a flow that comes earlier in the
    order never starts later than one that comes after it, and at the
    same start time never has the smaller demand. *)
Theorem flows_served_by_start_then_size (flows : list Flow) :
  flow_order flows ≡ₚ seq 0 (length flows) ∧
  ∀ i j a b fa fb, (i < j)%nat →
    flow_order flows !! i = Some a → flow_order flows !! j = Some b →
    flows !! a = Some fa → flows !! b = Some fb →
    serves_before fa fb.
Proof.
  split; [apply flow_order_Permutation|].
  intros i j a b fa fb Hij Hi Hj Ha Hb.
  apply (flow_before_false flows a b fa fb Ha Hb).
  apply (Sorted_pairwise (λ a b, flow_before flows b a = false)
           (λ a, is_Some (flows !! a)) (flow_order flows))
    with (i := i) (j := j); [| | |done..].
  - intros x y z [fx Hx] [fy Hy] [fz Hz].
    rewrite (flow_before_false _ _ _ _ _ Hx Hy),
      (flow_before_false _ _ _ _ _ Hy Hz),
      (flow_before_false _ _ _ _ _ Hx Hz).
    unfold serves_before. intros [? | [? ?]] [? | [? ?]];
      [left; lia | left; lia | left; lia | right; split; [lia|lra]].
  - apply Forall_forall. intros x Hx. apply elem_of_flow_order in Hx.
    by apply lookup_lt_is_Some_2.
  - apply std_sort_Sorted. intros x y. unfold flow_before.
    destruct (flows !! x) as [fx|], (flows !! y) as [fy|]; try done.
    destruct (Z.eqb_spec (fl_tf fx) (fl_tf fy)) as [Heq | Hne]; simpl.
    + rewrite Heq, Z.eqb_refl. simpl. rewrite Qltb_lt, Qltb_ge. lra.
    + destruct (Z.eqb_spec (fl_tf fy) (fl_tf fx)); [lia|]. simpl.
      rewrite Z.ltb_lt, Z.ltb_ge. lia.
Qed.

(** ** The scores *)

Lemma lookup_clamped_Some {A : Type} (tbl : list A) (i : Z) (v : A) :
  lookup_clamped tbl i = Some v → 0 ≤ i ∧ v ∈ tbl.
Proof.
  unfold lookup_clamped. intros Hv. apply vget_Some in Hv as [Hi Hv].
  split; [lia|]. by eapply list_elem_of_lookup_2.
Qed.






(** ** The candidates that are retained *)

Lemma elem_of_rectangle (fl : Flow) (cx cy : Z) :
  (cx, cy) ∈ rectangle fl ↔
  fl_m1 fl ≤ cx ≤ fl_m2 fl ∧ fl_n1 fl ≤ cy ≤ fl_n2 fl.
Proof.
  unfold rectangle. rewrite list_elem_of_bind. split.
  - intros (x & Hin & Hx). apply list_elem_of_bind in Hin as (y & Hin & Hy).
    apply list_elem_of_singleton in Hin. simplify_eq.
    apply elem_of_seqZ in Hx, Hy. lia.
  - intros [Hx Hy]. exists cx. split; [|apply elem_of_seqZ; lia].
    apply list_elem_of_bind. exists cy. split; [|apply elem_of_seqZ; lia].
    by apply list_elem_of_singleton.
Qed.

Lemma NoDup_rectangle (fl : Flow) : NoDup (rectangle fl).
Proof.
  unfold rectangle. apply NoDup_bind; [| |apply NoDup_seqZ].
  - intros x1 x2 [x y] _ _ H1 H2.
    apply list_elem_of_bind in H1 as (? & H1 & _).
    apply list_elem_of_bind in H2 as (? & H2 & _).
    apply list_elem_of_singleton in H1, H2. congruence.
  - intros x _. apply NoDup_bind; [| |apply NoDup_seqZ].
    + intros y1 y2 [x' y] _ _ H1 H2.
      apply list_elem_of_singleton in H1, H2. congruence.
    + intros y _. apply NoDup_singleton.
Qed.

Lemma List_filter_sublist {A : Type} (p : A → bool) (l : list A) :
  List.filter p l `sublist_of` l.
Proof.
  induction l as [|a l IH]; simpl; [constructor|].
  destruct (p a); by constructor.
Qed.

Lemma StronglySorted_sublist {A : Type} (R : relation A) (k l : list A) :
  k `sublist_of` l → StronglySorted R l → StronglySorted R k.
Proof.
  induction 1 as [|x k l Hsub IH|x k l Hsub IH]; intros Hs.
  - constructor.
  - apply StronglySorted_cons in Hs as [Hall Hs].
    apply StronglySorted_cons. split; [|by apply IH].
    apply Forall_forall. intros y Hy.
    apply (proj1 (Forall_forall _ _) Hall). by eapply elem_of_sublist.
  - apply StronglySorted_cons in Hs as [_ Hs]. by apply IH.
Qed.

Lemma StronglySorted_lookup {A : Type} (R : relation A) (l : list A) :
  StronglySorted R l →
  ∀ i j a b, (i < j)%nat → l !! i = Some a → l !! j = Some b → R a b.
Proof.
  induction 1 as [|x l' Hs IH Hall]; intros i j a b Hij Ha Hb; [done|].
  destruct j as [|j]; [lia|]. destruct i as [|i]; simpl in *.
  - injection Ha as <-. apply (proj1 (Forall_forall _ _) Hall).
    by eapply list_elem_of_lookup_2.
  - eapply (IH i j); [lia|done|done].
Qed.

(** A sort by descending key puts no element before one of larger key. *)
Lemma sort_descending_sorted {A : Type} (key : A → Q) (l : list A) :
  StronglySorted (λ a b, key b <= key a)%Q
    (std_sort (λ a b, Qltb (key b) (key a)) l).
Proof.
  assert (Hs : Sorted (λ a b, Qltb (key a) (key b) = false)
                 (std_sort (λ a b, Qltb (key b) (key a)) l)).
  { apply (std_sort_Sorted (λ a b, Qltb (key b) (key a))).
    intros a b. rewrite Qltb_lt, Qltb_ge. lra. }
  set (sorted := std_sort _ l) in *. clearbody sorted.
  apply Sorted_StronglySorted.
  - intros a b c Hab Hbc. lra.
  - induction Hs as [|a l' Hs IH Hhd]; constructor; [done|].
    destruct Hhd as [|b l2 Hab]; constructor. by apply Qltb_ge.
Qed.

(** The sort by potential puts no candidate before one of larger
    potential. *)
Lemma sort_by_potential_sorted (raw : list CandidateInfo) :
  StronglySorted (λ a b, potential b <= potential a)%Q
    (std_sort (λ a b, Qltb (potential b) (potential a)) raw).
Proof. apply (sort_descending_sorted potential). Qed.

Section Retained.

Variable log : Q → Q.

Lemma make_candidate_fields (G : Globals) (fl : Flow) (T W cx cy : Z)
    (c : CandidateInfo) :
  make_candidate log G fl T W cx cy = Some c →
  ux c = cx ∧ uy c = cy
  ∧ distance c = Z.abs (fl_x fl - cx) + Z.abs (fl_y fl - cy).
Proof.
  unfold make_candidate. cbv zeta. intros Hc. bind_inv Hc.
  by injection Hc as <-.
Qed.

Lemma raw_candidates_spec (G : Globals) (fl : Flow) (T W : Z)
    (raw : list CandidateInfo) :
  raw_candidates log G fl T W = Some raw →
  Forall (λ c, in_rectangle fl c ∧ admitted fl c = true
               ∧ make_candidate log G fl T W (ux c) (uy c) = Some c) raw
  ∧ NoDup (cell_of <$> raw).
Proof.
  unfold raw_candidates. intros Hraw. bind_inv Hraw. injection Hraw as <-.
  apply mapM_Some_1 in E. rename l into all.
  assert (Hall : Forall (λ c, in_rectangle fl c
                   ∧ make_candidate log G fl T W (ux c) (uy c) = Some c) all
                 ∧ cell_of <$> all = rectangle fl).
  { pose proof (λ cell, proj1 (elem_of_rectangle fl cell.1 cell.2)) as Hrect.
    revert E Hrect. generalize (rectangle fl) as rect. intros rect E.
    induction E as [|[cx cy] c rect' all' Hc _ IH]; intros Hrect;
      [by split|].
    simpl in Hc.
    destruct (make_candidate_fields _ _ _ _ _ _ _ Hc) as (Hx & Hy & _).
    destruct IH as [IH1 IH2].
    { intros cell Hcell. apply Hrect. by right. }
    split.
    - constructor; [|done]. split.
      + unfold in_rectangle. rewrite Hx, Hy.
        apply (Hrect (cx, cy)). by left.
      + by rewrite Hx, Hy.
    - rewrite fmap_cons, IH2. unfold cell_of at 1. by rewrite Hx, Hy. }
  destruct Hall as [Hall Hcells]. split.
  - apply Forall_forall. intros c Hc.
    apply list_elem_of_In, filter_In in Hc as [Hc Hadm].
    apply list_elem_of_In in Hc.
    destruct (proj1 (Forall_forall _ _) Hall c Hc) as [Hin Hmk].
    by split; [|split].
  - eapply sublist_NoDup; [|apply fmap_sublist, List_filter_sublist].
    rewrite Hcells. apply NoDup_rectangle.
Qed.

Lemma diversify_sublist (top_k : Z) (rest final : list CandidateInfo) :
  ∃ kept, diversify top_k rest final = final ++ kept
          ∧ kept `sublist_of` rest.
Proof.
  revert final. induction rest as [|c rest IH]; intros final; simpl.
  - exists []. by rewrite app_nil_r.
  - destruct (vsize final <? top_k).
    + destruct (too_close c final).
      * destruct (IH final) as (kept & -> & Hsub).
        exists kept. split; [done|]. by constructor.
      * destruct (IH (final ++ [c])) as (kept & -> & Hsub).
        exists (c :: kept). rewrite <- app_assoc. split; [done|].
        by constructor.
    + exists []. rewrite app_nil_r. split; [done|]. apply sublist_nil_l.
Qed.

Lemma select_candidates_sublist (fl : Flow) (raw final : list CandidateInfo) :
  select_candidates fl raw = Some final →
  ∃ first rest kept,
    std_sort (λ a b, Qltb (potential b) (potential a)) raw = first :: rest
    ∧ final = first :: kept ∧ kept `sublist_of` rest.
Proof.
  unfold select_candidates.
  destruct (std_sort _ raw) as [|first rest] eqn:Hsorted; [done|].
  simpl. intros [= <-].
  destruct (diversify_sublist (top_k_of fl (first :: rest)) rest [first])
    as (kept & -> & Hsub).
  by exists first, rest, kept.
Qed.

(** The candidate list that the generator stores for a flow. *)
Lemma build_smart_candidates_flow (G G' : Globals) (flows : list Flow)
    (T M N W : Z) (idx : nat) (fl : Flow) :
  build_smart_candidates log G flows T M N W = Some G' →
  flows !! idx = Some fl →
  ∃ raw final tslots,
    raw_candidates log G fl T W = Some raw ∧
    select_candidates fl raw = Some final ∧
    mapM (time_slots G fl T W) final = Some tslots ∧
    g_candidates G' !! idx = Some final ∧
    g_time_slots G' !! idx = Some tslots.
Proof.
  unfold build_smart_candidates. intros Hb Hfl. bind_inv Hb.
  injection Hb as <-. simpl. apply mapM_Some_1 in E.
  destruct (Forall2_lookup_l _ _ _ _ _ E Hfl) as ([final tslots] & Hp & Hfc).
  unfold flow_candidates in Hfc. repeat bind_inv Hfc.
  injection Hfc as <- <-.
  do 3 eexists. do 3 (split; [done|]).
  by rewrite !list_lookup_fmap, Hp.
Qed.

(** X8. Every candidate that the generator retains for a flow is the
    candidate computed for a cell of the flow's rectangle, its distance is
    the Manhattan distance from the flow's origin to that cell, and it
    passed the admission filter (its window capacity exceeds 5% of the
    demand, or its distance is at most 2); no cell is retained twice. *)
Theorem retained_candidates_admitted (G G' : Globals) (flows : list Flow)
    (T M N W : Z) (idx : nat) (fl : Flow) (final : list CandidateInfo) :
  build_smart_candidates log G flows T M N W = Some G' →
  flows !! idx = Some fl →
  g_candidates G' !! idx = Some final →
  Forall (λ c, in_rectangle fl c
               ∧ make_candidate log G fl T W (ux c) (uy c) = Some c
               ∧ distance c
                 = Z.abs (fl_x fl - ux c) + Z.abs (fl_y fl - uy c)
               ∧ ((fl_s fl * 0.05 < total_capacity c)%Q ∨ distance c ≤ 2))
         final
  ∧ NoDup (cell_of <$> final).
Proof.
  intros Hb Hfl Hfinal.
  destruct (build_smart_candidates_flow _ _ _ _ _ _ _ _ _ Hb Hfl)
    as (raw & final2 & tslots & Hraw & Hsel & _ & Hfinal2 & _).
  rewrite Hfinal in Hfinal2. injection Hfinal2 as <-.
  apply raw_candidates_spec in Hraw as [Hall Hnodup].
  apply select_candidates_sublist in Hsel
    as (first & rest & kept & Hsorted & -> & Hsub).
  assert (Hfs : (first :: kept) `sublist_of` (first :: rest))
    by (by constructor).
  rewrite <- Hsorted in Hfs. split.
  - apply Forall_forall. intros c Hc.
    assert (Hin : c ∈ raw).
    { rewrite <- (std_sort_Permutation
                    (λ a b, Qltb (potential b) (potential a)) raw).
      by eapply elem_of_sublist. }
    destruct (proj1 (Forall_forall _ _) Hall c Hin) as (Hrect & Hadm & Hmk).
    destruct (make_candidate_fields _ _ _ _ _ _ _ Hmk) as (_ & _ & Hdist).
    do 3 (split; [done|]). unfold admitted in Hadm.
    apply orb_true_iff in Hadm as [Hcap | Hd].
    + left. by apply Qltb_lt.
    + right. by apply Z.leb_le.
  - eapply sublist_NoDup; [|apply fmap_sublist; exact Hfs].
    by rewrite std_sort_Permutation.
Qed.

(** X9. The candidates that the generator retains for a flow are ranked:
    none has a larger potential than one that precedes it in the list,
    and the first has the largest potential of all the admitted
    candidates of the flow. *)
Theorem retained_candidates_ranked (G G' : Globals) (flows : list Flow)
    (T M N W : Z) (idx : nat) (fl : Flow) (final : list CandidateInfo) :
  build_smart_candidates log G flows T M N W = Some G' →
  flows !! idx = Some fl →
  g_candidates G' !! idx = Some final →
  (∀ i j a b, (i < j)%nat → final !! i = Some a → final !! j = Some b →
              (potential b <= potential a)%Q)
  ∧ ∃ raw best,
      raw_candidates log G fl T W = Some raw ∧ final !! 0%nat = Some best
      ∧ best ∈ raw ∧ ∀ r, r ∈ raw → (potential r <= potential best)%Q.
Proof.
  intros Hb Hfl Hfinal.
  destruct (build_smart_candidates_flow _ _ _ _ _ _ _ _ _ Hb Hfl)
    as (raw & final2 & tslots & Hraw & Hsel & _ & Hfinal2 & _).
  rewrite Hfinal in Hfinal2. injection Hfinal2 as <-.
  apply select_candidates_sublist in Hsel
    as (first & rest & kept & Hsorted & -> & Hsub).
  pose proof (sort_by_potential_sorted raw) as Hss. rewrite Hsorted in Hss.
  split.
  - apply StronglySorted_lookup.
    eapply StronglySorted_sublist; [|exact Hss]. by constructor.
  - exists raw, first. split; [done|]. split; [done|].
    assert (Hperm := std_sort_Permutation
                       (λ a b, Qltb (potential b) (potential a)) raw).
    rewrite Hsorted in Hperm. split.
    + rewrite <- Hperm. by left.
    + intros r Hr. rewrite <- Hperm in Hr.
      apply StronglySorted_cons in Hss as [Hall _].
      apply elem_of_cons in Hr as [-> | Hr]; [lra|].
      by apply (proj1 (Forall_forall _ _) Hall).
Qed.

End Retained.

Lemma retained_candidates_admitted_witness :
  ∃ G' final,
    build_smart_candidates demo_log demo_tables [demo_flow] 10 2 2 60
    = Some G' ∧
    g_candidates G' !! 0%nat = Some final ∧
    Forall (in_rectangle demo_flow) final ∧ NoDup (cell_of <$> final).
Proof.
  destruct (build_smart_candidates demo_log demo_tables [demo_flow] 10 2 2 60)
    as [G'|] eqn:Hb; [|vm_compute in Hb; discriminate Hb].
  destruct (g_candidates G' !! 0%nat) as [final|] eqn:Hfinal.
  2:{ vm_compute in Hb. injection Hb as <-. discriminate Hfinal. }
  destruct (retained_candidates_admitted demo_log demo_tables G' [demo_flow]
              10 2 2 60 0%nat demo_flow final Hb eq_refl Hfinal)
    as [Hall Hnodup].
  exists G', final. split; [done|]. split; [done|]. split; [|done].
  eapply Forall_impl; [exact Hall|]. by intros c [? _].
Defined.

Lemma retained_candidates_ranked_witness :
  ∃ G' final best,
    build_smart_candidates demo_log demo_tables [demo_flow] 10 2 2 60
    = Some G' ∧
    g_candidates G' !! 0%nat = Some final ∧ final !! 0%nat = Some best.
Proof.
  destruct (build_smart_candidates demo_log demo_tables [demo_flow] 10 2 2 60)
    as [G'|] eqn:Hb; [|vm_compute in Hb; discriminate Hb].
  destruct (g_candidates G' !! 0%nat) as [final|] eqn:Hfinal.
  2:{ vm_compute in Hb. injection Hb as <-. discriminate Hfinal. }
  destruct (retained_candidates_ranked demo_log demo_tables G' [demo_flow]
              10 2 2 60 0%nat demo_flow final Hb eq_refl Hfinal)
    as [_ (raw & best & _ & Hbest & _)].
  exists G', final, best.
  split; [reflexivity|]. split; [exact Hfinal|exact Hbest].
Defined.

(** ** The time slots *)

(** The loop that collects the slots appends, for the times of the window
    in order, one slot for each time at which the field is above 1e-9. *)
Lemma slot_loop_spec (G : Globals) (fl : Flow) (T W : Z)
    (cand : CandidateInfo) (times : list Z) :
  Forall (λ t, fl_tf fl ≤ t < Z.min T (fl_tf fl + W)) times →
  ∀ acc out,
    foldlM (slot_step G fl cand) acc times = Some out →
    ∃ new, out = acc ++ new ∧
      Forall (slot_ok G fl T W cand) new ∧
      (slot_t <$> new) `sublist_of` times ∧
      ∀ t bw, t ∈ times →
        pre_bw (g_pre_bw G) t (ux cand) (uy cand) = Some bw →
        (eps < bw)%Q → t ∈ slot_t <$> new.
Proof.
  induction 1 as [|t times Ht _ IH]; intros acc out; simpl.
  - intros [= <-]. exists []. rewrite app_nil_r. split; [done|].
    split; [constructor|]. split; [constructor|].
    intros t bw Hin. by apply elem_of_nil in Hin.
  - intros Hf. bind_inv Hf. unfold slot_step in E. bind_inv E.
    destruct (Qltb eps _) eqn:Hpos.
    + cbv zeta in E. repeat bind_inv E. injection E as <-.
      destruct (IH _ _ Hf) as (new & -> & Hok & Hsub & Hall).
      eexists (_ :: new). rewrite <- app_assoc. split; [reflexivity|].
      apply Qltb_lt in Hpos. split; [|split].
      * constructor; [|done]. unfold slot_ok. simpl.
        do 4 (split; [done|]). by eexists.
      * rewrite fmap_cons. simpl. by constructor.
      * intros t' bw Hin Hbw Hlt. rewrite fmap_cons. simpl.
        apply elem_of_cons in Hin as [-> | Hin]; [by left|].
        right. by eapply Hall.
    + injection E as <-.
      destruct (IH _ _ Hf) as (new & -> & Hok & Hsub & Hall).
      exists new. split; [done|]. split; [done|].
      split; [by constructor|].
      intros t' bw Hin Hbw Hlt.
      apply elem_of_cons in Hin as [-> | Hin]; [|by eapply Hall].
      apply Qltb_ge in Hpos.
      match goal with H : pre_bw _ t _ _ = Some _ |- _ =>
        rewrite H in Hbw; injection Hbw as <- end. lra.
Qed.

Lemma window_times (fl : Flow) (T W : Z) :
  Forall (λ t, fl_tf fl ≤ t < Z.min T (fl_tf fl + W)) (window fl T W)
  ∧ NoDup (window fl T W).
Proof.
  unfold window. split; [|apply NoDup_seqZ].
  apply Forall_forall. intros t Ht. apply elem_of_seqZ in Ht. lia.
Qed.



(** ** Metrics of a candidate against its slots *)






(** ** A flow without an admitted candidate *)

Lemma mapM_None_elem {A B : Type} (f : A → option B) (l : list A) (a : A) :
  a ∈ l → f a = None → mapM f l = None.
Proof.
  intros Hin Hf. destruct (mapM f l) as [k|] eqn:Hm; [|done].
  apply mapM_Some_1 in Hm.
  apply list_elem_of_lookup in Hin as [i Hi].
  destruct (Forall2_lookup_l _ _ _ _ _ Hm Hi) as (b & _ & Hb).
  congruence.
Qed.

(** X12. When no cell of the rectangle of some flow gives a candidate that
    passes the admission test (in particular when the rectangle is empty),
    the generator reads [raw_candidates[0]] of an empty vector: it faults
    and builds no tables. *)
Theorem no_admitted_candidate_faults (log : Q → Q) (G : Globals)
    (flows : list Flow) (T M N W : Z) (fl : Flow) :
  fl ∈ flows →
  (∀ c, in_rectangle fl c →
        make_candidate log G fl T W (ux c) (uy c) = Some c →
        admitted fl c = false) →
  build_smart_candidates log G flows T M N W = None.
Proof.
  intros Hin Hnone. unfold build_smart_candidates.
  rewrite (mapM_None_elem _ _ fl Hin); [done|].
  unfold flow_candidates.
  destruct (raw_candidates log G fl T W) as [raw|] eqn:Hraw; [|done].
  cbn [mbind option_bind].
  destruct (raw_candidates_spec log G fl T W raw Hraw) as [Hall _].
  destruct raw as [|c raw]; [done|].
  apply Forall_cons in Hall as [(Hrect & Hadm & Hmk) _].
  rewrite (Hnone c Hrect Hmk) in Hadm. discriminate Hadm.
Qed.

Lemma no_admitted_candidate_faults_witness :
  mkFlow 1 0 0 0 15 1 0 0 1 ∈ [demo_flow; mkFlow 1 0 0 0 15 1 0 0 1] ∧
  build_smart_candidates demo_log demo_tables
    [demo_flow; mkFlow 1 0 0 0 15 1 0 0 1] 10 2 2 60 = None.
Proof.
  assert (Hin : mkFlow 1 0 0 0 15 1 0 0 1
                ∈ [demo_flow; mkFlow 1 0 0 0 15 1 0 0 1]).
  { apply elem_of_cons. right. apply elem_of_cons. by left. }
  split; [exact Hin|].
  apply (no_admitted_candidate_faults demo_log demo_tables _ 10 2 2 60 _ Hin).
  intros c [Hx _]. simpl in Hx. lia.
Defined.

(** ** The search runs to its end *)

Lemma find_problematic_total (flows : list Flow)
    (schedules : list (list ScheduleItem)) :
  length schedules = length flows →
  ∃ p, find_problematic flows schedules = Some p
       ∧ Forall (λ i, (i < length flows)%nat) p.
Proof.
  intros Hlen. unfold find_problematic.
  assert (Hloop : ∀ l acc,
    Forall (λ i, (i < length flows)%nat) l →
    Forall (λ i, (i < length flows)%nat) acc →
    ∃ p, foldlM (λ acc i,
                   fl ← flows !! i;
                   sched ← schedules !! i;
                   if Qltb (delivered sched) (fl_s fl * 0.8)%Q
                   then Some (acc ++ [i]) else Some acc) acc l = Some p
         ∧ Forall (λ i, (i < length flows)%nat) p).
  { induction l as [|i l IH]; intros acc Hl Hacc; cbn [foldlM].
    - by exists acc.
    - apply Forall_cons in Hl as [Hi Hl].
      destruct (lookup_lt_is_Some_2 flows i Hi) as [fl ->].
      destruct (lookup_lt_is_Some_2 schedules i ltac:(lia)) as [sched ->].
      cbn [mbind option_bind]. destruct (Qltb _ _);
        cbn [mbind option_bind]; apply IH; try done.
      apply Forall_app. split; [done|]. by constructor. }
  apply Hloop; [|constructor].
  apply Forall_forall. intros i Hi. apply elem_of_seq in Hi. lia.
Qed.

Lemma reassign_total (G : Globals) (idx : nat) (sol : list Z)
    (rng : mt19937) (cands : list CandidateInfo) :
  g_candidates G !! idx = Some cands →
  (idx < length sol)%nat → Forall (λ c, 0 ≤ c) sol →
  ∃ sol' rng', reassign G idx sol rng = Some (sol', rng')
               ∧ length sol' = length sol ∧ Forall (λ c, 0 ≤ c) sol'.
Proof.
  intros Hc Hidx Hpos. unfold reassign. rewrite Hc.
  cbn [mbind option_bind]. cbv zeta.
  destruct (1 <? vsize cands) eqn:Hn.
  - destruct (mt_next rng) as [r rng'] eqn:Hr. unfold vset.
    rewrite bool_decide_true by lia. cbn [mbind option_bind].
    eexists _, _. split; [reflexivity|].
    split; [by rewrite length_insert|].
    apply Forall_insert; [done|]. apply Z.ltb_lt in Hn.
    apply Z.mod_pos_bound. lia.
  - by eexists _, _.
Qed.

Lemma tables_ready_candidates (G : Globals) (flows : list Flow) (T M N : Z)
    (sol : list Z) (idx : nat) :
  tables_ready G flows T M N → solution_ok flows sol →
  (idx < length flows)%nat → is_Some (g_candidates G !! idx).
Proof.
  intros Hready Hsol Hidx.
  destruct (lookup_lt_is_Some_2 flows idx Hidx) as [fl Hfl].
  destruct (ready_flows _ _ _ _ _ _ (Hready sol Hsol) idx fl Hfl)
    as (c & cands & tslots & _ & _ & Hc & _).
  by eexists.
Qed.

Lemma mutate_random_total (G : Globals) (flows : list Flow) :
  flows ≠ [] →
  (∀ idx, (idx < length flows)%nat → is_Some (g_candidates G !! idx)) →
  ∀ n sol rng, solution_ok flows sol →
    ∃ sol' rng',
      mutate_random G (vsize flows) n sol rng = Some (sol', rng')
      ∧ solution_ok flows sol'.
Proof.
  intros Hne Hcands.
  assert (Hpos : 0 < vsize flows).
  { destruct flows; [done|]. unfold vsize. simpl. lia. }
  induction n as [|n IH]; intros sol rng [Hlen Hsol]; cbn [mutate_random].
  - by eexists _, _.
  - destruct (mt_next rng) as [r rng1].
    destruct (vsize flows =? 0) eqn:H0; [apply Z.eqb_eq in H0; lia|].
    cbv zeta.
    assert (Hidx : (Z.to_nat (Z.of_N r mod vsize flows) < length flows)%nat).
    { pose proof (Z.mod_pos_bound (Z.of_N r) (vsize flows) Hpos) as Hb.
      unfold vsize in *. lia. }
    destruct (Hcands _ Hidx) as [cands Hc].
    destruct (reassign_total G _ sol rng1 cands Hc ltac:(lia) Hsol)
      as (sol1 & rng2 & -> & Hlen1 & Hpos1).
    cbn [mbind option_bind]. apply IH. split; [congruence|done].
Qed.

Lemma mutate_total (G : Globals) (flows : list Flow) (T M N : Z)
    (problematic : list nat) (sol : list Z) (rng : mt19937) :
  flows ≠ [] → tables_ready G flows T M N → solution_ok flows sol →
  Forall (λ i, (i < length flows)%nat) problematic →
  ∃ sol' rng',
    mutate G (vsize flows) problematic sol rng = Some (sol', rng')
    ∧ solution_ok flows sol'.
Proof.
  intros Hne Hready Hsol Hprob.
  pose proof (λ idx, tables_ready_candidates G flows T M N sol idx
                       Hready Hsol) as Hcands.
  unfold mutate. destruct problematic as [|p ps].
  - destruct (mt_next rng) as [r rng2]. by apply mutate_random_total.
  - destruct (mt_next rng) as [r rng1]. destruct (r mod 10 <? 7)%N.
    + unfold mutate_problematic. destruct (mt_next rng1) as [r2 rng2].
      assert (Hk : (N.to_nat (r2 mod N.of_nat (length (p :: ps)))
                    < length (p :: ps))%nat).
      { pose proof (N.mod_lt r2 (N.of_nat (length (p :: ps)))) as Hb.
        simpl length in *. lia. }
      destruct (lookup_lt_is_Some_2 _ _ Hk) as [idx Hidx]. rewrite Hidx.
      cbn [mbind option_bind].
      assert (Hlt : (idx < length flows)%nat).
      { eapply (proj1 (Forall_forall _ _) Hprob).
        by eapply list_elem_of_lookup_2. }
      destruct (Hcands idx Hlt) as [cands Hc]. destruct Hsol as [Hlen Hpos].
      destruct (reassign_total G idx sol rng2 cands Hc ltac:(lia) Hpos)
        as (sol1 & rng3 & -> & Hlen1 & Hpos1).
      cbn [mbind option_bind]. eexists _, _. split; [reflexivity|].
      split; [congruence|done].
    + destruct (mt_next rng1) as [r2 rng2]. by apply mutate_random_total.
Qed.

Lemma ls_iteration_total (G : Globals) (flows : list Flow) (T M N : Z)
    (st : LSState) :
  flows ≠ [] → tables_ready G flows T M N → ls_state_ok flows st →
  ∃ st', ls_iteration G flows st = Some st' ∧ ls_state_ok flows st'.
Proof.
  intros Hne Hready (Hsol & Hbest & Hprob). unfold ls_iteration.
  destruct (mutate_total G flows T M N (ls_problematic st) (ls_solution st)
              (ls_rng st) Hne Hready Hsol Hprob)
    as (sol' & rng' & -> & Hsol').
  cbn [mbind option_bind].
  destruct (greedy_allocate_total G flows sol' T M N (Hready sol' Hsol'))
    as (schedules & score & -> & Hlen & _).
  cbn [mbind option_bind].
  destruct (Qltb _ _).
  - destruct (find_problematic_total flows schedules Hlen) as (p & -> & Hp).
    cbn [mbind option_bind]. eexists. split; [reflexivity|].
    split; [exact Hsol'|]. split; [exact Hsol'|exact Hp].
  - eexists. split; [reflexivity|].
    split; [exact Hsol|]. split; [exact Hbest|exact Hprob].
Qed.

Lemma ls_loop_total (G : Globals) (flows : list Flow) (T M N : Z) :
  flows ≠ [] → tables_ready G flows T M N →
  ∀ n st, ls_state_ok flows st →
    ∃ trace, ls_loop G flows n st = Some trace
             ∧ Forall (ls_state_ok flows) trace.
Proof.
  intros Hne Hready. induction n as [|n IH]; intros st Hst; simpl.
  - by exists [].
  - destruct (ls_iteration_total G flows T M N st Hne Hready Hst)
      as (st' & -> & Hst').
    cbn [mbind option_bind]. destruct (20 <? ls_no_improve st').
    + eexists. split; [reflexivity|].
      constructor; [exact Hst'|constructor].
    + destruct (IH st' Hst') as (trace & -> & Htrace).
      cbn [mbind option_bind]. eexists. split; [reflexivity|].
      by constructor.
Qed.

Lemma local_search_total (G : Globals) (flows : list Flow) (T M N : Z)
    (solution : list Z) (current_score : Q) (max_iterations : Z) :
  flows ≠ [] → tables_ready G flows T M N → solution_ok flows solution →
  ∃ best best_score,
    local_search G flows solution current_score max_iterations
    = Some (best, best_score)
    ∧ solution_ok flows best.
Proof.
  intros Hne Hready Hsol. unfold local_search.
  destruct (greedy_allocate_total G flows solution T M N
              (Hready solution Hsol))
    as (schedules & score & -> & Hlen & _).
  cbn [mbind option_bind].
  destruct (find_problematic_total flows schedules Hlen) as (p & -> & Hp).
  cbn [mbind option_bind]. cbv zeta.
  assert (Hst0 : ls_state_ok flows (ls_init solution current_score p)).
  { split; [exact Hsol|]. split; [exact Hsol|exact Hp]. }
  destruct (ls_loop_total G flows T M N Hne Hready
              (Z.to_nat max_iterations) _ Hst0) as (trace & -> & Htrace).
  cbn [mbind option_bind]. eexists _, _. split; [reflexivity|].
  destruct (last_default_or_elem trace (ls_init solution current_score p))
    as [[_ ->] | Hin]; [by destruct Hst0 as (_ & ? & _)|].
  by destruct (proj1 (Forall_forall _ _) Htrace _ Hin) as (_ & ? & _).
Qed.

(** ** The search on the tables of the preprocessing *)

(** The tables that the preprocessing builds serve the decoder for every
    solution that holds one index per flow, none negative. *)
Lemma preprocessing_tables_ready (log : Q → Q) (M N T W : Z)
    (uav_b : list (list Q)) (uav_phi : list (list Z))
    (dist delay : list Q) (flows : list Flow) (G' : Globals)
    (g : list (list (list Q))) :
  build_bandwidth_matrix M N T uav_b uav_phi = Some g →
  0 < T → 0 < M → T * M * N < 2 ^ 31 →
  dist ≠ [] → delay ≠ [] →
  build_smart_candidates log (mkGlobals g dist delay [] []) flows T M N W
  = Some G' →
  tables_ready G' flows T M N.
Proof.
  intros Hg HT HM Hfit Hdist Hdelay Hb sol [Hlen Hpos].
  eapply (build_smart_candidates_ready log); [exact Hb|..|done|done];
    simpl; try done.
  by eapply build_bandwidth_matrix_shape.
Qed.

Lemma demo_field_built :
  build_bandwidth_matrix 2 2 10 demo_uav_b demo_uav_phi = Some demo_field.
Proof.
  unfold demo_field.
  destruct (build_bandwidth_matrix 2 2 10 demo_uav_b demo_uav_phi) eqn:Hg;
    [reflexivity|vm_compute in Hg; discriminate Hg].
Qed.

Lemma demo_G_built :
  build_smart_candidates demo_log demo_tables [demo_flow] 10 2 2 60
  = Some demo_G.
Proof.
  unfold demo_G.
  destruct (build_smart_candidates demo_log demo_tables [demo_flow]
              10 2 2 60) eqn:Hb;
    [reflexivity|vm_compute in Hb; discriminate Hb].
Qed.

Lemma demo_tables_ready : tables_ready demo_G [demo_flow] 10 2 2.
Proof.
  apply (preprocessing_tables_ready demo_log 2 2 10 60 demo_uav_b
           demo_uav_phi demo_distance demo_delay [demo_flow] demo_G
           demo_field demo_field_built);
    [lia|lia|lia|discriminate|discriminate|exact demo_G_built].
Qed.

(** X13. On tables that serve the decoder, with at least one flow, the
    search started from a solution and its decoded score runs to its end
    without a fault; it returns a solution of one index per flow, none
    negative, together with the score that the decoder gives this very
    solution, and that score is not below the one it started from. *)
Theorem local_search_returns_decoded_best (G : Globals) (flows : list Flow)
    (T M N : Z) (solution : list Z) (schedules : list (list ScheduleItem))
    (current_score : Q) (max_iterations : Z) :
  flows ≠ [] → tables_ready G flows T M N → solution_ok flows solution →
  greedy_allocate G flows solution = Some (schedules, current_score) →
  ∃ best best_score best_schedules,
    local_search G flows solution current_score max_iterations
    = Some (best, best_score) ∧
    solution_ok flows best ∧
    greedy_allocate G flows best = Some (best_schedules, best_score) ∧
    (current_score <= best_score)%Q.
Proof.
  intros Hne Hready Hsol Hg.
  destruct (local_search_total G flows T M N solution current_score
              max_iterations Hne Hready Hsol) as (best & bs & Hls & Hok).
  destruct (local_search_decoded _ _ _ _ _ _ _ _ Hg Hls) as [sch Hdec].
  exists best, bs, sch. split; [exact Hls|]. split; [exact Hok|].
  split; [exact Hdec|]. exact (local_search_improves _ _ _ _ _ _ _ Hls).
Qed.

Lemma local_search_returns_decoded_best_witness :
  ∃ schedules score best best_score,
    greedy_allocate demo_G [demo_flow] [0] = Some (schedules, score) ∧
    local_search demo_G [demo_flow] [0] score 3 = Some (best, best_score) ∧
    (score <= best_score)%Q.
Proof.
  destruct (greedy_allocate demo_G [demo_flow] [0])
    as [[schedules score]|] eqn:Hg; [|vm_compute in Hg; discriminate Hg].
  destruct (local_search_returns_decoded_best demo_G [demo_flow] 10 2 2 [0]
              schedules score 3)
    as (best & best_score & _ & Hls & _ & _ & Hle).
  - discriminate.
  - exact demo_tables_ready.
  - split; [reflexivity|]. repeat constructor. lia.
  - exact Hg.
  - exists schedules, score, best, best_score.
    split; [reflexivity|]. split; [exact Hls|exact Hle].
Defined.

(** ** The search without a flow *)

Lemma ls_iteration_no_flow (G : Globals) (st : LSState) :
  ls_problematic st = [] → ls_iteration G [] st = None.
Proof.
  intros Hp. unfold ls_iteration, mutate. rewrite Hp.
  destruct (mt_next (ls_rng st)) as [r rng2].
  destruct (N.to_nat (r mod 2 + 1)) as [|k] eqn:Hk.
  { rewrite N2Nat.inj_add, Nat.add_comm in Hk. discriminate Hk. }
  cbn [mutate_random]. destruct (mt_next rng2) as [r2 rng3]. reflexivity.
Qed.

(** X15. With no flow the search cannot run an iteration: nothing is
    problematic, so the iteration explores at random and takes
    [rng() % FN] with [FN = 0], a division by zero.  [solve] asks for 150
    iterations, so on an empty list of flows it never reaches its
    output. *)
Theorem search_without_flows_faults :
  (∀ G solution current_score max_iterations,
     0 < max_iterations →
     local_search G [] solution current_score max_iterations = None) ∧
  (∀ log dist delay M N FN T uav_b uav_phi,
     solve log dist delay M N FN T uav_b uav_phi [] = None).
Proof.
  assert (Hls : ∀ G solution current_score max_iterations,
            0 < max_iterations →
            local_search G [] solution current_score max_iterations = None).
  { intros G solution current_score max_iterations Hit.
    unfold local_search.
    destruct (greedy_allocate G [] solution) as [[schedules sc]|]; [|done].
    cbn [mbind option_bind find_problematic length seq foldlM]. cbv zeta.
    destruct (Z.to_nat max_iterations) as [|n] eqn:Hn; [lia|].
    cbn [ls_loop]. by rewrite ls_iteration_no_flow. }
  split; [exact Hls|].
  intros log dist delay M N FN T uav_b uav_phi. unfold solve.
  destruct (build_bandwidth_matrix M N T uav_b uav_phi) as [bw|]; [|done].
  cbn [mbind option_bind].
  destruct (build_smart_candidates _ _ _ _ _ _ _) as [G|]; [|done].
  cbn [mbind option_bind]. cbv zeta.
  destruct (greedy_allocate G [] _) as [[schedules sc]|]; [|done].
  cbn [mbind option_bind]. rewrite Hls by lia. reflexivity.
Qed.

(** ** The mutation *)

Lemma reassign_mutated (G : Globals) (idx : nat) (sol sol' : list Z)
    (rng rng' : mt19937) :
  reassign G idx sol rng = Some (sol', rng') →
  mutated_at G [idx] sol sol'.
Proof.
  intros Hr. apply reassign_spec in Hr
    as (Hlen & Hother & cands & Hc & Hmany & Hfew).
  split; [exact Hlen|]. intros k.
  destruct (decide (k = idx)) as [-> | Hne]; [|left; by apply Hother].
  destruct (Z.lt_ge_cases 1 (vsize cands)) as [Hlt | Hge].
  - right. split; [by left|]. destruct (Hmany Hlt) as [Hv Hb].
    eexists cands, _. split; [exact Hc|]. split; [exact Hlt|].
    split; [exact Hv|exact Hb].
  - left. by rewrite (Hfew Hge).
Qed.

Lemma mutated_at_app (G : Globals) (l1 l2 : list nat)
    (sol sol1 sol2 : list Z) :
  mutated_at G l1 sol sol1 → mutated_at G l2 sol1 sol2 →
  mutated_at G (l1 ++ l2) sol sol2.
Proof.
  intros [Hlen1 H1] [Hlen2 H2]. split; [congruence|]. intros k.
  destruct (H2 k) as [Heq | (Hin & cands & v & Hc & Hn & Hv & Hb)].
  - rewrite Heq.
    destruct (H1 k) as [Heq1 | (Hin & cands & v & Hc & Hn & Hv & Hb)];
      [by left|].
    right. split; [apply elem_of_app; by left|]. by exists cands, v.
  - right. split; [apply elem_of_app; by right|]. by exists cands, v.
Qed.

Lemma mutate_random_mutated (G : Globals) (flows : list Flow) (n : nat) :
  ∀ sol rng sol' rng',
    mutate_random G (vsize flows) n sol rng = Some (sol', rng') →
    ∃ idxs, length idxs = n ∧ mutated_at G idxs sol sol'
            ∧ Forall (λ i, (i < length flows)%nat) idxs.
Proof.
  induction n as [|n IH]; intros sol rng sol' rng'; cbn [mutate_random].
  - intros [= <- <-]. exists []. split; [done|]. split; [|constructor].
    split; [done|]. intros k. by left.
  - destruct (mt_next rng) as [r rng1].
    destruct (vsize flows =? 0) eqn:H0; [done|]. apply Z.eqb_neq in H0.
    cbv zeta. intros Hm. bind_inv Hm.
    apply reassign_mutated in E.
    destruct (IH _ _ _ _ Hm) as (idxs & Hlen & Hmut & Hall).
    eexists (_ :: idxs). split; [simpl; by rewrite Hlen|].
    split; [exact (mutated_at_app G [_] idxs _ _ _ E Hmut)|].
    constructor; [|done].
    pose proof (Z.mod_pos_bound (Z.of_N r) (vsize flows)) as Hb.
    unfold vsize in *. lia.
Qed.

Lemma mutate_explore_mutated (G : Globals) (flows : list Flow)
    (sol sol' : list Z) (rng1 rng' : mt19937) :
  (let '(r, rng2) := mt_next rng1 in
   mutate_random G (vsize flows) (N.to_nat (r mod 2 + 1)) sol rng2)
  = Some (sol', rng') →
  ∃ idxs, (1 ≤ length idxs ≤ 2)%nat ∧ mutated_at G idxs sol sol' ∧
    Forall (λ i, (i < length flows)%nat) idxs.
Proof.
  destruct (mt_next rng1) as [r rng2]. intros Hr.
  apply mutate_random_mutated in Hr as (idxs & Hlen & Hmut & Hall).
  exists idxs. split; [|split; [done|done]].
  assert (Hr2 : (r mod 2 < 2)%N) by (by apply N.mod_lt).
  rewrite Hlen. clear -Hr2. revert Hr2.
  generalize (r mod 2)%N. intros q Hq. lia.
Qed.

Lemma mutate_focus_mutated (G : Globals) (problematic : list nat)
    (sol sol' : list Z) (rng1 rng' : mt19937) (idx : nat) :
  mutate_problematic G problematic sol rng1 = Some (idx, sol', rng') →
  idx ∈ problematic ∧ mutated_at G [idx] sol sol'.
Proof.
  unfold mutate_problematic. destruct (mt_next rng1) as [r2 rng3].
  intros Hm. bind_inv Hm.
  destruct (reassign G n sol rng3) as [[sol1 rng4]|] eqn:Hre; [|done].
  cbn [mbind option_bind] in Hm. injection Hm as <- <- <-.
  split; [by eapply list_elem_of_lookup_2|].
  by eapply reassign_mutated.
Qed.

(** X16. The mutation of one iteration changes the solution at no more
    than two flows and keeps its length.  Where it changes an entry, the
    flow has more than one candidate and the new entry is an index into
    its candidate list.  A flow that is changed is one of the problematic
    flows, or (in the random exploration) any flow. *)
Theorem mutation_changes_at_most_two (G : Globals) (flows : list Flow)
    (problematic : list nat) (sol sol' : list Z) (rng rng' : mt19937) :
  mutate G (vsize flows) problematic sol rng = Some (sol', rng') →
  ∃ idxs, (1 ≤ length idxs ≤ 2)%nat ∧ mutated_at G idxs sol sol' ∧
    Forall (λ i, i ∈ problematic ∨ (i < length flows)%nat) idxs.
Proof.
  assert (Hrandom : ∀ rng1,
    (let '(r, rng2) := mt_next rng1 in
     mutate_random G (vsize flows) (N.to_nat (r mod 2 + 1)) sol rng2)
    = Some (sol', rng') →
    ∃ idxs, (1 ≤ length idxs ≤ 2)%nat ∧ mutated_at G idxs sol sol' ∧
      Forall (λ i, i ∈ problematic ∨ (i < length flows)%nat) idxs).
  { intros rng1 Hr.
    apply mutate_explore_mutated in Hr as (idxs & Hlen & Hmut & Hall).
    exists idxs. split; [done|]. split; [done|].
    eapply Forall_impl; [exact Hall|]. intros i Hi. by right. }
  unfold mutate.
  destruct problematic as [|p ps]; [cbv beta iota; exact (Hrandom rng)|].
  destruct (mt_next rng) as [r rng1]. cbv beta iota.
  destruct (r mod 10 <? 7)%N; cbv beta iota; [|exact (Hrandom rng1)].
  intros Hm. bind_inv Hm. injection Hm as <- <-.
  apply mutate_focus_mutated in E as [Hin Hmut].
  exists [n]. split; [simpl; lia|]. split; [exact Hmut|].
  constructor; [by left|constructor].
Qed.

Lemma mutation_changes_at_most_two_witness :
  ∃ sol' rng' idxs,
    mutate demo_G (vsize [demo_flow]) [0%nat] [0] (mt_seed 42)
    = Some (sol', rng') ∧
    (1 ≤ length idxs ≤ 2)%nat ∧ mutated_at demo_G idxs [0] sol'.
Proof.
  destruct (mutate demo_G (vsize [demo_flow]) [0%nat] [0] (mt_seed 42))
    as [[sol' rng']|] eqn:Hm; [|vm_compute in Hm; discriminate Hm].
  destruct (mutation_changes_at_most_two demo_G [demo_flow] [0%nat] [0] sol'
              (mt_seed 42) rng' Hm) as (idxs & Hlen & Hmut & _).
  exists sol', rng', idxs. split; [reflexivity|]. split; [exact Hlen|].
  exact Hmut.
Defined.

(** ** The early exit *)

Lemma ls_iteration_no_improve (G : Globals) (flows : list Flow)
    (st st' : LSState) :
  ls_iteration G flows st = Some st' →
  ls_no_improve st' = 0 ∨ ls_no_improve st' = ls_no_improve st + 1.
Proof.
  intros Hit. apply ls_iteration_step in Hit
    as (new & rng' & scheds & score & _ & _ & [Hacc | Hrej]).
  - left. by destruct Hacc as (_ & _ & _ & _ & ?).
  - right. by destruct Hrej as (_ & _ & _ & _ & ?).
Qed.

(** X17. The loop of the search runs at most the number of iterations it
    is given, and it stops early exactly at the iteration that makes 21
    rejections in a row: started with a count of at most 20, the count
    never exceeds 21, it is at most 20 after every iteration but the last,
    and when fewer iterations were run than were given the count is 21
    after the last. *)
Theorem search_stops_after_21_rejections (G : Globals) (flows : list Flow)
    (n : nat) (st0 : LSState) (trace : list LSState) :
  ls_loop G flows n st0 = Some trace →
  0 ≤ ls_no_improve st0 ≤ 20 →
  (length trace ≤ n)%nat ∧
  Forall (λ st, 0 ≤ ls_no_improve st ≤ 21) trace ∧
  (∀ i st, trace !! i = Some st → (S i < length trace)%nat →
           ls_no_improve st ≤ 20) ∧
  ((length trace < n)%nat →
   ∃ st, last trace = Some st ∧ ls_no_improve st = 21).
Proof.
  revert st0 trace. induction n as [|n IH]; intros st0 trace; cbn [ls_loop].
  - intros [= <-] _. split; [done|]. split; [constructor|].
    split; [done|]. simpl. lia.
  - intros Hloop H0. bind_inv Hloop. rename l into st'.
    pose proof (ls_iteration_no_improve _ _ _ _ E) as Hcount.
    destruct (20 <? ls_no_improve st') eqn:Hstop.
    + injection Hloop as <-. apply Z.ltb_lt in Hstop.
      split; [simpl; lia|]. split; [constructor; [lia|constructor]|].
      split.
      * intros i st _ Hi. simpl in Hi. lia.
      * intros _. exists st'. split; [done|]. lia.
    + apply Z.ltb_ge in Hstop. bind_inv Hloop. injection Hloop as <-.
      rename l into rest.
      destruct (IH st' rest E0) as (Hlen & Hall & Hmid & Hlast); [lia|].
      split; [simpl; lia|]. split; [constructor; [lia|done]|]. split.
      * intros [|i] st Hst Hi; simpl in *.
        -- injection Hst as <-. lia.
        -- apply (Hmid i st Hst). lia.
      * intros Hshort. destruct Hlast as (st & Hst & H21);
          [simpl in Hshort; lia|].
        exists st. split; [|done]. rewrite last_cons. by rewrite Hst.
Qed.

Lemma search_stops_after_21_rejections_witness :
  ∃ trace,
    ls_loop demo_G_big [demo_flow_big] 3 (ls_init [0] 0 [0%nat])
    = Some trace ∧
    (length trace ≤ 3)%nat ∧
    Forall (λ st, 0 ≤ ls_no_improve st ≤ 21) trace.
Proof.
  destruct (ls_loop demo_G_big [demo_flow_big] 3 (ls_init [0] 0 [0%nat]))
    as [trace|] eqn:Hloop; [|vm_compute in Hloop; discriminate Hloop].
  destruct (search_stops_after_21_rejections _ _ _ _ _ Hloop)
    as (Hlen & Hall & _); [simpl; lia|].
  exists trace. split; [reflexivity|]. split; [exact Hlen|exact Hall].
Defined.

(** ** The period of the field *)

(** X18. The capacity field repeats every 10 steps from the time at which
    [phase + t] is not negative, as long as the [int] sum [phase + t + 10]
    stays below [2^31].  Where the [int] sum is negative the remainder of
    C++ is not positive, so the cell has no bandwidth at all. *)
Theorem capacity_field_periodic (M N T : Z) (uav_b : list (list Q))
    (uav_phi : list (list Z)) (g : list (list (list Q)))
    (t x y phi : Z) :
  build_bandwidth_matrix M N T uav_b uav_phi = Some g →
  0 ≤ t → t + 10 < T → 0 ≤ x < M → 0 ≤ y < N →
  vget2 uav_phi x y = Some phi →
  (0 ≤ phi + t → phi + t + 10 < 2 ^ 31 →
   pre_bw g (t + 10) x y = pre_bw g t x y) ∧
  (to_int (phi + t) < 0 → pre_bw g t x y = Some 0%Q).
Proof.
  intros Hg Ht HT Hx Hy Hphi.
  destruct (build_bandwidth_matrix_lookup _ _ _ _ _ _ t x y Hg)
    as [Ht0 _]; [lia|done|done|].
  destruct (build_bandwidth_matrix_lookup _ _ _ _ _ _ (t + 10) x y Hg)
    as [Ht10 _]; [lia|done|done|].
  rewrite Ht0, Ht10. unfold cell_bandwidth. rewrite Hphi.
  cbn [mbind option_bind]. cbv zeta. split.
  - intros Hpos Hfit. rewrite !to_int_small by lia.
    rewrite !Z.rem_mod_nonneg by lia.
    replace (phi + (t + 10)) with (phi + t + 1 * 10) by lia.
    by rewrite Z.mod_add by lia.
  - intros Hneg. pose proof (rem_10_nonpos _ Hneg) as Hrem.
    repeat case_match; try done; lia.
Qed.

Lemma capacity_field_periodic_witness :
  ∃ g,
    build_bandwidth_matrix 2 2 20 demo_uav_b demo_uav_phi = Some g ∧
    pre_bw g 13 0 0 = pre_bw g 3 0 0.
Proof.
  destruct (build_bandwidth_matrix 2 2 20 demo_uav_b demo_uav_phi)
    as [g|] eqn:Hg; [|vm_compute in Hg; discriminate Hg].
  exists g. split; [reflexivity|].
  destruct (capacity_field_periodic 2 2 20 demo_uav_b demo_uav_phi g
              3 0 0 3 Hg) as [Hper _];
    [lia|lia|lia|lia|reflexivity|].
  apply Hper; lia.
Defined.

(** ** The cells of a schedule *)

Lemma time_slots_NoDup (G : Globals) (fl : Flow) (T W : Z)
    (cand : CandidateInfo) (slots : list TimeSlotInfo) :
  time_slots G fl T W cand = Some slots → NoDup (slot_t <$> slots).
Proof.
  unfold time_slots. intros Hts. bind_inv Hts. injection Hts as <-.
  destruct (window_times fl T W) as [Hwin Hnodup].
  destruct (slot_loop_spec G fl T W cand _ Hwin _ _ E)
    as (new & -> & _ & Hsub & _).
  rewrite std_sort_Permutation. by eapply sublist_NoDup.
Qed.

(** The tables of one flow: no cell is retained twice, and no candidate
    has two slots at the same time. *)
Lemma retained_tables_distinct (log : Q → Q) (G G' : Globals)
    (flows : list Flow) (T M N W : Z) (idx : nat) (fl : Flow) :
  build_smart_candidates log G flows T M N W = Some G' →
  flows !! idx = Some fl →
  ∃ final tslots,
    g_candidates G' !! idx = Some final ∧
    g_time_slots G' !! idx = Some tslots ∧
    NoDup (cell_of <$> final) ∧
    Forall2 (λ _ slots, NoDup (slot_t <$> slots)) final tslots.
Proof.
  intros Hb Hfl.
  destruct (build_smart_candidates_flow log _ _ _ _ _ _ _ _ _ Hb Hfl)
    as (raw & final & tslots & Hraw & Hsel & Hmap & Hfinal & Hts).
  exists final, tslots. split; [exact Hfinal|]. split; [exact Hts|]. split.
  - apply raw_candidates_spec in Hraw as [_ Hnodup].
    apply select_candidates_sublist in Hsel
      as (first & rest & kept & Hsorted & -> & Hsub).
    assert (Hfs : (first :: kept) `sublist_of` (first :: rest))
      by (by constructor).
    rewrite <- Hsorted in Hfs.
    eapply sublist_NoDup; [|apply fmap_sublist; exact Hfs].
    by rewrite std_sort_Permutation.
  - apply mapM_Some_1 in Hmap. eapply Forall2_impl; [exact Hmap|].
    intros cand slots. apply time_slots_NoDup.
Qed.

Lemma drawn_keys (cand : CandidateInfo) (slots : list TimeSlotInfo)
    (bound : Q) (items : list ScheduleItem) :
  drawn_from cand slots bound items →
  NoDup (slot_t <$> slots) →
  NoDup (item_key <$> items) ∧
  ∀ k, k ∈ item_key <$> items → (k.1.2, k.2) = cell_of cand.
Proof.
  intros [Hall Hsub] Hnodup. split.
  - apply (NoDup_fmap_1 (λ k : Z * Z * Z, k.1.1)).
    rewrite <- list_fmap_compose.
    eapply sublist_NoDup; [exact Hnodup|exact Hsub].
  - intros k Hk. apply list_elem_of_fmap in Hk as (item & -> & Hin).
    destruct (proj1 (Forall_forall _ _) Hall item Hin) as (Hx & Hy & _).
    unfold item_key, cell_of. simpl. by rewrite Hx, Hy.
Qed.

Lemma fallback_index_other (cands : list CandidateInfo) (k : Z) :
  1 < vsize cands → 0 ≤ k < vsize cands →
  0 ≤ fallback_index cands k < vsize cands ∧ fallback_index cands k ≠ k.
Proof.
  unfold fallback_index. intros Hn Hk.
  pose proof (Z.mod_pos_bound (k + 1) (vsize cands) ltac:(lia)) as Hb.
  split; [exact Hb|].
  destruct (Z.eq_dec (k + 1) (vsize cands)) as [Heq | Hne].
  - rewrite Heq, Z.mod_same by lia. lia.
  - rewrite Z.mod_small by lia. lia.
Qed.

(** X19. On the tables that the generator builds, the decoder never gives
    a flow two items at the same time and cell: the two candidates it
    draws from are at different cells, and a candidate has one slot per
    time.  So the output, which adds up the items of a schedule that share
    [(t, x, y)], has nothing to add up. *)
Theorem schedule_cells_distinct (log : Q → Q) (G0 G : Globals)
    (flows : list Flow) (T M N W : Z) (sol : list Z)
    (schedules : list (list ScheduleItem)) (score : Q)
    (idx : nat) (fl : Flow) (sched : list ScheduleItem) :
  build_smart_candidates log G0 flows T M N W = Some G →
  greedy_allocate G flows sol = Some (schedules, score) →
  flows !! idx = Some fl → schedules !! idx = Some sched →
  NoDup (item_key <$> sched).
Proof.
  intros Hb Hg Hfl Hsched.
  destruct (retained_tables_distinct log _ _ _ _ _ _ _ _ _ Hb Hfl)
    as (final & tslots0 & Hfinal & Hts0 & Hcells & Hslots).
  destruct (greedy_allocate_flow _ _ _ _ _ _ _ _ Hg Hfl Hsched)
    as (T1 & M1 & N1 & rem & rem' & _ & Halloc).
  apply allocate_flow_inv in Halloc
    as (c & cands & tslots & cand & slots & rem1 & need1 & items1
        & Hc & Hcands & Hts & Hcand & Hsl & Hpass1 & Hrest).
  rewrite Hfinal in Hcands. injection Hcands as <-.
  rewrite Hts0 in Hts. injection Hts as <-.
  assert (Hslot_nodup : ∀ k cd sl,
            vget final k = Some cd → vget tslots0 k = Some sl →
            NoDup (slot_t <$> sl)).
  { intros k cd sl Hcd Hsl0. apply vget_Some in Hcd as [_ Hcd].
    apply vget_Some in Hsl0 as [_ Hsl0].
    exact (Forall2_lookup_lr _ _ _ _ _ _ Hslots Hcd Hsl0). }
  pose proof (consume_drawn _ _ _ _ _ _ _ _ _ Hpass1) as Hd1.
  destruct (drawn_keys _ _ _ _ Hd1 (Hslot_nodup _ _ _ Hcand Hsl))
    as [Hn1 Hk1].
  destruct Hrest as [(_ & _ & ->) | (_ & Hmany & cand2 & slots2 & need2
                                     & items2 & Hcand2 & Hsl2 & Hpass2 & ->)];
    [exact Hn1|].
  pose proof (consume_drawn _ _ _ _ _ _ _ _ _ Hpass2) as Hd2.
  destruct (drawn_keys _ _ _ _ Hd2 (Hslot_nodup _ _ _ Hcand2 Hsl2))
    as [Hn2 Hk2].
  rewrite fmap_app. apply NoDup_app. split; [exact Hn1|].
  split; [|exact Hn2].
  intros k Hin1 Hin2. apply Hk1 in Hin1. apply Hk2 in Hin2.
  pose proof (vget_lt _ _ _ Hcand) as Hrange.
  destruct (fallback_index_other final _ Hmany Hrange) as [_ Hne].
  apply vget_Some in Hcand as [? Hcand].
  apply vget_Some in Hcand2 as [? Hcand2].
  apply Hne. apply Z2Nat.inj; [done|done|]. symmetry.
  eapply (NoDup_lookup _ _ _ _ Hcells);
    rewrite list_lookup_fmap; [rewrite Hcand|rewrite Hcand2]; simpl;
    f_equal; congruence.
Qed.

Lemma schedule_cells_distinct_witness :
  ∃ schedules score sched,
    greedy_allocate demo_G [demo_flow] [0] = Some (schedules, score) ∧
    schedules !! 0%nat = Some sched ∧
    NoDup (item_key <$> sched).
Proof.
  destruct (greedy_allocate demo_G [demo_flow] [0])
    as [[schedules score]|] eqn:Hg; [|vm_compute in Hg; discriminate Hg].
  destruct (schedules !! 0%nat) as [sched|] eqn:Hsched.
  2:{ vm_compute in Hg. injection Hg as <- _. discriminate Hsched. }
  exists schedules, score, sched.
  split; [reflexivity|]. split; [exact Hsched|].
  exact (schedule_cells_distinct demo_log demo_tables demo_G [demo_flow]
           10 2 2 60 [0] schedules score 0%nat demo_flow sched
           demo_G_built Hg eq_refl Hsched).
Defined.

(** ** The output *)

Lemma key_lt_spec (a b : Z * Z * Z) :
  key_lt a b = true ↔
  a.1.1 < b.1.1 ∨
  (a.1.1 = b.1.1 ∧ (a.1.2 < b.1.2 ∨ (a.1.2 = b.1.2 ∧ a.2 < b.2))).
Proof.
  unfold key_lt.
  rewrite !orb_true_iff, !andb_true_iff, !orb_true_iff, !andb_true_iff,
    !Z.ltb_lt, !Z.eqb_eq. tauto.
Qed.

Lemma key_lt_false (a b : Z * Z * Z) :
  key_lt a b = false ↔
  ¬ (a.1.1 < b.1.1 ∨
     (a.1.1 = b.1.1 ∧ (a.1.2 < b.1.2 ∨ (a.1.2 = b.1.2 ∧ a.2 < b.2)))).
Proof. rewrite <- key_lt_spec. by destruct (key_lt a b). Qed.

Lemma key_lt_irrefl (a : Z * Z * Z) : key_lt a a = false.
Proof. apply key_lt_false. lia. Qed.

Lemma key_lt_trans (a b c : Z * Z * Z) :
  key_lt a b = true → key_lt b c = true → key_lt a c = true.
Proof. rewrite !key_lt_spec. lia. Qed.

Lemma key_lt_total (a b : Z * Z * Z) :
  key_lt a b = false → key_lt b a = false → a = b.
Proof.
  rewrite !key_lt_false. destruct a as [[t1 x1] y1], b as [[t2 x2] y2].
  simpl. intros H1 H2. repeat f_equal; lia.
Qed.

Lemma key_le_trans (a b c : Z * Z * Z) :
  key_lt b a = false → key_lt c b = false → key_lt c a = false.
Proof. rewrite !key_lt_false. lia. Qed.

Lemma at_cell_key (k : Z * Z * Z) (item : ScheduleItem) :
  at_cell k.1.1 k.1.2 k.2 item = bool_decide (item_key item = k).
Proof.
  unfold at_cell, item_key. destruct k as [[t x] y]. simpl.
  case_bool_decide as Hk.
  - injection Hk as -> -> ->. by rewrite !Z.eqb_refl.
  - destruct (Z.eqb_spec (it_t item) t), (Z.eqb_spec (it_x item) x),
      (Z.eqb_spec (it_y item) y); simpl; try done. congruence.
Qed.

Lemma entry_None (m : list (Z * Z * Z * Q)) (k : Z * Z * Z) :
  Forall (λ e, key_lt k e.1 = true) m → entry m k = None.
Proof.
  induction 1 as [|[k' v] m Hk _ IH]; [done|]. simpl in *.
  case_bool_decide as Heq; [|done].
  subst k'. by rewrite key_lt_irrefl in Hk.
Qed.

Lemma entry_elem (m : list (Z * Z * Z * Q)) (k : Z * Z * Z) (v : Q) :
  StronglySorted (λ a b, key_lt a.1 b.1 = true) m →
  (k, v) ∈ m ↔ entry m k = Some v.
Proof.
  induction 1 as [|[k' v'] m _ IH Hall]; simpl.
  - split; [intros Hin; by apply elem_of_nil in Hin|done].
  - rewrite elem_of_cons, IH. case_bool_decide as Heq.
    + subst k'. split; [|intros [= ->]; by left].
      intros [[= ->] | He]; [done|].
      rewrite entry_None in He; [done|]. exact Hall.
    + split; [|by right]. intros [[= ? ?] | He]; [congruence|done].
Qed.

Lemma entry_keys (m : list (Z * Z * Z * Q)) (k : Z * Z * Z) :
  k ∈ m.*1 ↔ is_Some (entry m k).
Proof.
  induction m as [|[k' v'] m IH]; simpl.
  - split; [intros Hin; by apply elem_of_nil in Hin|by intros [? ?]].
  - rewrite elem_of_cons, IH. case_bool_decide as Heq.
    + split; [by eexists|]. intros _. by left.
    + split; [|by right]. intros [-> | ?]; [done|done].
Qed.

(** [combined[key] += z] keeps the entries in key order, and changes the
    entry of [key] only. *)
Lemma combine_add_spec (key : Z * Z * Z) (z : Q)
    (m : list (Z * Z * Z * Q)) :
  StronglySorted (λ a b, key_lt a.1 b.1 = true) m →
  StronglySorted (λ a b, key_lt a.1 b.1 = true) (combine_add key z m) ∧
  (∀ k, entry (combine_add key z m) k
        = if bool_decide (k = key)
          then Some (default 0%Q (entry m key) + z)%Q
          else entry m k) ∧
  (∀ lo, key_lt lo key = true → Forall (λ e, key_lt lo e.1 = true) m →
         Forall (λ e, key_lt lo e.1 = true) (combine_add key z m)).
Proof.
  induction 1 as [|[k' v'] m Hs IH Hall]; simpl.
  - split; [repeat constructor|]. split.
    + intros k. repeat case_bool_decide; congruence.
    + intros lo Hlo _. by repeat constructor.
  - destruct IH as (IHs & IHe & IHlo). simpl in Hall.
    destruct (key_lt key k') eqn:Hlt; [|destruct (key_lt k' key) eqn:Hgt].
    + assert (Hafter : Forall (λ e, key_lt key e.1 = true) m).
      { eapply Forall_impl; [exact Hall|]. intros e He.
        by eapply key_lt_trans. }
      split; [|split].
      * constructor; [by constructor|]. by constructor.
      * intros k. simpl. repeat case_bool_decide; subst; try congruence.
        -- by rewrite key_lt_irrefl in Hlt.
        -- by rewrite entry_None.
      * intros lo Hlo Hm. by constructor.
    + split; [|split].
      * constructor; [done|]. by apply IHlo.
      * intros k. simpl. rewrite IHe.
        repeat case_bool_decide; subst; try congruence;
          try by rewrite key_lt_irrefl in Hgt.
      * intros lo Hlo Hm. apply Forall_cons in Hm as [Hk' Hm].
        constructor; [done|]. by apply IHlo.
    + pose proof (key_lt_total _ _ Hlt Hgt) as ->.
      split; [|split].
      * by constructor.
      * intros k. simpl. repeat case_bool_decide; subst; try congruence.
        reflexivity.
      * intros lo Hlo Hm. apply Forall_cons in Hm as [Hk' Hm].
        by constructor.
Qed.

Lemma combined_snoc (sched : list ScheduleItem) (item : ScheduleItem) :
  combined (sched ++ [item])
  = combine_add (item_key item) (it_z item) (combined sched).
Proof. unfold combined. by rewrite foldl_app. Qed.

Lemma merged_amount_snoc (sched : list ScheduleItem) (item : ScheduleItem)
    (k : Z * Z * Z) :
  merged_amount (sched ++ [item]) k
  = if bool_decide (item_key item = k)
    then (merged_amount sched k + it_z item)%Q else merged_amount sched k.
Proof.
  unfold merged_amount. rewrite List.filter_app. cbn [List.filter].
  rewrite at_cell_key. case_bool_decide.
  - unfold delivered. by rewrite foldl_app.
  - by rewrite app_nil_r.
Qed.

Lemma merged_amount_absent (sched : list ScheduleItem) (k : Z * Z * Z) :
  k ∉ item_key <$> sched → merged_amount sched k = 0%Q.
Proof.
  unfold merged_amount. induction sched as [|item sched IH]; [done|].
  rewrite fmap_cons, not_elem_of_cons. intros [Hne Hnot].
  cbn [List.filter]. rewrite at_cell_key, bool_decide_false by done.
  by apply IH.
Qed.

Lemma combined_spec (sched : list ScheduleItem) :
  StronglySorted (λ a b, key_lt a.1 b.1 = true) (combined sched) ∧
  ∀ k, entry (combined sched) k
       = if bool_decide (k ∈ item_key <$> sched)
         then Some (merged_amount sched k) else None.
Proof.
  induction sched as [|item sched [IHs IHe]] using rev_ind.
  - split; [constructor|]. intros k.
    rewrite bool_decide_false; [done|]. apply not_elem_of_nil.
  - rewrite combined_snoc.
    destruct (combine_add_spec (item_key item) (it_z item) _ IHs)
      as (Hs & He & _).
    split; [exact Hs|]. intros k. rewrite He, IHe.
    rewrite merged_amount_snoc, fmap_app.
    destruct (decide (k = item_key item)) as [-> | Hne].
    + rewrite !(bool_decide_true (item_key item = item_key item)) by done.
      rewrite (bool_decide_true (item_key item ∈ _ ++ _))
        by (apply elem_of_app; right; by left).
      f_equal. case_bool_decide as Hin; [done|].
      by rewrite merged_amount_absent.
    + rewrite (bool_decide_false (k = _)), (bool_decide_false (_ = k))
        by done.
      rewrite (bool_decide_ext (k ∈ _ ++ _) (k ∈ item_key <$> sched));
        [done|].
      rewrite elem_of_app, fmap_cons, list_elem_of_singleton. tauto.
Qed.

Lemma Sorted_weaken {A : Type} (R1 R2 : relation A) (l : list A) :
  (∀ a b, R1 a b → R2 a b) → Sorted R1 l → Sorted R2 l.
Proof.
  intros Himpl. induction 1 as [|a l Hs IH Hhd]; constructor; [done|].
  destruct Hhd; constructor. by apply Himpl.
Qed.

Lemma key_lt_asym (a b : Z * Z * Z) :
  key_lt a b = true → key_lt b a = false.
Proof. rewrite key_lt_spec, key_lt_false. lia. Qed.

Lemma tuple_lt_asym (a b : Z * Z * Z * Q) :
  tuple_lt a b = true → tuple_lt b a = false.
Proof.
  unfold tuple_lt. rewrite orb_true_iff, andb_true_iff, negb_true_iff.
  intros [Hlt | [Hge Hq]].
  - by rewrite (key_lt_asym _ _ Hlt), Hlt.
  - rewrite Hge. simpl. apply andb_false_iff. right.
    apply Qltb_lt in Hq. apply Qltb_ge. lra.
Qed.

(** The entries of the map are in key order already: the sort of the
    items that follows leaves them as they are. *)
Lemma sort_combined (sched : list ScheduleItem) :
  std_sort tuple_lt (combined sched) = combined sched.
Proof.
  destruct (combined_spec sched) as [Hs _].
  assert (Htrans : Transitive (λ a b : Z * Z * Z * Q,
                                 key_lt b.1 a.1 = false)).
  { intros a b c Hab Hbc. by eapply key_le_trans. }
  apply (@Sorted_unique_strong _ _ Htrans).
  - intros x1 x2 H1 H2 H12 H21.
    rewrite std_sort_Permutation in H1.
    destruct x1 as [k1 v1], x2 as [k2 v2]. simpl in *.
    pose proof (key_lt_total _ _ H21 H12) as ->.
    apply (entry_elem _ _ _ Hs) in H1, H2. congruence.
  - eapply Sorted_weaken; [|apply std_sort_Sorted, tuple_lt_asym].
    intros a b. unfold tuple_lt. simpl. intros Hf.
    by apply orb_false_iff in Hf as [? _].
  - eapply Sorted_weaken; [|apply StronglySorted_Sorted, Hs].
    intros a b. apply key_lt_asym.
  - apply std_sort_Permutation.
Qed.

(** X20. The items that the output prints for a schedule are the entries
    of the map, which the sort that follows does not reorder: their keys
    [(t, x, y)] are strictly increasing, they are the keys of the items of
    the schedule, and the amount printed for a key is the sum, taken in
    schedule order from [0.0], of the amounts of the items with that
    key. *)
Theorem merged_items_sum_by_cell (sched : list ScheduleItem) :
  std_sort tuple_lt (combined sched) = combined sched ∧
  (∀ i j a b, (i < j)%nat →
     combined sched !! i = Some a → combined sched !! j = Some b →
     key_lt a.1 b.1 = true) ∧
  (∀ k v, (k, v) ∈ combined sched ↔
          k ∈ item_key <$> sched ∧ v = merged_amount sched k).
Proof.
  destruct (combined_spec sched) as [Hs He].
  split; [apply sort_combined|]. split.
  - by apply StronglySorted_lookup.
  - intros k v. rewrite (entry_elem _ _ _ Hs), He.
    case_bool_decide; split; try done.
    + intros [= <-]. done.
    + intros [_ ->]. done.
    + intros [? _]. done.
Qed.

(** The loop that finds the original index of a flow id that occurs in
    [flows]. *)
Lemma original_index_spec (flows : list Flow) (f : Z) (dflt : nat) :
  (∃ j fl, flows !! j = Some fl ∧ fl_f fl = f) →
  ∀ n i,
    (∀ j fl, (j < i)%nat → flows !! j = Some fl → fl_f fl ≠ f) →
    ∃ idx, original_index flows f n i dflt = Some idx ∧
      ((idx = dflt ∧
        ∀ j fl, (j < i + n)%nat → flows !! j = Some fl → fl_f fl ≠ f)
       ∨ (∃ fl, flows !! idx = Some fl ∧ fl_f fl = f ∧
            ∀ j fl', (j < idx)%nat → flows !! j = Some fl' →
                     fl_f fl' ≠ f)).
Proof.
  intros (j0 & fl0 & Hj0 & Hf0).
  induction n as [|n IH]; intros i Hbefore; cbn [original_index].
  - exists dflt. split; [done|]. left. split; [done|].
    by rewrite Nat.add_0_r.
  - assert (Hi : (i ≤ j0)%nat).
    { destruct (Nat.le_gt_cases i j0) as [? | Hlt]; [done|].
      by destruct (Hbefore j0 fl0 Hlt Hj0). }
    destruct (lookup_lt_is_Some_2 flows i) as [fl Hfl].
    { apply lookup_lt_Some in Hj0. lia. }
    rewrite Hfl. cbn [mbind option_bind].
    destruct (Z.eqb_spec (fl_f fl) f) as [Heq | Hne].
    + exists i. split; [done|]. right. by exists fl.
    + destruct (IH (S i)) as (idx & Hidx & Hcase).
      { intros j fl' Hj Hfl'.
        destruct (decide (j = i)) as [-> | Hji]; [congruence|].
        apply (Hbefore j fl'); [lia|done]. }
      exists idx. split; [done|].
      destruct Hcase as [[-> Hnone] | Hfirst]; [left|by right].
      split; [done|]. intros j fl' Hj. apply Hnone. lia.
Qed.

(** What the body of the output loop prints for a flow of [flows] at a
    position of the sorted list. *)
Lemma output_flow_spec (flows : list Flow) (FN : Z)
    (best_schedules : list (list ScheduleItem)) (pos : nat) (fl : Flow) :
  fl ∈ flows →
  ((pos < length flows)%nat ∧ length best_schedules = length flows
   ∨ is_Some (output_flow flows FN best_schedules pos fl)) →
  ∃ idx sched,
    best_schedules !! idx = Some sched ∧
    output_flow flows FN best_schedules pos fl
    = Some (mkOut (fl_f fl) (vsize (combined sched))
                  ((λ e, (e.1, print_amount e.2)) <$> combined sched)) ∧
    (vsize flows ≤ FN →
     ∃ fl0, flows !! idx = Some fl0 ∧ fl_f fl0 = fl_f fl ∧
       ∀ j fl', (j < idx)%nat → flows !! j = Some fl' →
                fl_f fl' ≠ fl_f fl).
Proof.
  intros Hin Hcase. unfold output_flow.
  apply list_elem_of_lookup in Hin as [j0 Hj0].
  destruct (original_index_spec flows (fl_f fl) pos) with
    (n := Z.to_nat FN) (i := 0%nat) as (idx & Hidx & Hfound).
  { by exists j0, fl. }
  { intros j fl' Hj. lia. }
  rewrite Hidx. cbn [mbind option_bind].
  assert (Hsched : is_Some (best_schedules !! idx)).
  { destruct Hcase as [[Hpos Hlen] | [o Ho]].
    - apply lookup_lt_is_Some. rewrite Hlen.
      destruct Hfound as [[-> _] | (fl0 & Hfl0 & _)]; [done|].
      by apply lookup_lt_Some in Hfl0.
    - unfold output_flow in Ho. rewrite Hidx in Ho.
      cbn [mbind option_bind] in Ho.
      destruct (best_schedules !! idx); [by eexists|done]. }
  destruct Hsched as [sched Hsched]. rewrite Hsched.
  cbn [mbind option_bind]. cbv zeta. rewrite sort_combined.
  exists idx, sched. split; [done|]. split; [done|].
  intros HFN. destruct Hfound as [[_ Hnone] | Hfirst]; [|exact Hfirst].
  exfalso. apply (Hnone j0 fl); [|done|done].
  apply lookup_lt_Some in Hj0. unfold vsize in HFN. lia.
Qed.

Lemma output_flow_id (flows : list Flow) (FN : Z)
    (best_schedules : list (list ScheduleItem)) (pos : nat) (fl : Flow)
    (o : OutFlow) :
  output_flow flows FN best_schedules pos fl = Some o → out_f o = fl_f fl.
Proof.
  unfold output_flow. intros Ho. repeat bind_inv Ho. by injection Ho as <-.
Qed.

(** With one schedule per flow the output loop returns, and its records
    carry the ids of the sorted flows in order. *)
Lemma output_total (flows : list Flow) (FN : Z)
    (best_schedules : list (list ScheduleItem)) :
  length best_schedules = length flows →
  ∃ outs, output flows FN best_schedules = Some outs.
Proof.
  intros Hlen. unfold output.
  set (sorted := std_sort (λ a b, fl_f a <? fl_f b) flows).
  assert (Hperm : sorted ≡ₚ flows) by apply std_sort_Permutation.
  apply mapM_is_Some, Forall_forall. intros [pos fl] Hp.
  apply elem_of_lookup_imap in Hp as (i & y & [= -> ->] & Hi).
  destruct (output_flow_spec flows FN best_schedules i y)
    as (idx & sched & _ & Ho & _).
  - rewrite <- Hperm. by eapply list_elem_of_lookup_2.
  - left. split; [|done]. apply lookup_lt_Some in Hi. by rewrite <- Hperm.
  - simpl. by rewrite Ho.
Qed.

Lemma output_ids (flows : list Flow) (FN : Z)
    (best_schedules : list (list ScheduleItem)) (outs : list OutFlow) :
  output flows FN best_schedules = Some outs →
  out_f <$> outs = fl_f <$> std_sort (λ a b, fl_f a <? fl_f b) flows.
Proof.
  unfold output. intros Houts. apply mapM_Some_1 in Houts.
  set (sorted := std_sort (λ a b, fl_f a <? fl_f b) flows) in *.
  assert (Hsnd : (λ p : nat * Flow, fl_f p.2) <$> imap pair sorted
                 = fl_f <$> sorted).
  { rewrite fmap_imap. by rewrite (imap_const fl_f). }
  rewrite <- Hsnd. symmetry.
  apply list_eq_Forall2, Forall2_fmap.
  eapply Forall2_impl; [exact Houts|].
  intros p o Ho. simpl in *. symmetry. by eapply output_flow_id.
Qed.

Lemma sort_by_id_sorted (flows : list Flow) :
  StronglySorted (λ a b, fl_f a ≤ fl_f b)
    (std_sort (λ a b, fl_f a <? fl_f b) flows).
Proof.
  apply Sorted_StronglySorted.
  - intros a b c Hab Hbc. lia.
  - eapply Sorted_weaken;
      [|apply (std_sort_Sorted (λ a b, fl_f a <? fl_f b))].
    + intros a b Hba. simpl in Hba. apply Z.ltb_ge in Hba. lia.
    + intros a b. rewrite Z.ltb_lt, Z.ltb_ge. lia.
Qed.

(** X21. Given one schedule per flow, the output loop returns one record
    per flow: the ids of the records are the ids of the flows, in
    ascending order. *)
Theorem output_one_record_per_flow (flows : list Flow) (FN : Z)
    (best_schedules : list (list ScheduleItem)) :
  length best_schedules = length flows →
  ∃ outs, output flows FN best_schedules = Some outs ∧
    out_f <$> outs ≡ₚ fl_f <$> flows ∧
    (∀ i j a b, (i < j)%nat → outs !! i = Some a → outs !! j = Some b →
                out_f a ≤ out_f b).
Proof.
  intros Hlen. destruct (output_total flows FN best_schedules Hlen)
    as [outs Houts].
  exists outs. split; [exact Houts|].
  pose proof (output_ids _ _ _ _ Houts) as Hids. split.
  - rewrite Hids. by rewrite std_sort_Permutation.
  - intros i j a b Hij Ha Hb.
    assert (Hi : (out_f <$> outs) !! i = Some (out_f a))
      by (by rewrite list_lookup_fmap, Ha).
    assert (Hj : (out_f <$> outs) !! j = Some (out_f b))
      by (by rewrite list_lookup_fmap, Hb).
    rewrite Hids, list_lookup_fmap in Hi, Hj.
    destruct (std_sort _ flows !! i) as [fa|] eqn:Hfa; [|done].
    destruct (std_sort _ flows !! j) as [fb|] eqn:Hfb; [|done].
    simpl in Hi, Hj. injection Hi as <-. injection Hj as <-.
    exact (StronglySorted_lookup _ _ (sort_by_id_sorted flows)
             i j fa fb Hij Hfa Hfb).
Qed.

Lemma output_one_record_per_flow_witness :
  ∃ outs,
    output [demo_flow_column; demo_flow] 2 [[mkItem 3 1 0 5]; []]
    = Some outs ∧
    out_f <$> outs ≡ₚ [2; 1].
Proof.
  destruct (output_one_record_per_flow [demo_flow_column; demo_flow] 2
              [[mkItem 3 1 0 5]; []] eq_refl) as (outs & Houts & Hperm & _).
  exists outs. split; [exact Houts|exact Hperm].
Defined.

(** X22. When [FN] covers the flows, the record printed under an id holds
    the merged items of the schedule of the first flow with that id, in
    input order: two flows that share an id are both printed with the
    schedule of the first of them. *)
Theorem output_prints_first_flow_of_id (flows : list Flow) (FN : Z)
    (best_schedules : list (list ScheduleItem)) (outs : list OutFlow)
    (pos : nat) (o : OutFlow) :
  output flows FN best_schedules = Some outs →
  vsize flows ≤ FN →
  outs !! pos = Some o →
  ∃ idx fl sched,
    flows !! idx = Some fl ∧ fl_f fl = out_f o ∧
    (∀ j fl', (j < idx)%nat → flows !! j = Some fl' →
              fl_f fl' ≠ out_f o) ∧
    best_schedules !! idx = Some sched ∧
    out_count o = vsize (combined sched) ∧
    out_items o = (λ e, (e.1, print_amount e.2)) <$> combined sched.
Proof.
  unfold output. intros Houts HFN Ho. apply mapM_Some_1 in Houts.
  destruct (Forall2_lookup_r _ _ _ _ _ Houts Ho) as ([p fl] & Hp & Hout).
  apply list_lookup_imap_Some in Hp as (y & Hy & [= -> ->]).
  simpl in Hout.
  destruct (output_flow_spec flows FN best_schedules pos y)
    as (idx & sched & Hsched & Hspec & Hfirst).
  - rewrite <- (std_sort_Permutation (λ a b, fl_f a <? fl_f b) flows).
    by eapply list_elem_of_lookup_2.
  - right. by eexists.
  - rewrite Hspec in Hout. injection Hout as <-. simpl.
    destruct (Hfirst HFN) as (fl0 & Hfl0 & Hid & Hbefore).
    by exists idx, fl0, sched.
Qed.

Lemma output_prints_first_flow_of_id_witness :
  ∃ outs o,
    output [demo_flow; demo_flow] 2 [[mkItem 3 0 0 5]; []] = Some outs ∧
    outs !! 1%nat = Some o ∧
    out_items o = (λ e, (e.1, print_amount e.2))
                  <$> combined [mkItem 3 0 0 5].
Proof.
  destruct (output [demo_flow; demo_flow] 2 [[mkItem 3 0 0 5]; []])
    as [outs|] eqn:Houts; [|vm_compute in Houts; discriminate Houts].
  destruct (outs !! 1%nat) as [o|] eqn:Ho.
  2:{ vm_compute in Houts. injection Houts as <-. discriminate Ho. }
  destruct (output_prints_first_flow_of_id [demo_flow; demo_flow] 2
              [[mkItem 3 0 0 5]; []] outs 1%nat o Houts)
    as (idx & fl & sched & Hfl & Hid & Hbefore & Hsched & _ & Hitems);
    [unfold vsize; simpl; lia|exact Ho|].
  exists outs, o. split; [reflexivity|]. split; [exact Ho|].
  destruct idx as [|idx].
  - injection Hsched as <-. exact Hitems.
  - exfalso. apply (Hbefore 0%nat demo_flow); [lia|reflexivity|].
    destruct idx as [|[|idx]]; [|done|done].
    injection Hfl as <-. exact Hid.
Defined.

(** ** The printed amounts *)

Lemma floor_unique (x : Q) (m : Z) :
  (inject_Z m <= x)%Q → (x < inject_Z m + 1)%Q → Qfloor x = m.
Proof.
  intros Hlo Hhi.
  pose proof (Qfloor_le x) as Hf1. pose proof (Qlt_floor x) as Hf2.
  assert (H1 : (Qfloor x < m + 1)%Z).
  { rewrite Zlt_Qlt, inject_Z_plus. change (inject_Z 1) with 1%Q.
    set (a := inject_Z (Qfloor x)) in *. set (b := inject_Z m) in *.
    clearbody a b. lra. }
  assert (H2 : (m < Qfloor x + 1)%Z).
  { rewrite Zlt_Qlt. set (a := inject_Z (Qfloor x + 1)) in *.
    set (b := inject_Z m) in *. clearbody a b. lra. }
  lia.
Qed.

Lemma round_near (z : Q) (n : Z) :
  (Qabs (z - of_int n) < 0.5)%Q → round z = n.
Proof.
  unfold of_int. intros Hn. apply Qabs_Qlt_condition in Hn.
  unfold round. destruct (Qltb z 0).
  - rewrite (floor_unique _ (- n)); [lia| |]; rewrite inject_Z_opp;
      set (b := inject_Z n) in *; clearbody b; lra.
  - apply floor_unique; set (b := inject_Z n) in *; clearbody b; lra.
Qed.

(** X23. An amount that is less than 1e-9 away from an integer [n] is
    printed as the [int] that the conversion of [n] gives: [n] itself when
    it fits an [int], and [INT_MIN] when it does not.  Every other amount
    is printed with six decimals. *)
Theorem amount_printed_as_integer (z : Q) :
  (∃ n, (Qabs (z - of_int n) < eps)%Q ∧
        print_amount z = PrintInt (cast_int n) ∧
        (- 2 ^ 31 ≤ n < 2 ^ 31 → print_amount z = PrintInt n)) ∨
  ((∀ n, ¬ (Qabs (z - of_int n) < eps)%Q) ∧ print_amount z = PrintFixed z).
Proof.
  unfold print_amount.
  destruct (Qltb (Qabs (z - of_int (round z))) eps) eqn:Hlt.
  - left. exists (round z). apply Qltb_lt in Hlt.
    split; [exact Hlt|]. split; [reflexivity|].
    intros Hfit. unfold cast_int.
    destruct (Z.leb_spec (- 2 ^ 31) (round z)); [|lia].
    destruct (Z.ltb_spec (round z) (2 ^ 31)); [|lia]. reflexivity.
  - right. split; [|reflexivity]. intros n Hn.
    assert (Hround : round z = n).
    { apply round_near. unfold eps in Hn.
      eapply Qlt_trans; [exact Hn|]. reflexivity. }
    rewrite Hround in Hlt. apply Qltb_ge in Hlt.
    apply (Qlt_not_le _ _ Hn Hlt).
Qed.

(** ** Binary64: exact operations on dyadic amounts *)






























(** ** The binary64 decoder on dyadic amounts *)


















Lemma b64_greedy_allocate_inv (G : B64.Globals) (flows : list B64.Flow)
    (solution : list Z) (schedules : list (list B64.ScheduleItem))
    (score : B64.double) :
  B64.greedy_allocate G flows solution = Some (schedules, score) →
  ∃ T M N rem0 rem',
    B64.dims (B64.g_pre_bw G) = Some (T, M, N) ∧
    B64.init_capacity (B64.g_pre_bw G) T M N = Some rem0 ∧
    B64.allocate_all G M N flows solution (B64.flow_order flows) rem0
                     (replicate (length flows) []) = Some (rem', schedules) ∧
    B64.total_score G flows schedules = Some score.
Proof.
  unfold B64.greedy_allocate. intros Hg.
  destruct (B64.dims (B64.g_pre_bw G)) as [[[T M] N]|]; [|done].
  cbn [mbind option_bind] in Hg. repeat bind_inv Hg.
  injection Hg as <- <-. by do 5 eexists.
Qed.







(** ** Signs of binary64 results *)

Lemma not_negative_cases (x : B64.double) :
  B64.not_negative x ↔
  match x with
  | S754_zero _ | S754_nan => True
  | S754_infinity s | S754_finite s _ _ => s = false
  end.
Proof.
  unfold B64.not_negative, B64.ltb, SFltb, B64.zero.
  destruct x as [s|s| |s m e]; try destruct s; cbn [SFcompare];
    split; done.
Qed.

Lemma sign_clear_not_negative (x : B64.double) :
  B64.sign_clear x → B64.not_negative x.
Proof.
  intros Hx. apply not_negative_cases.
  destruct x as [s|s| |s m e]; done.
Qed.

Lemma round_aux_sign_clear (m e : Z) (l : location) :
  B64.sign_clear (binary_round_aux B64.prec B64.emax false m e l).
Proof.
  unfold binary_round_aux.
  destruct (shr_fexp B64.prec B64.emax m e l) as [mrs' e'].
  destruct (shr_fexp B64.prec B64.emax _ e' loc_Exact) as [mrs'' e''].
  destruct (shr_m mrs''); [done| |done].
  destruct (e'' <=? B64.emax - B64.prec); done.
Qed.

Lemma round_sign_clear (p : positive) (e : Z) :
  B64.sign_clear (binary_round B64.prec B64.emax false p e).
Proof.
  unfold binary_round.
  destruct (shl_align p e _) as [mz ez]. apply round_aux_sign_clear.
Qed.

Lemma of_int_sign_clear (n : Z) : 0 ≤ n → B64.sign_clear (B64.of_int n).
Proof.
  intros Hn. destruct n as [|p|p]; [done| |lia].
  apply round_sign_clear.
Qed.

Lemma add_sign_clear (a b : B64.double) :
  B64.sign_clear a → B64.not_negative b → B64.sign_clear (B64.add a b).
Proof.
  intros Ha Hb. apply not_negative_cases in Hb.
  destruct a as [sa|sa| |sa ma ea], b as [sb|sb| |sb mb eb];
    simplify_eq/=; try done; try (by destruct sb).
  apply round_sign_clear.
Qed.

Lemma add_not_negative (a b : B64.double) :
  B64.not_negative a → B64.not_negative b → B64.not_negative (B64.add a b).
Proof.
  intros Ha Hb. apply not_negative_cases in Ha.
  destruct a as [[]|sa| |sa ma ea];
    try (by apply sign_clear_not_negative, add_sign_clear).
  apply not_negative_cases in Hb. apply not_negative_cases.
  destruct b as [[]|sb| |sb mb eb]; simplify_eq/=; done.
Qed.

Lemma mul_not_negative (a b : B64.double) :
  B64.not_negative a → B64.not_negative b → B64.not_negative (B64.mul a b).
Proof.
  intros Ha Hb. apply not_negative_cases in Ha, Hb.
  destruct a as [sa|sa| |sa ma ea], b as [sb|sb| |sb mb eb];
    simplify_eq/=; try (by apply not_negative_cases).
  apply sign_clear_not_negative, round_aux_sign_clear.
Qed.

Lemma div_not_negative (a b : B64.double) :
  B64.not_negative a → B64.sign_clear b → B64.not_negative (B64.div a b).
Proof.
  intros Ha Hb. apply not_negative_cases in Ha.
  destruct a as [sa|sa| |sa ma ea], b as [sb|sb| |sb mb eb];
    simplify_eq/=; try (by apply not_negative_cases).
  unfold B64.div. cbn [SFdiv xorb].
  destruct (SFdiv_core_binary _ _ _ _ _ _) as [[mz ez] lz].
  apply sign_clear_not_negative, round_aux_sign_clear.
Qed.

Lemma dmin_not_negative (a b : B64.double) :
  B64.not_negative a → B64.not_negative b → B64.not_negative (B64.dmin a b).
Proof. intros Ha Hb. unfold B64.dmin. by destruct (B64.ltb b a). Qed.

(** What passes the test [s <= 1e-9] with [false] is above [1e-9], or a
    NaN. *)
Lemma above_eps_sign_clear (s : B64.double) :
  B64.leb s B64.eps = false → B64.sign_clear s.
Proof.
  assert (He : B64.eps = S754_finite false 4835703278458517 (-82))
    by (vm_compute; reflexivity).
  rewrite He. unfold B64.leb, SFleb.
  destruct s as [[]|[]| |[] m e]; cbn [SFcompare]; done.
Qed.

Lemma above_eps_positive (x : B64.double) :
  B64.ltb B64.eps x = true → B64.sign_clear x.
Proof.
  assert (He : B64.eps = S754_finite false 4835703278458517 (-82))
    by (vm_compute; reflexivity).
  rewrite He. unfold B64.ltb, SFltb.
  destruct x as [[]|[]| |[] m e]; cbn [SFcompare]; done.
Qed.

(** ** The binary64 score *)

Lemma b64_score_step_sign (G : B64.Globals) (flow : B64.Flow)
    (acc acc' : B64.ScoreAcc) (item : B64.ScheduleItem) :
  B64.score_step G flow acc item = Some acc' →
  Forall B64.not_negative (B64.g_delay_factor G) →
  Forall B64.not_negative (B64.g_distance_factor G) →
  B64.sign_clear (B64.fl_s flow) →
  B64.not_negative (B64.it_z item) →
  B64.not_negative (B64.transmitted acc) →
  B64.not_negative (B64.delay_sum acc) →
  B64.not_negative (B64.dist_sum acc) →
  B64.not_negative (B64.transmitted acc') ∧
  B64.not_negative (B64.delay_sum acc') ∧
  B64.not_negative (B64.dist_sum acc').
Proof.
  unfold B64.score_step. cbv zeta. intros Hs Hdelay Hdist Hfs Hz Ht Hd Hi.
  repeat bind_inv Hs. injection Hs as <-.
  repeat match goal with H : lookup_clamped _ _ = Some _ |- _ =>
    apply lookup_clamped_Some in H as [_ H] end.
  match goal with H : _ ∈ B64.g_delay_factor G |- _ =>
    apply (proj1 (Forall_forall _ _) Hdelay) in H; rename H into Hdf end.
  match goal with H : _ ∈ B64.g_distance_factor G |- _ =>
    apply (proj1 (Forall_forall _ _) Hdist) in H; rename H into Hif end.
  pose proof (div_not_negative _ _ Hz Hfs) as Hq.
  cbn [B64.transmitted B64.delay_sum B64.dist_sum].
  split; [by apply add_not_negative|].
  split; apply add_not_negative; try done; by apply mul_not_negative.
Qed.

Lemma b64_score_loop_sign (G : B64.Globals) (flow : B64.Flow)
    (schedule : list B64.ScheduleItem) :
  Forall B64.not_negative (B64.g_delay_factor G) →
  Forall B64.not_negative (B64.g_distance_factor G) →
  B64.sign_clear (B64.fl_s flow) →
  Forall (λ item, B64.not_negative (B64.it_z item)) schedule →
  ∀ acc acc',
    foldlM (B64.score_step G flow) acc schedule = Some acc' →
    B64.not_negative (B64.transmitted acc) →
    B64.not_negative (B64.delay_sum acc) →
    B64.not_negative (B64.dist_sum acc) →
    B64.not_negative (B64.transmitted acc') ∧
    B64.not_negative (B64.delay_sum acc') ∧
    B64.not_negative (B64.dist_sum acc').
Proof.
  intros Hdelay Hdist Hfs Hitems.
  induction Hitems as [|item schedule Hz _ IH]; intros acc acc';
    cbn [foldlM].
  - by intros [= <-].
  - intros Hf Ht Hd Hi. bind_inv Hf.
    match goal with H : B64.score_step _ _ _ _ = Some _ |- _ =>
      destruct (b64_score_step_sign _ _ _ _ _ H Hdelay Hdist Hfs Hz Ht Hd Hi)
        as (Ht' & Hd' & Hi') end.
    by eapply IH.
Qed.

Lemma decimal_not_negative (n d : Z) :
  0 ≤ n → 0 ≤ d → B64.not_negative (B64.decimal n d).
Proof.
  intros Hn Hd. unfold B64.decimal. apply div_not_negative.
  - by apply sign_clear_not_negative, of_int_sign_clear.
  - by apply of_int_sign_clear.
Qed.

(** The score that is returned is not below 0. *)
Lemma b64_score_sign (G : B64.Globals) (flow : B64.Flow)
    (schedule : list B64.ScheduleItem) (v : B64.double) :
  B64.compute_flow_score_fast G flow schedule = Some v →
  Forall B64.not_negative (B64.g_delay_factor G) →
  Forall B64.not_negative (B64.g_distance_factor G) →
  Forall (λ item, B64.not_negative (B64.it_z item)) schedule →
  B64.not_negative v.
Proof.
  unfold B64.compute_flow_score_fast. intros Hv Hdelay Hdist Hitems.
  destruct (B64.leb (B64.fl_s flow) B64.eps) eqn:Hs.
  { by injection Hv as <-. }
  apply above_eps_sign_clear in Hs.
  bind_inv Hv. apply (inj Some) in Hv as <-.
  match goal with H : foldlM _ _ _ = Some ?a |- _ =>
    destruct (b64_score_loop_sign G flow schedule Hdelay Hdist Hs Hitems
                _ _ H) as (Ht & Hd & Hi); [done..|]; rename a into acc end.
  assert (H1 : B64.not_negative (B64.of_int 1)).
  { apply sign_clear_not_negative, of_int_sign_clear. lia. }
  apply mul_not_negative.
  { apply sign_clear_not_negative, of_int_sign_clear. lia. }
  apply add_not_negative; [apply add_not_negative;
                             [apply add_not_negative|]|];
    (apply mul_not_negative; [apply decimal_not_negative; lia|]).
  - apply dmin_not_negative; [|exact H1].
    apply div_not_negative; [exact Ht|exact Hs].
  - exact Hd.
  - exact Hi.
  - apply div_not_negative; [exact H1|].
    apply of_int_sign_clear. case_bool_decide; lia.
Qed.





(** ** The binary64 aggregate score *)

(** Every amount that a pass pushes is above [1e-9] or a NaN: it is the
    entry of the table, which passed the test [avail > 1e-9], or the
    remaining need, which did not pass the test [need <= 1e-9]. *)
Lemma b64_consume_sign (M N cx cy : Z) (slots : list B64.TimeSlotInfo) :
  ∀ rem need rem' need' items,
    B64.consume M N cx cy slots rem need = Some (rem', need', items) →
    Forall (λ item, B64.sign_clear (B64.it_z item)) items.
Proof.
  induction slots as [|slot rest IH]; intros rem need rem' need' items;
    cbn [B64.consume].
  - by intros [= <- <- <-].
  - destruct (B64.leb need B64.eps) eqn:Hbreak; [by intros [= <- <- <-]|].
    intros Hc. bind_inv Hc.
    match goal with H : vget rem _ = Some ?a |- _ => rename a into avail end.
    destruct (B64.ltb B64.eps avail) eqn:Hpos; [|by eapply IH].
    repeat bind_inv Hc. apply (inj Some) in Hc. injection Hc as <- <- <-.
    constructor; [|by eapply IH]. cbn [B64.it_z]. unfold B64.dmin.
    destruct (B64.ltb need avail).
    + by apply above_eps_sign_clear.
    + by apply above_eps_positive.
Qed.

Lemma b64_allocate_flow_sign (G : B64.Globals) (M N : Z)
    (solution : list Z) (idx : nat) (fl : B64.Flow)
    (rem rem' : list B64.double) (items : list B64.ScheduleItem) :
  B64.allocate_flow G M N solution idx fl rem = Some (rem', items) →
  Forall (λ item, B64.sign_clear (B64.it_z item)) items.
Proof.
  unfold B64.allocate_flow. intros Ha. repeat bind_inv Ha.
  match goal with H : B64.consume _ _ _ _ _ rem _ = Some _ |- _ =>
    apply b64_consume_sign in H; rename H into H1 end.
  destruct (B64.ltb _ _ && _).
  - repeat bind_inv Ha. apply (inj Some) in Ha. injection Ha as <- <-.
    match goal with H : B64.consume _ _ _ _ _ _ _ = Some _ |- _ =>
      apply b64_consume_sign in H; rename H into H2 end.
    by apply Forall_app.
  - apply (inj Some) in Ha. by injection Ha as <- <-.
Qed.

Lemma b64_allocate_all_sign (G : B64.Globals) (M N : Z)
    (flows : list B64.Flow) (solution : list Z) (order : list nat) :
  ∀ rem schedules rem' schedules',
    B64.allocate_all G M N flows solution order rem schedules
    = Some (rem', schedules') →
    Forall (Forall (λ item, B64.sign_clear (B64.it_z item))) schedules →
    Forall (Forall (λ item, B64.sign_clear (B64.it_z item))) schedules'.
Proof.
  induction order as [|idx order IH]; intros rem schedules rem' schedules';
    cbn [B64.allocate_all]; intros Ha Hall.
  - by injection Ha as <- <-.
  - repeat bind_inv Ha.
    match goal with H : B64.allocate_flow _ _ _ _ _ _ _ = _ |- _ =>
      apply b64_allocate_flow_sign in H; rename H into Hitems end.
    match goal with H : schedules !! idx = Some ?o |- _ =>
      rename H into Hold; rename o into old end.
    eapply IH; [exact Ha|]. apply Forall_insert; [done|].
    apply Forall_app. split; [|done].
    by eapply (Forall_lookup_1 _ _ _ _ Hall).
Qed.

Lemma b64_total_demand_sign (flows : list B64.Flow) :
  Forall (λ fl, B64.not_negative (B64.fl_s fl)) flows →
  ∀ a, B64.sign_clear a →
       B64.sign_clear (foldl (λ a fl, B64.add a (B64.fl_s fl)) a flows).
Proof.
  induction 1 as [|fl flows Hs _ IH]; intros a Ha; cbn [foldl]; [done|].
  apply IH. by apply add_sign_clear.
Qed.

(** X5. In binary64, on decay tables that hold no value below 0 and for
    flows whose demands are not below 0, the aggregate score that the
    decoder returns is not below 0. *)
Theorem aggregate_score_not_negative (G : B64.Globals)
    (flows : list B64.Flow) (sol : list Z)
    (schedules : list (list B64.ScheduleItem)) (score : B64.double) :
  B64.greedy_allocate G flows sol = Some (schedules, score) →
  Forall B64.not_negative (B64.g_delay_factor G) →
  Forall B64.not_negative (B64.g_distance_factor G) →
  Forall (λ fl, B64.not_negative (B64.fl_s fl)) flows →
  B64.not_negative score.
Proof.
  intros Hg Hdelay Hdist Hdem.
  apply b64_greedy_allocate_inv in Hg
    as (T & M & N & rem0 & rem' & _ & _ & Hall & Hscore).
  apply b64_allocate_all_sign in Hall.
  2:{ apply Forall_replicate, Forall_nil_2. }
  unfold B64.total_score in Hscore. bind_inv Hscore.
  apply (inj Some) in Hscore as <-.
  apply div_not_negative.
  - match goal with H : foldlM _ _ _ = Some ?w |- _ =>
      revert H; generalize w end.
    assert (Hz : B64.not_negative B64.zero) by done. revert Hz.
    generalize B64.zero at 1 2. generalize (seq 0 (length flows)).
    intros l. induction l as [|i l IH]; intros w0 Hw0 w; cbn [foldlM].
    + by intros [= <-].
    + intros Hf. bind_inv Hf. eapply IH; [|exact Hf].
      repeat bind_inv E. apply (inj Some) in E as <-.
      apply add_not_negative; [done|]. apply mul_not_negative.
      * match goal with H : B64.compute_flow_score_fast _ _ _ = Some _ |- _ =>
          apply (b64_score_sign _ _ _ _ H Hdelay Hdist) end.
        match goal with H : schedules !! i = Some _ |- _ =>
          pose proof (Forall_lookup_1 _ _ _ _ Hall H) as Hs end.
        eapply Forall_impl; [exact Hs|].
        intros item. apply sign_clear_not_negative.
      * match goal with H : flows !! i = Some _ |- _ =>
          apply (Forall_lookup_1 _ _ _ _ Hdem H) end.
  - apply add_sign_clear.
    + by apply b64_total_demand_sign.
    + apply decimal_not_negative; lia.
Qed.

Lemma aggregate_score_not_negative_witness :
  ∃ schedules score,
    B64.greedy_allocate halves_G halves_flows [0; 0]
    = Some (schedules, score) ∧ B64.not_negative score.
Proof.
  destruct (B64.greedy_allocate halves_G halves_flows [0; 0])
    as [[schedules score]|] eqn:Hg; [|vm_compute in Hg; discriminate Hg].
  exists schedules, score. split; [reflexivity|].
  apply (aggregate_score_not_negative halves_G halves_flows [0; 0]
           schedules score Hg).
  - repeat constructor.
  - repeat constructor.
  - repeat constructor.
Defined.

(** ** The binary64 decay tables *)








(** ** The whole run *)

(** X14. When the preprocessing builds its tables over a field of at least
    one cell whose flat index fits an [int], with decay tables that are not
    empty, and there is at least one flow, [solve] runs its three phases
    and its output without a fault.  The schedules it prints are those
    that the decoder gives the solution returned by the search, their
    score is the best score of the search and is not below the score of
    the initial solution, and one record is printed per flow. *)
Theorem solve_returns (log : Q → Q) (dist delay : list Q)
    (M N FN T : Z) (uav_b : list (list Q)) (uav_phi : list (list Z))
    (flows : list Flow) (g : list (list (list Q))) (G' : Globals) :
  build_bandwidth_matrix M N T uav_b uav_phi = Some g →
  0 < T → 0 < M → T * M * N < 2 ^ 31 →
  dist ≠ [] → delay ≠ [] →
  build_smart_candidates log (mkGlobals g dist delay [] []) flows T M N 60
  = Some G' →
  flows ≠ [] →
  ∃ schedules_init score_init best_solution best_schedules final_score outs,
    greedy_allocate G' flows (generate_smart_initial_solution flows)
    = Some (schedules_init, score_init) ∧
    local_search G' flows (generate_smart_initial_solution flows)
                 score_init 150 = Some (best_solution, final_score) ∧
    greedy_allocate G' flows best_solution
    = Some (best_schedules, final_score) ∧
    solve log dist delay M N FN T uav_b uav_phi flows
    = Some (best_schedules, final_score) ∧
    (score_init <= final_score)%Q ∧
    solve_output log dist delay M N FN T uav_b uav_phi flows = Some outs ∧
    length outs = length flows.
Proof.
  intros Hg HT HM Hfit Hdist Hdelay Hb Hne.
  pose proof (preprocessing_tables_ready log M N T 60 uav_b uav_phi dist
                delay flows G' g Hg HT HM Hfit Hdist Hdelay Hb) as Hready.
  assert (Hinit : solution_ok flows (generate_smart_initial_solution flows)).
  { unfold generate_smart_initial_solution. split.
    - apply length_replicate.
    - apply Forall_forall. intros c Hc.
      apply elem_of_replicate in Hc as [-> _]. lia. }
  destruct (greedy_allocate_total G' flows _ T M N (Hready _ Hinit))
    as (schedules_init & score_init & Hgi & _).
  destruct (local_search_total G' flows T M N _ score_init 150
              Hne Hready Hinit) as (best & bs & Hls & Hok).
  destruct (local_search_decoded _ _ _ _ _ _ _ _ Hgi Hls) as [sch Hdec].
  destruct (greedy_allocate_total G' flows best T M N (Hready _ Hok))
    as (sch' & bs' & Hdec' & Hlen & _).
  rewrite Hdec in Hdec'. injection Hdec' as <- <-.
  destruct (output_total flows FN sch Hlen) as [outs Houts].
  assert (Hsolve : solve log dist delay M N FN T uav_b uav_phi flows
                   = Some (sch, bs)).
  { unfold solve. rewrite Hg. cbn [mbind option_bind]. rewrite Hb.
    cbn [mbind option_bind]. cbv zeta. rewrite Hgi.
    cbn [mbind option_bind]. rewrite Hls. cbn [mbind option_bind].
    rewrite Hdec. reflexivity. }
  exists schedules_init, score_init, best, sch, bs, outs.
  split; [exact Hgi|]. split; [exact Hls|]. split; [exact Hdec|].
  split; [exact Hsolve|].
  split; [exact (local_search_improves _ _ _ _ _ _ _ Hls)|]. split.
  - unfold solve_output. rewrite Hsolve. exact Houts.
  - pose proof (output_ids _ _ _ _ Houts) as Hids.
    apply (f_equal length) in Hids. rewrite !length_fmap in Hids.
    rewrite Hids. by rewrite std_sort_Permutation.
Qed.

Lemma solve_returns_witness :
  ∃ schedules score outs,
    solve demo_log demo_distance demo_delay 2 2 1 10 demo_uav_b demo_uav_phi
          [demo_flow] = Some (schedules, score) ∧
    solve_output demo_log demo_distance demo_delay 2 2 1 10 demo_uav_b
                 demo_uav_phi [demo_flow] = Some outs.
Proof.
  destruct (solve_returns demo_log demo_distance demo_delay 2 2 1 10
              demo_uav_b demo_uav_phi [demo_flow] demo_field demo_G)
    as (_ & _ & _ & schedules & score & outs & _ & _ & _ & Hsolve & _
        & Hout & _).
  - exact demo_field_built.
  - lia.
  - lia.
  - lia.
  - discriminate.
  - discriminate.
  - exact demo_G_built.
  - discriminate.
  - exists schedules, score, outs. split; [exact Hsolve|exact Hout].
Defined.
